(** * useForceGraph: the node-link visualisation engine of the study tracker

    A shallow embedding of the React hook [useForceGraph] (the force/orbit/
    focus-path graph view): the position store, the camera transform and its
    animation, hit-testing, the force-directed and orbit layout steps, the
    focus-path derivation and the reconciliation of the position store.

    Conventions of the embedding.
    - JavaScript numbers are idealised as real numbers ([R]): arithmetic is
      exact, there is no rounding, no NaN and no infinity.  Division is
      Rocq's total [/]; every theorem that depends on a quotient states that
      the divisor is not zero (or proves it).
    - [useRef] cells are the fields of the record [State]; the hook's
      arguments are the record [Props]; every handler is a function from
      [State] to [State], or to [option State] where JavaScript can leave
      the finite numbers ([None] then).  Memoised values ([parentMap], the
      focus path) are arguments of the handlers that close over them.
    - [Math.random] is an oracle: a stream [rng : nat -> R] read at a cursor
      that every draw advances.
    - The object [nodePositions.current] (a [Record<string, NodePosition>])
      is a [gmap string NodePosition]; entries are mutated in place in the
      source, so every write goes through the map and later reads see it. *)

(** Around the hook, the development also embeds the pointer handlers and
    the drawing geometry of the hook (orbit rings, tooltip box, hover
    highlighting), its caller the map view (the graph built from the
    questions, the subtree filter, the mastery zones) and the weight update
    of the spaced-repetition service.  Map and Set objects are finite maps
    and sets, or lists where the insertion order is read; an exception is
    [None]; dates are left to the caller. *)

From Stdlib Require Import Reals Lra Lia List Ascii String Permutation Sorted.
From stdpp Require Import gmap strings.

Open Scope R_scope.

(** ** JavaScript number idioms *)

(** [a < b] as a test. *)
Definition ltb (a b : R) : bool := if Rlt_dec a b then true else false.

(** Truthiness of a number: [0] is falsy (there is no NaN here). *)
Definition truthy (v : R) : bool := if Req_dec_T v 0 then false else true.

(** [v || d] on numbers. *)
Definition jsOr (v d : R) : R := if truthy v then v else d.

(** [Math.min(...l)] and [Math.max(...l)]: JavaScript answers [Infinity] and
    [-Infinity] on the empty list, which is [None] here. *)
Fixpoint minOf (l : list R) : option R :=
  match l with
  | [] => None
  | a :: l' => Some (match minOf l' with Some m => Rmin a m | None => a end)
  end.

Fixpoint maxOf (l : list R) : option R :=
  match l with
  | [] => None
  | a :: l' => Some (match maxOf l' with Some m => Rmax a m | None => a end)
  end.

(** ** Data model *)

(** [interface Node]; [type] and the other free-form keys are reached through
    the index signature in the source.  Colours and the label play no part in
    layout, camera or hit-testing and are left out. *)
Record Node := mkNode {
  n_id : string;
  n_type : string;
  n_radius : R;
  n_masteryScore : option R
}.

Record Link := mkLink { l_source : string; l_target : string }.

Record NodePosition := mkPos { p_x : R; p_y : R; p_vx : R; p_vy : R }.

Record Transform := mkTransform { t_k : R; t_x : R; t_y : R }.

Record Dimensions := mkDims { width : R; height : R }.

Inductive LayoutMode := graph | orbit.

(** The arguments of the hook. *)
Record Props := mkProps {
  nodes : list Node;
  links : list Link;
  dimensions : Dimensions;
  layoutMode : LayoutMode;
  weakestPathNode : option Node
}.

(** The [useRef] cells the modelled handlers read or write. *)
Record State := mkState {
  nodePositions : gmap string NodePosition;
  transform : Transform;
  targetTransform : option Transform;
  isStable : bool;
  draggedNode : option Node;
  orbitCenteringDone : bool
}.

(** The initial values of the refs. *)
Definition initialState (mode : LayoutMode) : State :=
  {| nodePositions := ∅;
     transform := mkTransform 1 0 0;
     targetTransform := None;
     isStable := match mode with orbit => true | graph => false end;
     draggedNode := None;
     orbitCenteringDone := true |}.

Definition set_nodePositions (m : gmap string NodePosition) (s : State) : State :=
  {| nodePositions := m; transform := transform s;
     targetTransform := targetTransform s; isStable := isStable s;
     draggedNode := draggedNode s; orbitCenteringDone := orbitCenteringDone s |}.

Definition set_transform (t : Transform) (s : State) : State :=
  {| nodePositions := nodePositions s; transform := t;
     targetTransform := targetTransform s; isStable := isStable s;
     draggedNode := draggedNode s; orbitCenteringDone := orbitCenteringDone s |}.

Definition set_targetTransform (t : option Transform) (s : State) : State :=
  {| nodePositions := nodePositions s; transform := transform s;
     targetTransform := t; isStable := isStable s;
     draggedNode := draggedNode s; orbitCenteringDone := orbitCenteringDone s |}.

Definition set_isStable (b : bool) (s : State) : State :=
  {| nodePositions := nodePositions s; transform := transform s;
     targetTransform := targetTransform s; isStable := b;
     draggedNode := draggedNode s; orbitCenteringDone := orbitCenteringDone s |}.

Definition set_draggedNode (d : option Node) (s : State) : State :=
  {| nodePositions := nodePositions s; transform := transform s;
     targetTransform := targetTransform s; isStable := isStable s;
     draggedNode := d; orbitCenteringDone := orbitCenteringDone s |}.

Definition set_orbitCenteringDone (b : bool) (s : State) : State :=
  {| nodePositions := nodePositions s; transform := transform s;
     targetTransform := targetTransform s; isStable := isStable s;
     draggedNode := draggedNode s; orbitCenteringDone := b |}.

(** ** Camera: wheel zoom, imperative zoom, animation, fit-to-bounds *)

(** The scale range of the wheel and of [zoom]. *)
Definition kMin : R := 0.2.
Definition kMax : R := 5.

Definition clampScale (v : R) : R := Rmax kMin (Rmin kMax v).

(** [handleWheel]: [(px, py)] is [getMousePos(e, false)], the pointer in
    canvas pixels; [canvas] tells whether [canvasRef.current] is set. *)
Definition handleWheel (canvas : bool) (px py deltaY : R) (s : State) : State :=
  let s := set_targetTransform None s in
  if canvas then
    let t := transform s in
    let factor := 1 - deltaY * 0.001 in
    let newScale := clampScale (t_k t * factor) in
    let k := newScale / t_k t in
    set_transform
      {| t_k := newScale;
         t_x := px - (px - t_x t) * k;
         t_y := py - (py - t_y t) * k |} s
  else s.

(** [zoom(factor)], anchored at the centre of the viewport; it only sets the
    pending target. *)
Definition zoom (p : Props) (factor : R) (s : State) : State :=
  let w := width (dimensions p) in
  let h := height (dimensions p) in
  let t := transform s in
  let newScale := clampScale (t_k t * factor) in
  let k := newScale / t_k t in
  set_targetTransform
    (Some {| t_k := newScale;
             t_x := w / 2 - (w / 2 - t_x t) * k;
             t_y := h / 2 - (h / 2 - t_y t) * k |}) s.

Definition zoomIn (p : Props) : State -> State := zoom p 1.3.
Definition zoomOut (p : Props) : State -> State := zoom p (1 / 1.3).

(** The camera part of the frame callback [loop]: blend towards the pending
    target by [t = 0.08], snap and clear it once within the tolerances. *)
Definition animateTransform (s : State) : State :=
  match targetTransform s with
  | None => s
  | Some tg =>
      let t := 0.08 in
      let c := transform s in
      let k' := t_k c * (1 - t) + t_k tg * t in
      let x' := t_x c * (1 - t) + t_x tg * t in
      let y' := t_y c * (1 - t) + t_y tg * t in
      let dx := Rabs (x' - t_x tg) in
      let dy := Rabs (y' - t_y tg) in
      let dk := Rabs (k' - t_k tg) in
      if ltb dx 0.1 && ltb dy 0.1 && ltb dk 0.001
      then set_targetTransform None (set_transform tg s)
      else set_transform {| t_k := k'; t_x := x'; t_y := y' |} s
  end.

(** ** Values derived from the props ([useMemo]) *)

(** [parentMap]: the last link into a target wins. *)
Definition buildParentMap (p : Props) : gmap string string :=
  match nodes p with
  | [] => ∅
  | _ => foldl (fun m l => <[l_target l := l_source l]> m) ∅ (links p)
  end.

(** [childrenMap]: an empty array per node, then every link whose source is
    a node appends its target. *)
Definition buildChildrenMap (p : Props) : gmap string (list string) :=
  match nodes p with
  | [] => ∅
  | _ =>
      foldl (fun m l =>
               match m !! l_source l with
               | Some cs => <[l_source l := cs ++ [l_target l]]> m
               | None => m
               end)
            (foldl (fun m n => <[n_id n := []]> m) ∅ (nodes p))
            (links p)
  end.

(** The breadth-first [while (queue.length > 0)] loop that fills
    [allDescendants].  The source loop has no bound (it does not end on a
    cyclic link set); [fuel] bounds the number of iterations and [None]
    means the bound was reached with the queue not yet empty. *)
Fixpoint collectDescendants (fuel : nat) (cm : gmap string (list string))
    (queue : list string) (allDescendants : gset string) : option (gset string) :=
  match queue with
  | [] => Some allDescendants
  | currentId :: rest =>
      match fuel with
      | O => None
      | S fuel' =>
          collectDescendants fuel' cm
            (rest ++ default [] (cm !! currentId))
            ({[currentId]} ∪ allDescendants)
      end
  end.

(** [Array.prototype.sort(cmp)]: the sorting algorithm belongs to the engine,
    ECMAScript only fixes that it is stable; a stable insertion sort stands
    for it.  [cmp a b > 0] means that [a] goes after [b]. *)
Fixpoint insertBy {A} (cmp : A -> A -> R) (a : A) (l : list A) : list A :=
  match l with
  | [] => [a]
  | b :: l' => if ltb 0 (cmp a b) then b :: insertBy cmp a l' else a :: b :: l'
  end.

Definition sortBy {A} (cmp : A -> A -> R) (l : list A) : list A :=
  fold_right (insertBy cmp) [] l.

(** [n.masteryScore ?? 0], the sort key of the focus path. *)
Definition weight (n : Node) : R := default 0 (n_masteryScore n).

Definition byMastery (a b : Node) : R := weight a - weight b.

Definition isQuestion (n : Node) : bool := String.eqb (n_type n) "question".

(** The [for] loop that links [sortedQuestions[i]] to [sortedQuestions[i+1]]. *)
Fixpoint pathLinks (l : list Node) : list Link :=
  match l with
  | a :: (b :: _) as l' => mkLink (n_id a) (n_id b) :: pathLinks l'
  | _ => []
  end.

Record FocusPath := mkFocusPath {
  weakestPathNodes : list Node;
  weakestPathLinks : list Link;
  pathNodeIds : gset string
}.

Definition noFocusPath : FocusPath := mkFocusPath [] [] ∅.

(** The [useMemo] that derives the focus path from [weakestPathNode]. *)
Definition focusPath (fuel : nat) (p : Props) : option FocusPath :=
  match weakestPathNode p with
  | None => Some noFocusPath
  | Some w =>
      let cm := buildChildrenMap p in
      allDescendants ← collectDescendants fuel cm [n_id w] ∅;
      let questionsOnPath :=
        filter (fun n => isQuestion n && bool_decide (n_id n ∈ allDescendants))
               (nodes p) in
      let sortedQuestions := sortBy byMastery questionsOnPath in
      let pathIds : gset string :=
        {[n_id w]} ∪ list_to_set (map n_id sortedQuestions) in
      let pathIds :=
        if String.eqb (n_type w) "subject"
        then pathIds ∪ list_to_set (default [] (cm !! n_id w))
        else pathIds in
      Some (mkFocusPath sortedQuestions (pathLinks sortedQuestions) pathIds)
  end.

(** ** [resetView] *)

Definition homeTransform : Transform := mkTransform 1 0 0.

(** [nodePositions.current[n.id]?.x || 0] and its [y] twin. *)
Definition storedX (store : gmap string NodePosition) (n : Node) : R :=
  match store !! n_id n with Some pos => jsOr (p_x pos) 0 | None => 0 end.

Definition storedY (store : gmap string NodePosition) (n : Node) : R :=
  match store !! n_id n with Some pos => jsOr (p_y pos) 0 | None => 0 end.

(** [.map(...).filter(Boolean)]: zero coordinates are dropped. *)
Definition frameXs (store : gmap string NodePosition) (l : list Node) : list R :=
  filter (fun v => truthy v = true) (map (storedX store) l).

Definition frameYs (store : gmap string NodePosition) (l : list Node) : list R :=
  filter (fun v => truthy v = true) (map (storedY store) l).

(** The bounding box and the fitted target.  [None] stands for the
    non-finite result JavaScript computes when [ys] is empty while [xs] is
    not ([Math.min()] is [Infinity]). *)
Definition fitTarget (d : Dimensions) (xs ys : list R) : option Transform :=
  minX ← minOf xs; maxX ← maxOf xs;
  minY ← minOf ys; maxY ← maxOf ys;
  let graphWidth := maxX - minX in
  let graphHeight := maxY - minY in
  let scaleX := width d / (graphWidth + 100) in
  let scaleY := height d / (graphHeight + 100) in
  let newScale := Rmin scaleX (Rmin scaleY 1.5) in
  Some {| t_k := newScale;
          t_x := width d / 2 - ((minX + maxX) / 2) * newScale;
          t_y := height d / 2 - ((minY + maxY) / 2) * newScale |}.

(** The closing [if (layoutMode === 'graph' && !weakestPathNode)]. *)
Definition wakeGraph (p : Props) (s : State) : State :=
  match layoutMode p, weakestPathNode p with
  | graph, None => set_isStable false s
  | _, _ => s
  end.

(** [layoutMode === 'graph' || weakestPathNode]. *)
Definition fitsNodes (p : Props) : bool :=
  match layoutMode p, weakestPathNode p with
  | orbit, None => false
  | _, _ => true
  end.

(** [nodesToFrame]; [ids] is the memoised [pathNodeIds]. *)
Definition nodesToFrame (p : Props) (ids : gset string) : list Node :=
  match weakestPathNode p with
  | Some _ => filter (fun n => n_id n ∈ ids) (nodes p)
  | None => nodes p
  end.

(** [resetView].  The three early [return]s skip the closing statement. *)
Definition resetView (p : Props) (ids : gset string) (s : State) : option State :=
  let home := set_targetTransform (Some homeTransform) s in
  let d := dimensions p in
  if match nodes p with [] => true | _ => false end || negb (truthy (width d))
  then Some home
  else if fitsNodes p then
    match nodesToFrame p ids with
    | [] => Some home
    | _ =>
        let xs := frameXs (nodePositions s) (nodesToFrame p ids) in
        let ys := frameYs (nodePositions s) (nodesToFrame p ids) in
        match xs with
        | [] => Some home
        | _ =>
            t ← fitTarget d xs ys;
            Some (wakeGraph p (set_targetTransform (Some t) s))
        end
    end
  else Some (wakeGraph p home).



(** ** Hit-testing *)

(** [getMousePos(e, useTransform)]; [(sx, sy)] is the pointer relative to the
    canvas ([e.clientX - rect.left], [e.clientY - rect.top]). *)
Definition getMousePos (canvas : bool) (sx sy : R) (useTransform : bool)
    (s : State) : R * R :=
  if canvas then
    if useTransform
    then ((sx - t_x (transform s)) / t_k (transform s),
          (sy - t_y (transform s)) / t_k (transform s))
    else (sx, sy)
  else (0, 0).

Definition scaledHitRadius (s : State) (radius : R) : R :=
  (radius + 5) / t_k (transform s).

(** The test in the body of the scan of [findNodeAtPos]. *)
Definition hits (s : State) (x y : R) (n : Node) : bool :=
  match nodePositions s !! n_id n with
  | Some pos =>
      let dx := x - p_x pos in
      let dy := y - p_y pos in
      ltb (dx * dx + dy * dy) (scaledHitRadius s (n_radius n) ^ 2)
  | None => false
  end.

(** [findNodeAtPos]: the scan runs from the last node down to the first. *)
Definition findNodeAtPos (p : Props) (s : State) (x y : R) : option Node :=
  find (hits s x y) (rev (nodes p)).

(** ** Reconciliation of the position store *)

(** The fresh entry of a node that has none: two draws, [x] first. *)
Definition freshPosition (d : Dimensions) (rng : nat -> R) (i : nat) : NodePosition :=
  {| p_x := width d / 2 + (rng i - 0.5) * 100;
     p_y := height d / 2 + (rng (S i) - 0.5) * 100;
     p_vx := 0;
     p_vy := 0 |}.

(** One iteration of [nodes.forEach] in the reconciling effect: [old] is
    [nodePositions.current], the accumulator is [newPositions] and the
    cursor of the random stream. *)
Definition reconcileNode (d : Dimensions) (old : gmap string NodePosition)
    (rng : nat -> R) (acc : gmap string NodePosition * nat) (n : Node)
    : gmap string NodePosition * nat :=
  match old !! n_id n with
  | Some existing => (<[n_id n := existing]> (fst acc), snd acc)
  | None => (<[n_id n := freshPosition d rng (snd acc)]> (fst acc), S (S (snd acc)))
  end.

(** The effect on [[nodes, dimensions.width, dimensions.height]]. *)
Definition reconcile (p : Props) (rng : nat -> R) (i : nat) (s : State)
    : State * nat :=
  let r := foldl (reconcileNode (dimensions p) (nodePositions s) rng) (∅, i) (nodes p) in
  (set_nodePositions (fst r) s, snd r).

(** ** Force-directed mode *)

Definition REPULSION_STRENGTH : R := -150.
Definition LINK_STRENGTH : R := 0.06.
Definition LINK_DISTANCE : R := 70.
Definition CENTER_STRENGTH : R := 0.01.
Definition DAMPING : R := 0.9.
Definition ENERGY_THRESHOLD : R := 0.005.

(** [Math.sqrt(dx * dx + dy * dy) || 1]. *)
Definition distanceOr1 (dx dy : R) : R := jsOr (sqrt (dx * dx + dy * dy)) 1.

(** [pos.vx += dvx; pos.vy += dvy] on the entry of [id]. *)
Definition addVelocity (id : string) (dvx dvy : R)
    (m : gmap string NodePosition) : gmap string NodePosition :=
  alter (fun pos => mkPos (p_x pos) (p_y pos) (p_vx pos + dvx) (p_vy pos + dvy)) id m.

(** What one node [b] at [posB] adds to the velocity of the node at [posA]:
    the body of the inner [nodes.forEach]. *)
Definition repulsion (posA posB : NodePosition) : R * R :=
  let dx := p_x posB - p_x posA in
  let dy := p_y posB - p_y posA in
  let distance := distanceOr1 dx dy in
  let force := REPULSION_STRENGTH / (distance * distance) in
  ((dx / distance) * force, (dy / distance) * force).

(** The spring of one link: [(fx, fy)] is added to the source and
    subtracted from the target. *)
Definition spring (source target : NodePosition) : R * R :=
  let dx := p_x target - p_x source in
  let dy := p_y target - p_y source in
  let distance := distanceOr1 dx dy in
  let force := (distance - LINK_DISTANCE) * LINK_STRENGTH in
  ((dx / distance) * force, (dy / distance) * force).

(** The inner [nodes.forEach(nodeB => ...)] for a fixed [nodeA]. *)
Definition repelFrom (a : Node) (m : gmap string NodePosition) (b : Node)
    : gmap string NodePosition :=
  if String.eqb (n_id a) (n_id b) then m
  else
    match m !! n_id a, m !! n_id b with
    | Some posA, Some posB =>
        let f := repulsion posA posB in
        addVelocity (n_id a) (fst f) (snd f) m
    | _, _ => m
    end.

(** The outer [nodes.forEach(nodeA => ...)]: the pull to the centre, then
    the repulsion of every other node. *)
Definition applyNodeForces (p : Props) (m : gmap string NodePosition) (a : Node)
    : gmap string NodePosition :=
  match m !! n_id a with
  | None => m
  | Some posA =>
      let d := dimensions p in
      let m1 := addVelocity (n_id a)
                  ((width d / 2 - p_x posA) * CENTER_STRENGTH)
                  ((height d / 2 - p_y posA) * CENTER_STRENGTH) m in
      foldl (repelFrom a) m1 (nodes p)
  end.

(** [links.forEach(link => ...)]: the source is updated first, the target is
    read back from the store afterwards (a link from a node to itself meets
    the same entry twice). *)
Definition applyLink (m : gmap string NodePosition) (l : Link)
    : gmap string NodePosition :=
  match m !! l_source l, m !! l_target l with
  | Some source, Some target =>
      let f := spring source target in
      addVelocity (l_target l) (- fst f) (- snd f)
        (addVelocity (l_source l) (fst f) (snd f) m)
  | _, _ => m
  end.

Definition isDragged (s : State) (n : Node) : bool :=
  match draggedNode s with
  | Some d => String.eqb (n_id d) (n_id n)
  | None => false
  end.

(** The last [nodes.forEach]: damping, integration and the energy sum. *)
Definition integrateNode (s : State) (acc : gmap string NodePosition * R) (n : Node)
    : gmap string NodePosition * R :=
  match fst acc !! n_id n with
  | None => acc
  | Some pos =>
      if isDragged s n then acc
      else
        let vx := p_vx pos * DAMPING in
        let vy := p_vy pos * DAMPING in
        (<[n_id n := mkPos (p_x pos + vx) (p_y pos + vy) vx vy]> (fst acc),
         snd acc + (vx * vx + vy * vy))
  end.

(** The store and the total energy computed by a tick that does integrate. *)
Definition forceStep (p : Props) (s : State) : gmap string NodePosition * R :=
  let m1 := foldl (applyNodeForces p) (nodePositions s) (nodes p) in
  let m2 := foldl applyLink m1 (links p) in
  foldl (integrateNode s) (m2, 0) (nodes p).

Definition hasDrag (s : State) : bool :=
  match draggedNode s with Some _ => true | None => false end.

(** [runGraphSimulation]. *)
Definition runGraphSimulation (p : Props) (s : State) : State :=
  if isStable s && negb (hasDrag s) then s
  else
    let r := forceStep p s in
    let s' := set_nodePositions (fst r) s in
    if negb (hasDrag s) && ltb (snd r) ENERGY_THRESHOLD
    then set_isStable true s'
    else s'.

(** ** Orbit mode *)

(** [subjectAngles]: the [i]-th node of type [subject] gets
    [(i / subjects.length) * 2 * Math.PI]. *)
Fixpoint subjectAnglesFrom (count : nat) (i : nat) (subjects : list Node)
    (m : gmap string R) : gmap string R :=
  match subjects with
  | [] => m
  | subj :: rest =>
      subjectAnglesFrom count (S i) rest
        (<[n_id subj := (INR i / INR count) * 2 * PI]> m)
  end.

Definition subjectAngles (p : Props) : gmap string R :=
  let subjects := filter (fun n => String.eqb (n_type n) "subject" = true) (nodes p) in
  subjectAnglesFrom (length subjects) 0 subjects ∅.

(** [getRootSubjectId]: at most five steps up [parentMap]; an empty parent
    id is falsy and ends the walk. *)
Fixpoint rootSubjectFrom (pm : gmap string string) (steps : nat) (currentId : string)
    : option string :=
  match steps with
  | O => None
  | S steps' =>
      if String.prefix "subject-" currentId then Some currentId
      else
        match pm !! currentId with
        | Some parentId =>
            if String.eqb parentId "" then None
            else rootSubjectFrom pm steps' parentId
        | None => None
        end
  end.

Definition getRootSubjectId (pm : gmap string string) (nodeId : string) : option string :=
  rootSubjectFrom pm 5 nodeId.

(** [parseInt(id.replace(/[^0-9]/g, ''), 10)]: the value of the decimal
    digits of the id, read left to right; [None] (NaN) when there is none. *)
Definition digitValue (c : ascii) : option nat :=
  let n := nat_of_ascii c in
  if (48 <=? n)%nat && (n <=? 57)%nat then Some (n - 48)%nat else None.

Fixpoint digitsOf (s : string) : list nat :=
  match s with
  | EmptyString => []
  | String c s' =>
      match digitValue c with
      | Some v => v :: digitsOf s'
      | None => digitsOf s'
      end
  end.

Definition parseDigits (s : string) : option nat :=
  match digitsOf s with
  | [] => None
  | ds => Some (foldl (fun acc v => (10 * acc + v)%nat) 0%nat ds)
  end.

(** The base angle of a node: the angle of its root subject ([?? 0] when the
    root is not in [subjectAngles]), else the angle read off its id. *)
Definition baseAngle (p : Props) (pm : gmap string string) (n : Node) : R :=
  match getRootSubjectId pm (n_id n) with
  | Some rootSubjectId => default 0 (subjectAngles p !! rootSubjectId)
  | None =>
      jsOr (match parseDigits (n_id n) with Some v => INR v | None => 0 end) 1
        / 100 * PI * 2
  end.

(** [mastery = node.masteryScore ?? 50]. *)
Definition mastery (n : Node) : R := default 50 (n_masteryScore n).

(** [radiusFactor = 1 - mastery / 105]. *)
Definition radiusFactor (n : Node) : R := 1 - mastery n / 105.

(** The width of the random jitter of the angle. *)
Definition jitterSpan (n : Node) : R := if isQuestion n then 0.4 else 0.2.

(** The angle of the node for the draw [r] of [Math.random()]. *)
Definition orbitAngle (p : Props) (pm : gmap string string) (n : Node) (r : R) : R :=
  baseAngle p pm n + (r - 0.5) * jitterSpan n.

(** [(targetX, targetY)]. *)
Definition orbitTarget (p : Props) (pm : gmap string string) (n : Node) (r : R)
    : R * R :=
  let d := dimensions p in
  let centerX := width d / 2 in
  let centerY := height d / 2 in
  let radiusX := (width d / 2) * 0.9 in
  let radiusY := (height d / 2) * 0.9 in
  let angle := orbitAngle p pm n r in
  (centerX + cos angle * radiusX * radiusFactor n,
   centerY + sin angle * radiusY * radiusFactor n).

(** The accumulator of the [nodes.forEach] of [runOrbitLayout]: the store,
    [totalEnergy] and the cursor of the random stream. *)
Record OrbitAcc := mkOrbitAcc {
  o_store : gmap string NodePosition;
  o_energy : R;
  o_cursor : nat
}.

Definition orbitNode (p : Props) (pm : gmap string string) (s : State)
    (rng : nat -> R) (acc : OrbitAcc) (n : Node) : OrbitAcc :=
  match o_store acc !! n_id n with
  | None => acc
  | Some pos =>
      if isDragged s n then acc
      else
        let tgt := orbitTarget p pm n (rng (o_cursor acc)) in
        let vx := (fst tgt - p_x pos) * 0.05 in
        let vy := (snd tgt - p_y pos) * 0.05 in
        {| o_store := <[n_id n := mkPos (p_x pos + vx) (p_y pos + vy) vx vy]> (o_store acc);
           o_energy := o_energy acc + (Rabs vx + Rabs vy);
           o_cursor := S (o_cursor acc) |}
  end.

(** [runOrbitLayout]: the new store, the returned [totalEnergy] and the
    cursor after the draws. *)
Definition runOrbitLayout (p : Props) (pm : gmap string string) (rng : nat -> R)
    (i : nat) (s : State) : OrbitAcc :=
  foldl (orbitNode p pm s rng) (mkOrbitAcc (nodePositions s) 0 i) (nodes p).

(** ** The frame callback *)

(** The serpentine slot of the [i]-th node of the focus path, for
    [nodesPerRow = Math.floor(width * 0.8 / 120)] and [count] path nodes. *)
Definition serpentineSlot (d : Dimensions) (nodesPerRow : Z) (count : nat) (i : nat)
    : R * R :=
  let row := (Z.of_nat i / nodesPerRow)%Z in
  let col := Z.rem (Z.of_nat i) nodesPerRow in
  (width d / 2 + (IZR col - (IZR nodesPerRow - 1) / 2) * 120,
   height d / 2 + (IZR row - (INR count / IZR nodesPerRow - 1) / 2) * 100).

Fixpoint serpentineFrom (d : Dimensions) (nodesPerRow : Z) (count : nat) (i : nat)
    (path : list Node) (m : gmap string (R * R)) : gmap string (R * R) :=
  match path with
  | [] => m
  | n :: rest =>
      serpentineFrom d nodesPerRow count (S i) rest
        (<[n_id n := serpentineSlot d nodesPerRow count i]> m)
  end.

(** One node seeking its slot.  With [nodesPerRow = 0] the slot is not a
    finite number in JavaScript: [None]. *)
Definition seekSlot (nodesPerRow : Z) (slots : gmap string (R * R))
    (acc : option (gmap string NodePosition)) (n : Node)
    : option (gmap string NodePosition) :=
  m ← acc;
  match m !! n_id n, slots !! n_id n with
  | Some pos, Some slot =>
      if (nodesPerRow =? 0)%Z then None
      else
        let vx := (fst slot - p_x pos) * 0.1 in
        let vy := (snd slot - p_y pos) * 0.1 in
        Some (<[n_id n := mkPos (p_x pos + vx) (p_y pos + vy) vx vy]> m)
  | _, _ => Some m
  end.

Definition seekSerpentine (p : Props) (fp : FocusPath) (s : State) : option State :=
  let d := dimensions p in
  let nodesPerRow := Int_part (width d * 0.8 / 120) in
  let path := weakestPathNodes fp in
  let slots := serpentineFrom d nodesPerRow (length path) 0 path ∅ in
  m ← foldl (seekSlot nodesPerRow slots) (Some (nodePositions s)) (nodes p);
  Some (set_nodePositions m s).

(** The orbit branch of [loop]: the layout step, then the one-shot refit. *)
Definition orbitFrame (p : Props) (pm : gmap string string) (fp : FocusPath)
    (rng : nat -> R) (i : nat) (s : State) : option (State * nat) :=
  let r := runOrbitLayout p pm rng i s in
  let s1 := set_nodePositions (o_store r) s in
  if negb (orbitCenteringDone s1) && ltb (o_energy r) (0.05 * INR (length (nodes p)))
  then s2 ← resetView p (pathNodeIds fp) s1;
       Some (set_orbitCenteringDone true s2, o_cursor r)
  else Some (s1, o_cursor r).

(** [loop], one animation frame: camera, then the layout of the active
    mode.  Drawing does not touch the modelled state. *)
Definition loop (p : Props) (pm : gmap string string) (fp : FocusPath)
    (rng : nat -> R) (i : nat) (s : State) : option (State * nat) :=
  let s := animateTransform s in
  match weakestPathNode p with
  | Some _ => s' ← seekSerpentine p fp s; Some (s', i)
  | None =>
      match layoutMode p with
      | graph => Some (runGraphSimulation p s, i)
      | orbit => orbitFrame p pm fp rng i s
      end
  end.

(** [n] frames in a row. *)
Fixpoint frames (n : nat) (p : Props) (pm : gmap string string) (fp : FocusPath)
    (rng : nat -> R) (i : nat) (s : State) : option (State * nat) :=
  match n with
  | O => Some (s, i)
  | S n' =>
      r ← loop p pm fp rng i s;
      frames n' p pm fp rng (snd r) (fst r)
  end.

(** ** Pointer handlers *)

(** The fields of a [MouseEvent] that the handlers read. *)
Record MouseEvent := mkMouseEvent {
  clientX : R;
  clientY : R;
  movementX : R;
  movementY : R
}.

(** [canvas.getBoundingClientRect()], the part that is read. *)
Record Rect := mkRect { rect_left : R; rect_top : R }.

(** The refs of the pointer handlers that [State] does not hold. *)
Record Pointer := mkPointer {
  dragStartPos : R * R;
  isDraggingNode : bool;
  isPanning : bool;
  hoveredNode : option Node
}.

Definition initialPointer : Pointer := mkPointer (0, 0) false false None.

(** The calls of the two callbacks of the host. *)
Inductive Callback :=
| onNodeClick (n : option Node)
| onNodeHover (n : option Node).

(** [getMousePos(e, useTransform)] on an event; [canvas] is
    [canvasRef.current] with its bounding rectangle, if it is set. *)
Definition eventPos (canvas : option Rect) (e : MouseEvent) (useTransform : bool)
    (s : State) : R * R :=
  match canvas with
  | Some rect =>
      getMousePos true (clientX e - rect_left rect) (clientY e - rect_top rect)
        useTransform s
  | None => getMousePos false 0 0 useTransform s
  end.

(** [handleMouseDown]; [p] holds the props the callback closes over. *)
Definition handleMouseDown (p : Props) (canvas : option Rect) (e : MouseEvent)
    (st : State * Pointer) : State * Pointer :=
  let s := set_targetTransform None (fst st) in
  let pt := eventPos canvas e true s in
  let node := findNodeAtPos p s (fst pt) (snd pt) in
  let ptr := {| dragStartPos := (clientX e, clientY e);
                isDraggingNode := isDraggingNode (snd st);
                isPanning := isPanning (snd st);
                hoveredNode := hoveredNode (snd st) |} in
  match node, weakestPathNode p with
  | Some n, None =>
      let s := set_draggedNode (Some n) s in
      (match layoutMode p with graph => set_isStable false s | orbit => s end,
       {| dragStartPos := dragStartPos ptr; isDraggingNode := true;
          isPanning := isPanning ptr; hoveredNode := hoveredNode ptr |})
  | None, None =>
      (s, {| dragStartPos := dragStartPos ptr; isDraggingNode := isDraggingNode ptr;
             isPanning := true; hoveredNode := hoveredNode ptr |})
  | _, Some _ => (s, ptr)
  end.

(** [pos.vx = 0; pos.vy = 0; pos.x = x; pos.y = y] on the entry of [id], if
    there is one. *)
Definition pinAt (id : string) (x y : R) (m : gmap string NodePosition)
    : gmap string NodePosition :=
  match m !! id with
  | Some _ => <[id := mkPos x y 0 0]> m
  | None => m
  end.

(** [pos.vx = 0; pos.vy = 0] on the entry of [id], if there is one. *)
Definition stopNode (id : string) (m : gmap string NodePosition)
    : gmap string NodePosition :=
  alter (fun pos => mkPos (p_x pos) (p_y pos) 0 0) id m.

(** [hoveredNode.current?.id !== newHoveredNode?.id]. *)
Definition hoverChanged (old new : option Node) : bool :=
  negb (bool_decide (n_id <$> old = n_id <$> new)).

(** [handleMouseMove], with the callbacks it makes. *)
Definition handleMouseMove (p : Props) (canvas : option Rect) (e : MouseEvent)
    (st : State * Pointer) : State * Pointer * list Callback :=
  let s := fst st in
  let ptr := snd st in
  match canvas with
  | None => (s, ptr, [])
  | Some _ =>
      match draggedNode s with
      | Some d =>
          let pt := eventPos canvas e true s in
          (set_nodePositions (pinAt (n_id d) (fst pt) (snd pt) (nodePositions s)) s,
           ptr, [])
      | None =>
          if isPanning ptr then
            let t := transform s in
            (set_transform {| t_k := t_k t;
                              t_x := t_x t + movementX e;
                              t_y := t_y t + movementY e |} s,
             ptr, [])
          else
            let pt := eventPos canvas e true s in
            let newHoveredNode := findNodeAtPos p s (fst pt) (snd pt) in
            if hoverChanged (hoveredNode ptr) newHoveredNode
            then (s, {| dragStartPos := dragStartPos ptr;
                        isDraggingNode := isDraggingNode ptr;
                        isPanning := isPanning ptr;
                        hoveredNode := newHoveredNode |},
                  [onNodeHover newHoveredNode])
            else (s, ptr, [])
      end
  end.

(** The value [handleMouseMove] gives [canvas.style.cursor] last. *)
Definition cursorStyle (st : State * Pointer) : string :=
  match draggedNode (fst st) with
  | Some _ => "grabbing"
  | None =>
      if isPanning (snd st) then "grabbing"
      else match hoveredNode (snd st) with
           | Some _ => "pointer"
           | None => "grab"
           end
  end.

(** [handleMouseUp], with the callback it makes. *)
Definition handleMouseUp (p : Props) (canvas : option Rect) (e : MouseEvent)
    (st : State * Pointer) : State * Pointer * list Callback :=
  let s := fst st in
  let ptr := snd st in
  let s :=
    match draggedNode s with
    | Some d => set_nodePositions (stopNode (n_id d) (nodePositions s)) s
    | None => s
    end in
  let dx := clientX e - fst (dragStartPos ptr) in
  let dy := clientY e - snd (dragStartPos ptr) in
  let dist := sqrt (dx * dx + dy * dy) in
  let calls :=
    if ltb dist 3 then
      let pt := eventPos canvas e true s in
      [onNodeClick (findNodeAtPos p s (fst pt) (snd pt))]
    else [] in
  (set_draggedNode None s,
   {| dragStartPos := dragStartPos ptr; isDraggingNode := false;
      isPanning := false; hoveredNode := hoveredNode ptr |},
   calls).

(** A run of [mousemove] events, the callbacks in order. *)
Fixpoint handleMouseMoves (p : Props) (canvas : option Rect) (es : list MouseEvent)
    (st : State * Pointer) : State * Pointer * list Callback :=
  match es with
  | [] => (st, [])
  | e :: es' =>
      let r := handleMouseMove p canvas e st in
      let r' := handleMouseMoves p canvas es' (fst r) in
      (fst r', snd r ++ snd r')
  end.

(** What runs between a [mousedown] and its [mouseup]: [mousemove]s, and
    any other code of the page that runs on the same thread in between
    (animation frames, timers such as the [resetView] of the host, the
    wheel handler, the effects).  That other code writes none of the refs of
    [Pointer] and makes neither callback; it is given by the change it
    makes to the refs of [State]. *)
Inductive Between :=
| mouseMoved (e : MouseEvent)
| otherCode (f : State -> State).

Fixpoint handleBetween (p : Props) (canvas : option Rect) (l : list Between)
    (st : State * Pointer) : State * Pointer * list Callback :=
  match l with
  | [] => (st, [])
  | mouseMoved e :: l' =>
      let r := handleMouseMove p canvas e st in
      let r' := handleBetween p canvas l' (fst r) in
      (fst r', snd r ++ snd r')
  | otherCode f :: l' => handleBetween p canvas l' (f (fst st), snd st)
  end.

(** A whole gesture: [mousedown], what runs in between, [mouseup]. *)
Definition gesture (p : Props) (canvas : option Rect) (down : MouseEvent)
    (between : list Between) (up : MouseEvent) (st : State * Pointer)
    : State * Pointer * list Callback :=
  let r := handleBetween p canvas between (handleMouseDown p canvas down st) in
  let r' := handleMouseUp p canvas up (fst r) in
  (fst r', snd r ++ snd r').

(** ** Drawing: the orbit rings and the tooltip box *)

(** An ellipse filled on the canvas: centre and the two radii. *)
Record Ellipse := mkEllipse { e_cx : R; e_cy : R; e_rx : R; e_ry : R }.

(** [masteryToRadiusFactor] of [drawOrbitRings]. *)
Definition masteryToRadiusFactor (mastery : R) : R := 1 - mastery / 105.

(** [drawOrbitRings]: the three ellipses it fills, in drawing order. *)
Definition drawOrbitRings (centerX centerY radiusX radiusY : R) : list Ellipse :=
  let attentionRadiusFactor := masteryToRadiusFactor 40 in
  let safeRadiusFactor := masteryToRadiusFactor 80 in
  [mkEllipse centerX centerY radiusX radiusY;
   mkEllipse centerX centerY (radiusX * attentionRadiusFactor)
             (radiusY * attentionRadiusFactor);
   mkEllipse centerX centerY (radiusX * safeRadiusFactor) (radiusY * safeRadiusFactor)].

(** The rings painted by [draw]: in orbit mode without a focus path only. *)
Definition drawRings (p : Props) : list Ellipse :=
  match layoutMode p, weakestPathNode p with
  | orbit, None =>
      let d := dimensions p in
      let radiusX := (width d / 2) * 0.9 in
      let radiusY := (height d / 2) * 0.9 in
      drawOrbitRings (width d / 2) (height d / 2) radiusX radiusY
  | _, _ => []
  end.

(** The rectangle of the tooltip. *)
Record Box := mkBox { boxX : R; boxY : R; boxWidth : R; boxHeight : R }.

(** The tooltip of [draw]: shown for the hovered node when no node is
    dragged and the hovered node has an entry.  [textWidth] is the widest
    measured line and [lineCount] the number of lines. *)
Definition tooltipBox (p : Props) (s : State) (hovered : option Node)
    (textWidth : R) (lineCount : nat) : option Box :=
  match hovered, draggedNode s with
  | Some node, None =>
      pos ← nodePositions s !! n_id node;
      let fontSize := 12 in
      let padding := 8 in
      let lineHeight := fontSize * 1.4 in
      let boxWidth := textWidth + padding * 2 in
      let boxHeight := INR lineCount * lineHeight + padding * 2 - (lineHeight - fontSize) in
      let boxX := p_x pos + n_radius node + 10 in
      let boxY := p_y pos - boxHeight / 2 in
      let transformedWidth := width (dimensions p) / t_k (transform s) in
      let transformedHeight := height (dimensions p) / t_k (transform s) in
      let viewOriginX := - t_x (transform s) / t_k (transform s) in
      let viewOriginY := - t_y (transform s) / t_k (transform s) in
      let boxX := if ltb (viewOriginX + transformedWidth) (boxX + boxWidth)
                  then p_x pos - n_radius node - 10 - boxWidth else boxX in
      let boxY := if ltb boxY viewOriginY then viewOriginY + 5 else boxY in
      let boxY := if ltb (viewOriginY + transformedHeight) (boxY + boxHeight)
                  then viewOriginY + transformedHeight - boxHeight - 5 else boxY in
      Some (mkBox boxX boxY boxWidth boxHeight)
  | _, _ => None
  end.

(** ** The map view: mastery zones and the subtree filter *)

(** A question of the tracker: the fields read by the code modelled here.
    [srsStage] is an index, so an integer. *)
Record Question := mkQuestion {
  q_id : string;
  q_subject : string;
  q_topic : string;
  q_masteryScore : R;
  q_correctStreak : R;
  q_srsStage : Z;
  q_hotTopic : bool;
  q_totalAttempts : R
}.

Inductive MasteryZone := critical | attention | safe.

Record Zones := mkZones { z_critical : nat; z_attention : nat; z_safe : nat }.

(** [a >= b] on numbers. *)
Definition geb (a b : R) : bool := if Rle_dec b a then true else false.

(** The [summary] of [OrbitalSummary]. *)
Definition summary (questions : list Question) : Zones :=
  foldl (fun zones q =>
           if ltb (q_masteryScore q) 40
           then mkZones (S (z_critical zones)) (z_attention zones) (z_safe zones)
           else if ltb (q_masteryScore q) 80
           then mkZones (z_critical zones) (S (z_attention zones)) (z_safe zones)
           else mkZones (z_critical zones) (z_attention zones) (S (z_safe zones)))
        (mkZones 0 0 0) questions.

(** The [count] handed to the button of a zone. *)
Definition zoneCount (zone : MasteryZone) (zones : Zones) : nat :=
  match zone with
  | critical => z_critical zones
  | attention => z_attention zones
  | safe => z_safe zones
  end.

(** A [ZoneButton] is disabled when its count is 0. *)
Definition zoneButtonEnabled (zone : MasteryZone) (questions : list Question) : bool :=
  negb (zoneCount zone (summary questions) =? 0)%nat.

(** The filter of [handleZoneClick]. *)
Definition inZone (zone : MasteryZone) (q : Question) : bool :=
  match zone with
  | critical => ltb (q_masteryScore q) 40
  | attention => geb (q_masteryScore q) 40 && ltb (q_masteryScore q) 80
  | safe => geb (q_masteryScore q) 80
  end.

Definition titleMap (zone : MasteryZone) : string :=
  match zone with
  | critical => "Sessão: Zona Crítica"
  | attention => "Sessão: Zona de Atenção"
  | safe => "Sessão: Zona Segura"
  end.

(** [handleZoneClick]: the questions and the title of the study session it
    opens, [None] when it opens none. *)
Definition handleZoneClick (zone : MasteryZone) (questions : list Question)
    : option (list Question * string) :=
  let filteredQuestions := filter (fun q => inZone zone q) questions in
  if (0 <? length filteredQuestions)%nat
  then Some (filteredQuestions, titleMap zone)
  else None.

(** The [childrenMap] of the filter: every link appends its target to the
    array of its source. *)
Definition filterChildrenMap (allLinks : list Link) : gmap string (list string) :=
  foldl (fun m l => <[l_source l := default [] (m !! l_source l) ++ [l_target l]]> m)
        ∅ allLinks.

(** The body of [for (const childId of children)]. *)
Definition visitChild (acc : gset string * list string) (childId : string)
    : gset string * list string :=
  if bool_decide (childId ∈ acc.1) then acc
  else ({[childId]} ∪ acc.1, acc.2 ++ [childId]).

(** The [while (queue.length > 0)] loop of the filter; [fuel] bounds the
    number of iterations, [None] means the bound was reached. *)
Fixpoint visibleFrom (fuel : nat) (cm : gmap string (list string))
    (queue : list string) (visibleNodeIds : gset string) : option (gset string) :=
  match queue with
  | [] => Some visibleNodeIds
  | currentId :: rest =>
      match fuel with
      | O => None
      | S fuel' =>
          let children := default [] (cm !! currentId) in
          let acc := foldl visitChild (visibleNodeIds, rest) children in
          visibleFrom fuel' cm acc.2 acc.1
      end
  end.

(** The nodes and links handed to the hook: everything without a filter
    node, else what is visible from the filter node. *)
Definition filteredGraph (fuel : nat) (allNodes : list Node) (allLinks : list Link)
    (filterNode : option Node) : option (list Node * list Link) :=
  match filterNode with
  | None => Some (allNodes, allLinks)
  | Some f =>
      visibleNodeIds ←
        visibleFrom fuel (filterChildrenMap allLinks) [n_id f] {[n_id f]};
      let filteredNodes := filter (fun n => n_id n ∈ visibleNodeIds) allNodes in
      let filteredLinks :=
        filter (fun l => l_source l ∈ visibleNodeIds /\ l_target l ∈ visibleNodeIds)
               allLinks in
      Some (filteredNodes, filteredLinks)
  end.

(** ** Drawing: hover highlighting and dimming *)

(** [neighbors]: an empty set per node, then every link adds its target to
    the set of its source and its source to the set of its target, where
    these sets exist. *)
Definition buildNeighbors (p : Props) : gmap string (gset string) :=
  match nodes p with
  | [] => ∅
  | _ =>
      foldl (fun m l =>
               alter (fun s => {[l_source l]} ∪ s) (l_target l)
                     (alter (fun s => {[l_target l]} ∪ s) (l_source l) m))
            (foldl (fun m n => <[n_id n := ∅]> m) ∅ (nodes p))
            (links p)
  end.

(** [highlightedNodes] of [draw]. *)
Definition highlightedNodes (p : Props) (hovered : option Node) : gset string :=
  match hovered with
  | None => ∅
  | Some h => {[n_id h]} ∪ default ∅ (buildNeighbors p !! n_id h)
  end.

(** The opacity of the stroke of a link of [links]; these links are drawn
    outside focus mode only. *)
Definition linkStrokeAlpha (p : Props) (hovered : option Node) (l : Link) : R :=
  let highlighted := highlightedNodes p hovered in
  if bool_decide (is_Some hovered)
     && negb (bool_decide (l_source l ∈ highlighted)
              && bool_decide (l_target l ∈ highlighted))
  then 0.05 else 0.3.

(** [ctx.globalAlpha] for a node. *)
Definition nodeAlpha (p : Props) (fp : FocusPath) (hovered : option Node) (n : Node) : R :=
  let highlighted := highlightedNodes p hovered in
  let isDimmed :=
    (bool_decide (is_Some hovered) && negb (bool_decide (n_id n ∈ highlighted)))
    || (bool_decide (is_Some (weakestPathNode p))
        && negb (bool_decide (n_id n ∈ pathNodeIds fp))) in
  if isDimmed then 0.05 else 1.

(** The radius of the glow of a node at time [time]. *)
Definition glowRadius (time : R) (pos : NodePosition) (n : Node) : R :=
  let pulse := 0.5 + sin (time * 0.001 + p_x pos) * 0.2 in
  n_radius n + pulse * (if isQuestion n then 2 else 4).

(** ** The spaced-repetition service *)

(** [l[i]] for an integer [i]: [None] is [undefined]. *)
Definition arrayAt {A : Type} (l : list A) (i : Z) : option A :=
  if (i <? 0)%Z then None else l !! Z.to_nat i.

(** [a ?? b] on a value that may be [undefined]. *)
Definition nullish {A : Type} (a b : option A) : option A :=
  match a with Some _ => a | None => b end.

(** [l[i] || d] on numbers: [undefined] and [0] give [d]. *)
Definition arrayAtOr (l : list R) (i : Z) (d : R) : R :=
  match arrayAt l i with Some v => jsOr v d | None => d end.

(** The fields of the update that [calculateNewSrsState] computes from
    numbers.  The two dates are left to the caller: [u_nextReviewInDays] is
    the number of days handed to [addDaysISO(now, _)], [None] when it is
    not a number. *)
Record SrsUpdate := mkSrsUpdate {
  u_masteryScore : R;
  u_srsStage : Z;
  u_nextReviewInDays : option R;
  u_correctStreak : R;
  u_lastWasCorrect : bool;
  u_selfEvalLevel : Z;
  u_timeSec : Z;
  u_totalAttempts : R
}.

(** [calculateNewSrsState]; [daysSinceLastReview] is the difference of the
    two dates in days, computed by the caller. *)
Definition calculateNewSrsState (question : Question) (isCorrect : bool)
    (selfEvalLevel : Z) (timeTakenSec : R) (srsIntervals : list R)
    (daysSinceLastReview : R) : SrsUpdate :=
  let newCorrectStreak :=
    if isCorrect then jsOr (q_correctStreak question) 0 + 1 else 0 in
  let masteryDelta :=
    if isCorrect then
      let baseMasteryChange := arrayAtOr [0; 5; 10; 15] selfEvalLevel 10 in
      let standardTime := 90 in
      let timeFactor := Rmax (-1) ((standardTime - timeTakenSec) / standardTime) in
      let timeModifier := timeFactor * 5 in
      let intervalFactor :=
        ln (1 + (if ltb 0 daysSinceLastReview then daysSinceLastReview else 0)) in
      let intervalModifier := Rmin (intervalFactor * 2) 10 in
      let streakModifier := Rmin newCorrectStreak 5 in
      baseMasteryChange + timeModifier + intervalModifier + streakModifier
    else -25 in
  let newMastery :=
    Rmax 0 (Rmin 100 (jsOr (q_masteryScore question) 0 + masteryDelta)) in
  let newSrsStage :=
    if isCorrect
    then ((if (q_srsStage question =? 0)%Z then 0 else q_srsStage question) + 1)%Z
    else 0%Z in
  let nextReviewInDays :=
    if isCorrect then
      let last := (Z.of_nat (length srsIntervals) - 1)%Z in
      baseIntervalDays ←
        nullish (arrayAt srsIntervals (Z.min newSrsStage last))
                (arrayAt srsIntervals last);
      let masteryFactor := 1 + (newMastery - 70) / 100 in
      let evalFactor := arrayAtOr [0.9; 0.95; 1; 1.2] selfEvalLevel 1 in
      let finalIntervalDays := baseIntervalDays * masteryFactor * evalFactor in
      let finalIntervalDays :=
        if q_hotTopic question then Rmin finalIntervalDays 7 else finalIntervalDays in
      Some (Rmax 0.5 finalIntervalDays)
    else Some (default 1 (arrayAt srsIntervals 0)) in
  mkSrsUpdate newMastery newSrsStage nextReviewInDays newCorrectStreak isCorrect
              selfEvalLevel (Int_part (timeTakenSec + 0.5))
              (jsOr (q_totalAttempts question) 0 + 1).

(** ** The map view: nodes and links built from the questions *)

(** Truthiness of a string: the empty string is falsy. *)
Definition nonEmpty (s : string) : bool := negb (String.eqb s "").

(** An entry of [subjectData] and of [topicData]. *)
Record GroupData := mkGroupData { masterySum : R; questionCount : nat }.

(** One question in the first [questions.forEach], for one of the two maps:
    nothing for an empty key, else the entry of the key (created with zeros
    when missing) gets the weight added and its count raised. *)
Definition countQuestion (key : string) (masteryScore : R)
    (data : gmap string GroupData) : gmap string GroupData :=
  if nonEmpty key then
    let d := default (mkGroupData 0 0) (data !! key) in
    <[key := mkGroupData (masterySum d + masteryScore) (S (questionCount d))]> data
  else data.

Definition buildSubjectData (questions : list Question) : gmap string GroupData :=
  foldl (fun m q => countQuestion (q_subject q) (q_masteryScore q) m) ∅ questions.

Definition buildTopicData (questions : list Question) : gmap string GroupData :=
  foldl (fun m q => countQuestion (q_topic q) (q_masteryScore q) m) ∅ questions.

(** [Math.log2]. *)
Definition log2 (x : R) : R := ln x / ln 2.

(** [avgMastery]. *)
Definition avgMastery (data : GroupData) : R :=
  if (0 <? questionCount data)%nat
  then masterySum data / INR (questionCount data) else 50.

(** The fields of a subject node and of a topic node that [Node] keeps. *)
Definition subjectNode (subjectId : string) (data : GroupData) : Node :=
  mkNode subjectId "subject"
         (12 + Rmin (log2 (INR (questionCount data) + 1) * 2.5) 10)
         (Some (avgMastery data)).

Definition topicNode (topicId : string) (data : GroupData) : Node :=
  mkNode topicId "topic"
         (8 + Rmin (log2 (INR (questionCount data) + 1) * 2) 8)
         (Some (avgMastery data)).

(** The node of a question: radius 7 for a hot topic, else 5. *)
Definition questionNode (q : Question) : Node :=
  mkNode (q_id q) "question" (if q_hotTopic q then 7 else 5) (Some (q_masteryScore q)).

Definition subjectIdOf (q : Question) : string := "subject-" +:+ q_subject q.

Definition topicIdOf (q : Question) : string :=
  "topic-" +:+ q_subject q +:+ "-" +:+ q_topic q.

(** The collections filled by the second [questions.forEach]; the two maps
    of nodes are kept as lists, in insertion order. *)
Record MapBuild := mkMapBuild {
  b_subjectNodes : list Node;
  b_topicNodes : list Node;
  b_questionNodes : list Node;
  b_linkSet : gset string;
  b_finalLinks : list Link
}.

Definition hasNode (id : string) (l : list Node) : bool := bool_decide (id ∈ map n_id l).

(** The second [questions.forEach] handles one question in three blocks.
    [None] stands for the exception of reading a field of [undefined],
    raised when the data of the subject or of the topic is missing
    ([get(...)!]). *)

(** The subject block: a node for a subject seen for the first time. *)
Definition addSubjectNode (subjectData : gmap string GroupData) (q : Question)
    (subjects : list Node) : option (list Node) :=
  let subjectId := subjectIdOf q in
  if nonEmpty (q_subject q) && negb (hasNode subjectId subjects)
  then data ← subjectData !! q_subject q;
       Some (subjects ++ [subjectNode subjectId data])
  else Some subjects.

(** The topic block: a node for a topic seen for the first time, and its
    link from the subject unless a link with the same key was added. *)
Definition addTopicNode (topicData : gmap string GroupData) (q : Question)
    (acc : list Node * gset string * list Link)
    : option (list Node * gset string * list Link) :=
  let '(topics, linkSet, finalLinks) := acc in
  let subjectId := subjectIdOf q in
  let topicId := topicIdOf q in
  if nonEmpty (q_topic q) && negb (hasNode topicId topics)
  then data ← topicData !! q_topic q;
       let topics := topics ++ [topicNode topicId data] in
       let linkId := subjectId +:+ "-" +:+ topicId in
       if nonEmpty subjectId && negb (bool_decide (linkId ∈ linkSet))
       then Some (topics, {[linkId]} ∪ linkSet,
                  finalLinks ++ [mkLink subjectId topicId])
       else Some (topics, linkSet, finalLinks)
  else Some acc.

(** The question block: the node of the question, and its link from the
    topic unless a link with the same key was added. *)
Definition addQuestionNode (q : Question) (acc : list Node * gset string * list Link)
    : list Node * gset string * list Link :=
  let '(questionNodes, linkSet, finalLinks) := acc in
  let topicId := topicIdOf q in
  let questionNodes := questionNodes ++ [questionNode q] in
  let qLinkId := topicId +:+ "-" +:+ q_id q in
  if nonEmpty topicId && negb (bool_decide (qLinkId ∈ linkSet))
  then (questionNodes, {[qLinkId]} ∪ linkSet, finalLinks ++ [mkLink topicId (q_id q)])
  else (questionNodes, linkSet, finalLinks).

Definition addQuestion (subjectData topicData : gmap string GroupData)
    (b : MapBuild) (q : Question) : option MapBuild :=
  subjects ← addSubjectNode subjectData q (b_subjectNodes b);
  '(topics, linkSet, finalLinks) ←
    addTopicNode topicData q (b_topicNodes b, b_linkSet b, b_finalLinks b);
  let '(questionNodes, linkSet, finalLinks) :=
    addQuestionNode q (b_questionNodes b, linkSet, finalLinks) in
  Some (mkMapBuild subjects topics questionNodes linkSet finalLinks).

(** [allNodes] and [allLinks] of the map view. *)
Definition buildGraph (questions : list Question) : option (list Node * list Link) :=
  b ← foldl (fun acc q =>
               b ← acc;
               addQuestion (buildSubjectData questions) (buildTopicData questions) b q)
            (Some (mkMapBuild [] [] [] ∅ [])) questions;
  Some (b_subjectNodes b ++ b_topicNodes b ++ b_questionNodes b, b_finalLinks b).

(** * Vocabulary of the statements *)

#[global] Instance R_eq_dec : EqDecision R := Req_dec_T.

(** The ids of the current node set. *)
Definition nodeIds (p : Props) : list string := map n_id (nodes p).

(** The node contributes no [x] (no [y]) coordinate to the bounding box:
    its entry is missing or the coordinate is exactly zero. *)
Definition lacksX (store : gmap string NodePosition) (n : Node) : Prop :=
  forall pos, store !! n_id n = Some pos -> p_x pos = 0.

Definition lacksY (store : gmap string NodePosition) (n : Node) : Prop :=
  forall pos, store !! n_id n = Some pos -> p_y pos = 0.

(** The distance, in model space, from the point [(x, y)] to a stored
    position. *)
Definition distanceTo (x y : R) (pos : NodePosition) : R :=
  sqrt ((x - p_x pos) * (x - p_x pos) + (y - p_y pos) * (y - p_y pos)).

(** [c] is a child of [a]: [a] is a node and some link leads from [a] to
    [c]. *)
Definition childOf (p : Props) (a c : string) : Prop :=
  a ∈ nodeIds p /\ exists l, l ∈ links p /\ l_source l = a /\ l_target l = c.

(** The descendants of [root], [root] included. *)
Definition descendantOf (p : Props) (root id : string) : Prop :=
  rtc (childOf p) root id.

(** The number of iterations the breadth-first loop spends on [id] and
    everything below it, down to depth [depth]. *)
Fixpoint visits (cm : gmap string (list string)) (depth : nat) (id : string) : nat :=
  match depth with
  | O => 1
  | S depth' => S (sum_list (map (visits cm depth') (default [] (cm !! id))))
  end.

(** The distance from the centre of the viewport to a point. *)
Definition centreDistance (p : Props) (pt : R * R) : R :=
  let dx := fst pt - width (dimensions p) / 2 in
  let dy := snd pt - height (dimensions p) / 2 in
  sqrt (dx * dx + dy * dy).

(** The square of the radius of the orbit ellipse in the direction [a]. *)
Definition ellipseSq (p : Props) (a : R) : R :=
  let radiusX := (width (dimensions p) / 2) * 0.9 in
  let radiusY := (height (dimensions p) / 2) * 0.9 in
  (cos a * radiusX) * (cos a * radiusX) + (sin a * radiusY) * (sin a * radiusY).

(** * Example data *)

(** Two streams of draws of [Math.random()]: always 0.5, always 0. *)
Definition halfDraws : nat -> R := fun _ => 0.5.
Definition zeroDraws : nat -> R := fun _ => 0.

(** Camera: scale 1, translation (10, 20). *)
Definition wheelState : State :=
  set_transform (mkTransform 1 10 20) (initialState graph).

(** A spread-out graph: two nodes 7900 units apart in an 800 x 600
    viewport, the camera at the lower end of the wheel range. *)
Definition farNodes : list Node :=
  [mkNode "a" "question" 5 (Some 10); mkNode "b" "question" 5 (Some 20)].

Definition farProps : Props := mkProps farNodes [] (mkDims 800 600) graph None.

Definition farStore : gmap string NodePosition :=
  <["a" := mkPos 100 300 0 0]> (<["b" := mkPos 8000 300 0 0]> ∅).

Definition farState : State :=
  set_transform (mkTransform 0.2 0 0)
    (set_nodePositions farStore (initialState graph)).




(** A store from before a rebuild to the nodes of [farProps]: [a] is
    moving, [z] is no longer a node, [b] has no entry yet. *)
Definition rebuildState : State :=
  set_nodePositions
    (<["a" := mkPos 1 2 3 4]> (<["z" := mkPos 5 6 7 8]> ∅))
    (initialState graph).

(** Three nodes in graph mode: [o] and [c] sit on the line [x = 0], [m]
    has no entry in the store. *)
Definition axisNodes : list Node :=
  [mkNode "o" "topic" 10 None; mkNode "m" "topic" 10 None;
   mkNode "c" "question" 5 (Some 40)].

Definition axisProps : Props := mkProps axisNodes [] (mkDims 800 600) graph None.

Definition axisStore : gmap string NodePosition :=
  <["o" := mkPos 0 0 0 0]> (<["c" := mkPos 0 120 0 0]> ∅).

Definition axisState : State := set_nodePositions axisStore (initialState graph).

(** A zoomed-out camera ([k = 0.5]) over one node of radius 10 at the
    origin. *)
Definition zoomedOutNode : Node := mkNode "n" "topic" 10 None.

Definition zoomedOutProps : Props :=
  mkProps [zoomedOutNode] [] (mkDims 800 600) graph None.

Definition zoomedOutState : State :=
  set_transform (mkTransform 0.5 0 0)
    (set_nodePositions (<["n" := mkPos 0 0 0 0]> ∅) (initialState graph)).

(** A zoomed-in camera ([k = 2]) over one node of radius 14 at the
    origin. *)
Definition zoomedInNode : Node := mkNode "n" "subject" 14 None.

Definition zoomedInProps : Props :=
  mkProps [zoomedInNode] [] (mkDims 800 600) graph None.

Definition zoomedInState : State :=
  set_transform (mkTransform 2 0 0)
    (set_nodePositions (<["n" := mkPos 0 0 0 0]> ∅) (initialState graph)).

(** One node resting at the centre of an 800 x 600 viewport, the simulation
    not yet marked stable. *)
Definition restNode : Node := mkNode "a" "topic" 10 None.

Definition restProps : Props := mkProps [restNode] [] (mkDims 800 600) graph None.

Definition restState : State :=
  set_nodePositions (<["a" := mkPos 400 300 0 0]> ∅) (initialState graph).

(** A group with three leaves of weights 80, 20 and 50, in that order. *)
Definition q80 : Node := mkNode "q1" "question" 5 (Some 80).
Definition q20 : Node := mkNode "q2" "question" 5 (Some 20).
Definition q50 : Node := mkNode "q3" "question" 5 (Some 50).
Definition groupNode : Node := mkNode "topic-t" "topic" 10 (Some 50).

Definition pathProps : Props :=
  mkProps [groupNode; q80; q20; q50]
          [mkLink "topic-t" "q1"; mkLink "topic-t" "q2"; mkLink "topic-t" "q3"]
          (mkDims 800 600) graph (Some groupNode).

(** Every node of [pathProps] below the group has rank 0, the group 1. *)
Definition pathRank (id : string) : nat := if String.eqb id "topic-t" then 1 else 0.

(** One subject node in orbit mode, at rest in the origin of the model. *)
Definition soloNode : Node := mkNode "subject-a" "subject" 14 (Some 50).

Definition soloProps : Props := mkProps [soloNode] [] (mkDims 1600 900) orbit None.

Definition soloState : State :=
  set_nodePositions (<["subject-a" := mkPos 0 0 0 0]> ∅) (initialState orbit).

(** Four subjects and three questions of the second subject, of weights
    0, 3 and 100, in a 1600 x 900 viewport. *)
Definition weight0 : Node := mkNode "q1" "question" 5 (Some 0).
Definition weight3 : Node := mkNode "q2" "question" 5 (Some 3).
Definition weight100 : Node := mkNode "q3" "question" 5 (Some 100).

Definition sectorProps : Props :=
  mkProps [mkNode "subject-a" "subject" 14 (Some 50);
           mkNode "subject-b" "subject" 14 (Some 50);
           mkNode "subject-c" "subject" 14 (Some 50);
           mkNode "subject-d" "subject" 14 (Some 50);
           weight0; weight3; weight100]
          [mkLink "subject-b" "q1"; mkLink "subject-b" "q2";
           mkLink "subject-b" "q3"]
          (mkDims 1600 900) orbit None.

(** The stored place of an id, without its velocity. *)
Definition placeOf (m : gmap string NodePosition) (id : string) : option (R * R) :=
  (fun pos => (p_x pos, p_y pos)) <$> m !! id.

(** The stored velocity of an id. *)
Definition velocityOf (m : gmap string NodePosition) (id : string) : option (R * R) :=
  (fun pos => (p_vx pos, p_vy pos)) <$> m !! id.

(** [n] frames of the camera animation alone. *)
Definition animateFrames (n : nat) (s : State) : State := Nat.iter n animateTransform s.

(** The calls of [onNodeClick] among some callbacks. *)
Definition clicks (l : list Callback) : list Callback :=
  List.filter (fun c => match c with onNodeClick _ => true | onNodeHover _ => false end) l.

(** The distance between the pointer positions of two events, in client
    pixels. *)
Definition pointerTravel (e1 e2 : MouseEvent) : R :=
  sqrt ((clientX e2 - clientX e1) * (clientX e2 - clientX e1)
        + (clientY e2 - clientY e1) * (clientY e2 - clientY e1)).

(** The nodes that get a fresh entry from the reconciling effect: those
    whose id has no entry in the store, in the order of the node list. *)
Definition freshNodes (p : Props) (s : State) : list Node :=
  filter (fun n => nodePositions s !! n_id n = None) (nodes p).

(** The nodes that an orbit tick moves: those with an entry that are not
    dragged, in the order of the node list. *)
Definition movedNodes (p : Props) (s : State) : list Node :=
  filter (fun n => is_Some (nodePositions s !! n_id n) /\ isDragged s n = false)
         (nodes p).

(** The entry of a node after one seek step towards [tgt] at rate [rate]:
    [vx = (tx - x) * rate; x += vx], and the same for [y]. *)
Definition seekStep (rate : R) (pos : NodePosition) (tgt : R * R) : NodePosition :=
  mkPos (p_x pos + (fst tgt - p_x pos) * rate) (p_y pos + (snd tgt - p_y pos) * rate)
        ((fst tgt - p_x pos) * rate) ((snd tgt - p_y pos) * rate).

(** The id reached from [id] by [k] steps up [parentMap]. *)
Fixpoint ancestor (pm : gmap string string) (k : nat) (id : string) : option string :=
  match k with
  | O => Some id
  | S k' => pm !! id ≫= ancestor pm k'
  end.

(** The nodes of type [subject], in the order of the node list. *)
Definition subjectNodes (p : Props) : list Node :=
  filter (fun n => String.eqb (n_type n) "subject" = true) (nodes p).

(** [nodesPerRow = Math.floor(width * 0.8 / 120)] of the props. *)
Definition nodesPerRow (p : Props) : Z := Int_part (width (dimensions p) * 0.8 / 120).

(** The serpentine slot of the [idx]-th node of the focus path. *)
Definition slotOf (p : Props) (fp : FocusPath) (idx : nat) : R * R :=
  serpentineSlot (dimensions p) (nodesPerRow p) (length (weakestPathNodes fp)) idx.

(** The focus path of [pathProps], a store for its nodes, and the same
    props in a viewport of 100 x 600. *)
Definition pathFocus : FocusPath :=
  mkFocusPath [q20; q50; q80] [mkLink "q2" "q3"; mkLink "q3" "q1"]
              (list_to_set ["topic-t"; "q1"; "q2"; "q3"]).

Definition pathState : State :=
  set_nodePositions
    (<["topic-t" := mkPos 400 300 0 0]>
       (<["q1" := mkPos 10 20 0 0]>
          (<["q2" := mkPos 30 40 0 0]> (<["q3" := mkPos 50 60 0 0]> ∅))))
    (initialState graph).

Definition narrowProps : Props :=
  mkProps (nodes pathProps) (links pathProps) (mkDims 100 600) graph (Some groupNode).

(** The point lies in the filled ellipse (radii not zero):
    [((x - cx) / rx)^2 + ((y - cy) / ry)^2 <= 1], cleared of divisions. *)
Definition insideEllipse (e : Ellipse) (pt : R * R) : Prop :=
  (fst pt - e_cx e) * (fst pt - e_cx e) * (e_ry e * e_ry e)
  + (snd pt - e_cy e) * (snd pt - e_cy e) * (e_rx e * e_rx e)
  <= e_rx e * e_rx e * (e_ry e * e_ry e).

(** The model-space rectangle visible in the viewport. *)
Definition viewLeft (s : State) : R := - t_x (transform s) / t_k (transform s).
Definition viewTop (s : State) : R := - t_y (transform s) / t_k (transform s).
Definition viewRight (p : Props) (s : State) : R :=
  viewLeft s + width (dimensions p) / t_k (transform s).
Definition viewBottom (p : Props) (s : State) : R :=
  viewTop s + height (dimensions p) / t_k (transform s).

(** A link of the list goes from [a] to [c]. *)
Definition linked (allLinks : list Link) (a c : string) : Prop :=
  exists l, l ∈ allLinks /\ l_source l = a /\ l_target l = c.


(** A question of weight 60 answered twice in a row, at stage 2. *)
Definition sampleQuestion : Question := mkQuestion "q1" "Law" "Torts" 60 2 2 true 5.

(** The node of [soloProps] at rest at its orbit target for the draw 0.5,
    with the centring flag clear. *)
Definition settledSolo : State :=
  set_orbitCenteringDone false
    (set_nodePositions (<["subject-a" := mkPos (800 + 720 * (1 - 50 / 105)) 450 0 0]> ∅)
                       (initialState orbit)).

(** The sum of a list of numbers. *)
Definition sumR (l : list R) : R := foldr Rplus 0 l.

(** The mean weight of a list of questions. *)
Definition meanMastery (questions : list Question) : R :=
  sumR (map q_masteryScore questions) / INR (length questions).

(** The questions of a subject, and the questions with a topic name. *)
Definition withSubject (s : string) (questions : list Question) : list Question :=
  filter (fun q => q_subject q = s) questions.

Definition withTopic (t : string) (questions : list Question) : list Question :=
  filter (fun q => q_topic q = t) questions.

(** The key under which a link is remembered in [linkSet]. *)
Definition linkKey (l : Link) : string := l_source l +:+ "-" +:+ l_target l.

(** What holds of the subject nodes once the questions [qs] are handled:
    distinct ids, each node built from the data of the subject of one of
    the questions, and a node for every non-empty subject. *)
Definition subjectsBuilt (subjectData : gmap string GroupData) (qs : list Question)
    (subjects : list Node) : Prop :=
  NoDup (map n_id subjects) /\
  (forall n, n ∈ subjects ->
     exists q d, q ∈ qs /\ q_subject q <> "" /\
       subjectData !! q_subject q = Some d /\ n = subjectNode (subjectIdOf q) d) /\
  (forall q, q ∈ qs -> q_subject q <> "" -> subjectIdOf q ∈ map n_id subjects).

Definition topicsBuilt (topicData : gmap string GroupData) (qs : list Question)
    (topics : list Node) : Prop :=
  NoDup (map n_id topics) /\
  (forall n, n ∈ topics ->
     exists q d, q ∈ qs /\ q_topic q <> "" /\
       topicData !! q_topic q = Some d /\ n = topicNode (topicIdOf q) d) /\
  (forall q, q ∈ qs -> q_topic q <> "" -> topicIdOf q ∈ map n_id topics).

(** What holds of the links: [linkSet] holds the keys of the links, no key
    twice, and every link goes from the subject to the topic of one of the
    questions or from its topic to the question. *)
Definition linksBuilt (qs : list Question) (linkSet : gset string)
    (finalLinks : list Link) : Prop :=
  (forall key, key ∈ linkSet <-> key ∈ map linkKey finalLinks) /\
  NoDup (map linkKey finalLinks) /\
  (forall l, l ∈ finalLinks ->
     exists q, q ∈ qs /\
       (l = mkLink (subjectIdOf q) (topicIdOf q) /\ q_topic q <> ""
        \/ l = mkLink (topicIdOf q) (q_id q))).

(** Two subjects with a topic of the same name. *)
Definition twoSubjects : list Question :=
  [mkQuestion "q1" "Law" "Basics" 20 0 0 false 0;
   mkQuestion "q2" "Math" "Basics" 80 0 0 true 0].

(** * Properties *)

(** ** Number idioms *)

Lemma ltb_true a b : ltb a b = true <-> a < b.
Proof. unfold ltb. destruct (Rlt_dec a b); split; intros; try easy. Qed.

Lemma ltb_false a b : ltb a b = false <-> b <= a.
Proof. unfold ltb. destruct (Rlt_dec a b); split; intros; try easy; lra. Qed.

Lemma truthy_true v : truthy v = true <-> v <> 0.
Proof. unfold truthy. destruct (Req_dec_T v 0); split; intros; try easy. Qed.

Lemma truthy_false v : truthy v = false <-> v = 0.
Proof. unfold truthy. destruct (Req_dec_T v 0); split; intros; try easy. Qed.

Lemma jsOr_0 v : jsOr v 0 = v.
Proof. unfold jsOr. destruct (truthy v) eqn:E; [easy|]. now apply truthy_false in E. Qed.

Lemma jsOr_nonzero v d : d <> 0 -> jsOr v d <> 0.
Proof. unfold jsOr. destruct (truthy v) eqn:E; [|easy]. intros _. now apply truthy_true. Qed.

(** Decides the real comparisons of a closed goal. *)
Ltac rcases :=
  repeat (match goal with
          | |- context [Rlt_dec ?a ?b] => destruct (Rlt_dec a b)
          | |- context [Rle_dec ?a ?b] => destruct (Rle_dec a b)
          | |- context [Req_dec_T ?a ?b] => destruct (Req_dec_T a b)
          | H : context [Rlt_dec ?a ?b] |- _ => destruct (Rlt_dec a b)
          | H : context [Rle_dec ?a ?b] |- _ => destruct (Rle_dec a b)
          | H : context [Req_dec_T ?a ?b] |- _ => destruct (Req_dec_T a b)
          end; try lra).

Lemma clampScale_range v : kMin <= clampScale v <= kMax.
Proof. unfold clampScale, kMin, kMax, Rmax, Rmin. rcases. Qed.

Lemma clampScale_pos v : 0 < clampScale v.
Proof. pose proof (clampScale_range v). unfold kMin in *. lra. Qed.

Lemma minOf_le_maxOf l a b : minOf l = Some a -> maxOf l = Some b -> a <= b.
Proof.
  revert a b. induction l as [|v l IH]; intros a b Ha Hb; [easy|].
  simpl in *. injection Ha as <-. injection Hb as <-.
  destruct (minOf l) as [m|] eqn:Em, (maxOf l) as [M|] eqn:EM.
  - specialize (IH m M eq_refl eq_refl). unfold Rmin, Rmax. rcases.
  - destruct l; discriminate.
  - destruct l; discriminate.
  - lra.
Qed.



(** ** Camera *)

(** C1. Wheel zoom is anchored at the pointer: for every transform with a
    non-zero scale and every wheel event at the canvas point [(px, py)], the
    model-space point under the pointer, as [getMousePos] computes it, is
    the same before and after [handleWheel], whether or not the new scale
    was clamped to [0.2, 5]. *)
Theorem handleWheel_anchored canvas px py deltaY s :
  t_k (transform s) <> 0 ->
  getMousePos true px py true (handleWheel canvas px py deltaY s)
  = getMousePos true px py true s.
Proof.
  intros Hk. unfold handleWheel, getMousePos.
  destruct canvas; simpl; [|reflexivity].
  set (ns := clampScale _).
  assert (Hns : ns <> 0) by (pose proof (clampScale_pos (t_k (transform s) * (1 - deltaY * 0.001))); fold ns in H; lra).
  f_equal; field; auto.
Qed.

Lemma handleWheel_anchored_witness :
  t_k (transform wheelState) <> 0 /\
  t_k (transform (handleWheel true 110 70 (-10000) wheelState)) = 5 /\
  getMousePos true 110 70 true (handleWheel true 110 70 (-10000) wheelState)
  = getMousePos true 110 70 true wheelState.
Proof.
  assert (H : t_k (transform wheelState) <> 0) by (simpl; lra).
  split; [exact H|]. split.
  - simpl. unfold clampScale, kMin, kMax, Rmax, Rmin. rcases.
  - exact (handleWheel_anchored true 110 70 (-10000) wheelState H).
Defined.

Lemma fitTarget_scale d xs ys t :
  fitTarget d xs ys = Some t ->
  t_k t <= 1.5 /\ (0 < width d -> 0 < height d -> 0 < t_k t).
Proof.
  unfold fitTarget. intros H.
  destruct (minOf xs) as [minX|] eqn:E1; [|discriminate].
  destruct (maxOf xs) as [maxX|] eqn:E2; [|discriminate].
  destruct (minOf ys) as [minY|] eqn:E3; [|discriminate].
  destruct (maxOf ys) as [maxY|] eqn:E4; [|discriminate].
  simpl in H. injection H as <-. simpl.
  pose proof (minOf_le_maxOf _ _ _ E1 E2) as Hx.
  pose proof (minOf_le_maxOf _ _ _ E3 E4) as Hy.
  split.
  - unfold Rmin. rcases.
  - intros Hw Hh.
    assert (0 < width d / (maxX - minX + 100)) by (apply Rdiv_lt_0_compat; lra).
    assert (0 < height d / (maxY - minY + 100)) by (apply Rdiv_lt_0_compat; lra).
    unfold Rmin. rcases.
Qed.

Lemma wakeGraph_target p s : targetTransform (wakeGraph p s) = targetTransform s.
Proof. unfold wakeGraph. now destruct (layoutMode p), (weakestPathNode p). Qed.

Lemma resetView_target p ids s s' :
  resetView p ids s = Some s' ->
  targetTransform s' = Some homeTransform \/
  exists t,
    frameXs (nodePositions s) (nodesToFrame p ids) <> [] /\
    fitTarget (dimensions p) (frameXs (nodePositions s) (nodesToFrame p ids))
      (frameYs (nodePositions s) (nodesToFrame p ids)) = Some t /\
    targetTransform s' = Some t.
Proof.
  unfold resetView. intros H.
  destruct (_ || _); [injection H as <-; now left|].
  destruct (fitsNodes p);
    [|injection H as <-; left; now rewrite wakeGraph_target].
  destruct (nodesToFrame p ids) as [|n0 l0] eqn:El; [injection H as <-; now left|].
  destruct (frameXs _ _) as [|x0 xs0] eqn:Ex; [injection H as <-; now left|].
  destruct (fitTarget _ _ _) as [t|] eqn:Et; [|discriminate].
  simpl in H. injection H as <-. right.
  exists t. rewrite wakeGraph_target. repeat split; easy.
Qed.

Lemma farStore_a : farStore !! "a" = Some (mkPos 100 300 0 0).
Proof. reflexivity. Qed.

Lemma farStore_b : farStore !! "b" = Some (mkPos 8000 300 0 0).
Proof. reflexivity. Qed.

Lemma keep_truthy v l :
  v <> 0 ->
  filter (fun v => truthy v = true) (v :: l) = v :: filter (fun v => truthy v = true) l.
Proof. intros H. apply filter_cons_True. now apply truthy_true. Qed.

Lemma drop_falsy v l :
  v = 0 ->
  filter (fun v => truthy v = true) (v :: l) = filter (fun v => truthy v = true) l.
Proof.
  intros H. apply filter_cons_False. apply truthy_false in H. now rewrite H.
Qed.

Lemma farState_fit :
  resetView farProps ∅ farState
  = Some (set_isStable false
            (set_targetTransform (Some (mkTransform 0.1 (-5) 270)) farState)).
Proof.
  unfold resetView, nodesToFrame, fitsNodes, farProps, wakeGraph.
  simpl nodes. simpl dimensions.
  simpl layoutMode. simpl weakestPathNode. cbv beta iota zeta.
  replace (truthy (width (mkDims 800 600))) with true
    by (symmetry; apply truthy_true; simpl; lra).
  simpl orb. cbv iota.
  unfold frameXs, frameYs, farNodes. simpl map.
  unfold storedX, storedY. simpl n_id. simpl nodePositions.
  rewrite farStore_a, farStore_b. simpl p_x. simpl p_y.
  rewrite !jsOr_0.
  rewrite !keep_truthy by lra. rewrite !filter_nil.
  unfold fitTarget. simpl.
  do 3 f_equal. unfold Rmin, Rmax. rcases.
  all: f_equal; f_equal; lra.
Qed.






(** ** Fit-to-bounds and zero coordinates *)

Lemma storedX_lacks store n : lacksX store n -> storedX store n = 0.
Proof.
  unfold lacksX, storedX. intros H.
  destruct (store !! n_id n) as [pos|]; [|reflexivity].
  rewrite jsOr_0. now apply H.
Qed.

Lemma storedY_lacks store n : lacksY store n -> storedY store n = 0.
Proof.
  unfold lacksY, storedY. intros H.
  destruct (store !! n_id n) as [pos|]; [|reflexivity].
  rewrite jsOr_0. now apply H.
Qed.

Lemma frameXs_skip store l1 n l2 :
  lacksX store n -> frameXs store (l1 ++ n :: l2) = frameXs store (l1 ++ l2).
Proof.
  intros H. unfold frameXs. rewrite !map_app, !filter_app. simpl map.
  now rewrite drop_falsy by now apply storedX_lacks.
Qed.

Lemma frameYs_skip store l1 n l2 :
  lacksY store n -> frameYs store (l1 ++ n :: l2) = frameYs store (l1 ++ l2).
Proof.
  intros H. unfold frameYs. rewrite !map_app, !filter_app. simpl map.
  now rewrite drop_falsy by now apply storedY_lacks.
Qed.

Lemma frameXs_all_lack store l :
  (forall n, n ∈ l -> lacksX store n) -> frameXs store l = [].
Proof.
  induction l as [|n l IH]; intros H; [reflexivity|].
  change (n :: l) with ([] ++ n :: l). rewrite frameXs_skip.
  - apply IH. intros n' Hn'. apply H. now right.
  - apply H. now left.
Qed.

(** The pending target after [resetView] in its fit branch, as a function
    of the kept coordinates alone. *)
Lemma resetView_fit p ids s :
  nodes p <> [] -> fitsNodes p = true ->
  targetTransform <$> resetView p ids s
  = if truthy (width (dimensions p))
    then match frameXs (nodePositions s) (nodesToFrame p ids) with
         | [] => Some (Some homeTransform)
         | xs => Some <$> fitTarget (dimensions p) xs
                            (frameYs (nodePositions s) (nodesToFrame p ids))
         end
    else Some (Some homeTransform).
Proof.
  intros Hn Hf. unfold resetView. rewrite Hf.
  destruct (nodes p) as [|n0 l0]; [easy|]. simpl orb.
  destruct (truthy _); simpl negb; cbv iota; [|reflexivity].
  destruct (nodesToFrame p ids) as [|n1 l1] eqn:El; [reflexivity|].
  destruct (frameXs _ _) as [|x0 xs0]; [reflexivity|].
  destruct (fitTarget _ _ _) as [t|]; [|reflexivity].
  simpl. now rewrite wakeGraph_target.
Qed.

(** C10. In the fit branch of [resetView] a node whose stored [x] (resp.
    [y]) is exactly 0, or that has no entry in the store, contributes no
    coordinate on that axis; the pending target is determined by the kept
    coordinates alone; and when no framed node contributes an [x], the
    pending target is the fallback [k = 1, x = 0, y = 0]. *)
Theorem resetView_skips_zero_coordinates (p p' : Props) (ids ids' : gset string)
    (s s' : State) :
  (forall l1 n l2,
      lacksX (nodePositions s) n ->
      frameXs (nodePositions s) (l1 ++ n :: l2) = frameXs (nodePositions s) (l1 ++ l2)) /\
  (forall l1 n l2,
      lacksY (nodePositions s) n ->
      frameYs (nodePositions s) (l1 ++ n :: l2) = frameYs (nodePositions s) (l1 ++ l2)) /\
  (nodes p <> [] -> nodes p' <> [] ->
   fitsNodes p = true -> fitsNodes p' = true ->
   dimensions p = dimensions p' ->
   frameXs (nodePositions s) (nodesToFrame p ids)
   = frameXs (nodePositions s') (nodesToFrame p' ids') ->
   frameYs (nodePositions s) (nodesToFrame p ids)
   = frameYs (nodePositions s') (nodesToFrame p' ids') ->
   targetTransform <$> resetView p ids s = targetTransform <$> resetView p' ids' s') /\
  ((forall n, n ∈ nodesToFrame p ids -> lacksX (nodePositions s) n) ->
   exists s1, resetView p ids s = Some s1 /\
              targetTransform s1 = Some homeTransform).
Proof.
  split; [|split; [|split]].
  - intros. now apply frameXs_skip.
  - intros. now apply frameYs_skip.
  - intros Hn Hn' Hf Hf' Hd Hx Hy.
    rewrite !resetView_fit by assumption. now rewrite Hd, Hx, Hy.
  - intros Hall. apply frameXs_all_lack in Hall.
    unfold resetView. rewrite Hall.
    destruct (_ || _); [eauto|].
    destruct (fitsNodes p).
    + destruct (nodesToFrame p ids); eauto.
    + eexists. split; [reflexivity|]. now rewrite wakeGraph_target.
Qed.

Lemma axisStore_o : axisStore !! "o" = Some (mkPos 0 0 0 0).
Proof. reflexivity. Qed.

Lemma axisStore_m : axisStore !! "m" = None.
Proof. reflexivity. Qed.

Lemma axisStore_c : axisStore !! "c" = Some (mkPos 0 120 0 0).
Proof. reflexivity. Qed.

Lemma resetView_skips_zero_coordinates_witness :
  (forall n, n ∈ nodesToFrame axisProps ∅ -> lacksX (nodePositions axisState) n) /\
  exists s1, resetView axisProps ∅ axisState = Some s1 /\
             targetTransform s1 = Some homeTransform.
Proof.
  assert (H : forall n, n ∈ nodesToFrame axisProps ∅ ->
                        lacksX (nodePositions axisState) n).
  { intros n Hn pos. unfold nodesToFrame, axisProps, axisNodes in Hn. simpl in Hn.
    simpl nodePositions.
    repeat (apply elem_of_cons in Hn as [-> | Hn]); simpl n_id.
    - rewrite axisStore_o. now intros [= <-].
    - rewrite axisStore_m. easy.
    - rewrite axisStore_c. now intros [= <-].
    - now apply elem_of_nil in Hn. }
  split; [exact H|].
  destruct (resetView_skips_zero_coordinates axisProps axisProps ∅ ∅ axisState axisState)
    as (_ & _ & _ & Hhome).
  exact (Hhome H).
Defined.

(** ** Hit-testing *)

Lemma find_first {A} (f : A -> bool) (l : list A) (a : A) :
  find f l = Some a ->
  exists l1 l2, l = l1 ++ a :: l2 /\ f a = true /\ forall b, b ∈ l1 -> f b = false.
Proof.
  induction l as [|b l IH]; [easy|]. simpl.
  destruct (f b) eqn:Eb.
  - intros [= ->]. exists [], l. repeat split; [easy|].
    intros c Hc. now apply elem_of_nil in Hc.
  - intros H. destruct (IH H) as (l1 & l2 & -> & Ha & Hl1).
    exists (b :: l1), l2. repeat split; [easy|].
    intros c [-> | Hc]%elem_of_cons; auto.
Qed.

Lemma find_nothing {A} (f : A -> bool) (l : list A) :
  find f l = None <-> forall b, b ∈ l -> f b = false.
Proof.
  induction l as [|b l IH]; simpl.
  - split; [|easy]. intros _ c Hc. now apply elem_of_nil in Hc.
  - destruct (f b) eqn:Eb.
    + split; [easy|]. intros H. specialize (H b). rewrite Eb in H.
      discriminate H. now left.
    + rewrite IH. split.
      * intros H c [-> | Hc]%elem_of_cons; auto.
      * intros H c Hc. apply H. now right.
Qed.

Lemma elem_of_rev {A} (a : A) (l : list A) : a ∈ rev l <-> a ∈ l.
Proof. rewrite !list_elem_of_In. symmetry. apply in_rev. Qed.

(** The hit circle of a node, in model space: its radius is
    [(radius + 5) / k]. *)
Lemma hits_circle s x y n :
  hits s x y n = true <->
  exists pos, nodePositions s !! n_id n = Some pos /\
              distanceTo x y pos < Rabs (n_radius n + 5) / Rabs (t_k (transform s)).
Proof.
  unfold hits, distanceTo, scaledHitRadius.
  set (k := t_k (transform s)).
  assert (Hsq : ((n_radius n + 5) / k) ^ 2 = (Rabs (n_radius n + 5) / Rabs k) ^ 2).
  { unfold Rdiv. rewrite <- Rabs_inv, <- Rabs_mult.
    rewrite <- !Rsqr_pow2. now rewrite <- Rsqr_abs. }
  assert (Hnn : 0 <= Rabs (n_radius n + 5) / Rabs k).
  { unfold Rdiv. rewrite <- Rabs_inv, <- Rabs_mult. apply Rabs_pos. }
  destruct (nodePositions s !! n_id n) as [pos|]; [|split; [easy|now intros (? & ? & _)]].
  set (dx := x - p_x pos). set (dy := y - p_y pos).
  assert (Hd : 0 <= dx * dx + dy * dy) by nra.
  rewrite ltb_true, Hsq. split.
  - intros H. exists pos. split; [easy|].
    apply Rsqr_incrst_0; [|apply sqrt_pos|easy].
    rewrite Rsqr_sqrt by easy. now rewrite Rsqr_pow2.
  - intros (pos' & [= <-] & H).
    apply Rsqr_incrst_1 in H; [|apply sqrt_pos|easy].
    rewrite Rsqr_sqrt in H by easy. now rewrite Rsqr_pow2 in H.
Qed.

(** C9. [findNodeAtPos] divides the hit radius by the camera scale,
    [(radius + 5) / k], although the point it tests is already in model
    space, where [draw] paints the disc of a node with its radius.  At scale
    2 the canvas point (20, 0) maps to the model point (10, 0), inside the
    disc of radius 14 around the only node, and no node is hit; at scale 0.5
    the canvas point (10, 0) maps to the model point (20, 0), farther than
    radius + margin = 15 from the only node, and the node is hit. *)
Theorem hit_radius_divided_by_scale :
  (getMousePos true 20 0 true zoomedInState = (10, 0) /\
   nodePositions zoomedInState !! n_id zoomedInNode = Some (mkPos 0 0 0 0) /\
   distanceTo 10 0 (mkPos 0 0 0 0) < n_radius zoomedInNode /\
   findNodeAtPos zoomedInProps zoomedInState 10 0 = None) /\
  (getMousePos true 10 0 true zoomedOutState = (20, 0) /\
   nodePositions zoomedOutState !! n_id zoomedOutNode = Some (mkPos 0 0 0 0) /\
   n_radius zoomedOutNode + 5 < distanceTo 20 0 (mkPos 0 0 0 0) /\
   findNodeAtPos zoomedOutProps zoomedOutState 20 0 = Some zoomedOutNode).
Proof.
  split.
  - split; [|split; [reflexivity|split]].
    + unfold getMousePos. simpl. f_equal; lra.
    + unfold distanceTo. simpl.
      replace ((10 - 0) * (10 - 0) + (0 - 0) * (0 - 0)) with (10 * 10) by lra.
      rewrite sqrt_square; lra.
    + unfold findNodeAtPos. simpl rev. simpl find.
      replace (hits zoomedInState 10 0 zoomedInNode) with false; [reflexivity|].
      symmetry. unfold hits.
      replace (nodePositions zoomedInState !! n_id zoomedInNode)
        with (Some (mkPos 0 0 0 0)) by reflexivity.
      apply ltb_false. unfold scaledHitRadius. simpl. lra.
  - split; [|split; [reflexivity|split]].
    + unfold getMousePos. simpl. f_equal; lra.
    + unfold distanceTo. simpl.
      replace ((20 - 0) * (20 - 0) + (0 - 0) * (0 - 0)) with (20 * 20) by lra.
      rewrite sqrt_square; lra.
    + unfold findNodeAtPos. simpl rev. simpl find.
      replace (hits zoomedOutState 20 0 zoomedOutNode) with true; [reflexivity|].
      symmetry. unfold hits.
      replace (nodePositions zoomedOutState !! n_id zoomedOutNode)
        with (Some (mkPos 0 0 0 0)) by reflexivity.
      apply ltb_true. unfold scaledHitRadius. simpl. lra.
Qed.

(** ** Reconciliation of the position store *)

Section Reconcile.
Variable d : Dimensions.
Variable old : gmap string NodePosition.
Variable rng : nat -> R.

Let step := reconcileNode d old rng.

Lemma reconcile_other l acc id :
  id ∉ map n_id l -> fst (foldl step acc l) !! id = fst acc !! id.
Proof.
  revert acc. induction l as [|n l IH]; intros acc Hid; simpl; [reflexivity|].
  simpl in Hid. apply not_elem_of_cons in Hid as [Hne Hid].
  rewrite IH by exact Hid.
  unfold step, reconcileNode.
  destruct (old !! n_id n); simpl; now rewrite lookup_insert_ne.
Qed.

Lemma reconcile_kept l acc id e :
  id ∈ map n_id l -> old !! id = Some e ->
  fst (foldl step acc l) !! id = Some e.
Proof.
  revert acc. induction l as [|n l IH]; intros acc Hid He; simpl.
  - now apply elem_of_nil in Hid.
  - destruct (decide (id ∈ map n_id l)) as [Hin | Hnin].
    + now apply IH.
    + rewrite reconcile_other by exact Hnin.
      simpl in Hid. apply elem_of_cons in Hid as [-> | Hid]; [|easy].
      unfold step, reconcileNode. rewrite He. simpl.
      now rewrite lookup_insert_eq.
Qed.

End Reconcile.

(** The cursor after the nodes [l]: two draws for every node without an
    entry. *)
Lemma reconcile_count d (old : gmap string NodePosition) rng l acc :
  snd (foldl (reconcileNode d old rng) acc l)
  = (snd acc + 2 * length (filter (fun n => old !! n_id n = None) l))%nat.
Proof.
  revert acc. induction l as [|n l IH]; intros acc; [simpl; lia|].
  cbn [foldl]. rewrite IH. unfold reconcileNode.
  destruct (old !! n_id n) eqn:E.
  - rewrite filter_cons_False by (rewrite E; discriminate). reflexivity.
  - rewrite filter_cons_True by exact E. cbn [snd length]. lia.
Qed.

(** The [k]-th node without an entry gets the [k]-th pair of draws. *)
Lemma reconcile_kth d (old : gmap string NodePosition) rng l acc k n :
  NoDup (map n_id l) ->
  filter (fun n => old !! n_id n = None) l !! k = Some n ->
  fst (foldl (reconcileNode d old rng) acc l) !! n_id n
  = Some (freshPosition d rng (snd acc + 2 * k)).
Proof.
  revert acc k. induction l as [|m l IH]; intros acc k Hnd Hk; [discriminate|].
  simpl in Hnd. apply NoDup_cons in Hnd as [Hm Hnd]. cbn [foldl].
  unfold reconcileNode at 2. destruct (old !! n_id m) eqn:E.
  - rewrite filter_cons_False in Hk by (rewrite E; discriminate).
    now rewrite (IH _ k Hnd Hk).
  - rewrite filter_cons_True in Hk by exact E.
    destruct k as [|k]; cbn [lookup list_lookup] in Hk.
    + injection Hk as <-. rewrite reconcile_other by exact Hm. cbn [fst snd].
      rewrite lookup_insert_eq. do 2 f_equal. lia.
    + simpl in Hk. rewrite (IH _ k Hnd Hk). cbn [snd]. do 2 f_equal. lia.
Qed.

(** C8. After the reconciling effect the store holds an entry exactly for
    the ids of the current nodes; an id that had an entry keeps it
    unchanged; an id outside the node set has none.  An id without an entry
    gets a fresh one with zero velocity, placed at the viewport centre plus
    100 times (draw - 0.5) on each axis, for two successive draws of
    [Math.random()] made by this run of the effect, so within 50 units of
    the centre on each axis for draws in [0, 1).  The effect makes two draws
    for every node without an entry, and with distinct ids the [k]-th such
    node in the list gets the [k]-th pair.  An id that was dropped by one
    rebuild and comes back in the next gets such a fresh entry whatever it
    held before. *)
Theorem reconcile_store (p : Props) (rng : nat -> R) (i : nat) (s : State) :
  let s' := fst (reconcile p rng i s) in
  let fresh (j : nat) :=
    mkPos (width (dimensions p) / 2 + (rng j - 0.5) * 100)
          (height (dimensions p) / 2 + (rng (S j) - 0.5) * 100) 0 0 in
  (forall id, is_Some (nodePositions s' !! id) <-> id ∈ nodeIds p) /\
  (forall id e, id ∈ nodeIds p -> nodePositions s !! id = Some e ->
                nodePositions s' !! id = Some e) /\
  (forall id, id ∉ nodeIds p -> nodePositions s' !! id = None) /\
  snd (reconcile p rng i s) = (i + 2 * length (freshNodes p s))%nat /\
  (forall id, id ∈ nodeIds p -> nodePositions s !! id = None ->
     exists j, (i <= j)%nat /\ (S j < snd (reconcile p rng i s))%nat /\
       nodePositions s' !! id = Some (fresh j) /\
       (0 <= rng j < 1 -> 0 <= rng (S j) < 1 ->
        Rabs (p_x (fresh j) - width (dimensions p) / 2) <= 50 /\
        Rabs (p_y (fresh j) - height (dimensions p) / 2) <= 50)) /\
  (NoDup (nodeIds p) ->
   forall k n, freshNodes p s !! k = Some n ->
     nodePositions s' !! n_id n = Some (fresh (i + 2 * k)%nat)) /\
  (forall p1 id, id ∉ nodeIds p1 -> id ∈ nodeIds p ->
     let r1 := reconcile p1 rng i s in
     exists j, (snd r1 <= j)%nat /\
       nodePositions (fst (reconcile p rng (snd r1) (fst r1))) !! id
       = Some (fresh j)).
Proof.
  assert (Hout : forall q k t id, id ∉ nodeIds q ->
            nodePositions (fst (reconcile q rng k t)) !! id = None).
  { intros q k t id Hid. unfold reconcile. simpl.
    rewrite reconcile_other by exact Hid. apply lookup_empty. }
  assert (Hnew : forall q k t id, id ∈ nodeIds q -> nodePositions t !! id = None ->
            exists j, (k <= j)%nat /\ (S j < snd (reconcile q rng k t))%nat /\
              nodePositions (fst (reconcile q rng k t)) !! id
              = Some (freshPosition (dimensions q) rng j)).
  { intros q k t id Hid Ho. unfold reconcile. cbn [fst snd nodePositions set_nodePositions].
    rewrite reconcile_count. cbn [snd].
    clear Hout. unfold nodeIds in Hid. revert Hid.
    generalize (∅ : gmap string NodePosition).
    revert k. induction (nodes q) as [|n l IH]; intros k m0 Hid;
      [now apply elem_of_nil in Hid|].
    cbn [foldl]. destruct (decide (id ∈ map n_id l)) as [Hin|Hnin].
    - unfold reconcileNode at 2. destruct (nodePositions t !! n_id n) eqn:E.
      + rewrite filter_cons_False by (rewrite E; discriminate).
        cbn [fst snd]. now apply IH.
      + rewrite filter_cons_True by exact E. cbn [fst snd length].
        destruct (IH (S (S k)) (<[n_id n:=freshPosition (dimensions q) rng k]> m0) Hin)
          as (j & Hj1 & Hj2 & Hj3).
        exists j. split; [lia|]. split; [lia|exact Hj3].
    - rewrite reconcile_other by exact Hnin.
      simpl in Hid. apply elem_of_cons in Hid as [->|Hid]; [|contradiction].
      unfold reconcileNode. rewrite Ho. cbn [fst snd].
      rewrite filter_cons_True by exact Ho. cbn [length].
      exists k. split; [lia|]. split; [lia|]. now rewrite lookup_insert_eq. }
  cbv zeta. split; [|split; [|split; [|split; [|split; [|split]]]]].
  - intros id. split.
    + intros Hsome. destruct (decide (id ∈ nodeIds p)) as [|Hnin]; [easy|].
      rewrite (Hout p i s id Hnin) in Hsome. now destruct Hsome.
    + intros Hid. destruct (nodePositions s !! id) as [e|] eqn:Ho.
      * exists e. unfold reconcile. simpl. now apply reconcile_kept.
      * destruct (Hnew p i s id Hid Ho) as (j & _ & _ & Hj). eauto.
  - intros id e Hid Ho. unfold reconcile. simpl. now apply reconcile_kept.
  - intros id Hid. now apply Hout.
  - unfold reconcile, freshNodes. cbn [snd]. now rewrite reconcile_count.
  - intros id Hid Ho. destruct (Hnew p i s id Hid Ho) as (j & Hj1 & Hj2 & Hj3).
    exists j. split; [exact Hj1|]. split; [exact Hj2|]. split; [exact Hj3|].
    intros H1 H2. cbn [p_x p_y]. split; apply Rabs_le; lra.
  - intros Hnd k n Hk. unfold reconcile, freshNodes in *.
    cbn [fst nodePositions set_nodePositions].
    now rewrite (reconcile_kth _ _ _ _ (∅, i) k n Hnd Hk).
  - intros p1 id Hout1 Hin.
    destruct (Hnew p (snd (reconcile p1 rng i s)) (fst (reconcile p1 rng i s)) id Hin)
      as (j & Hj1 & _ & Hj3); [now apply Hout|]. exists j. split; [exact Hj1|exact Hj3].
Qed.

Lemma reconcile_store_witness :
  let s' := fst (reconcile farProps halfDraws 0 rebuildState) in
  nodePositions s' !! "a" = Some (mkPos 1 2 3 4) /\
  nodePositions s' !! "z" = None /\
  (exists j, nodePositions s' !! "b"
             = Some (mkPos (800 / 2 + (halfDraws j - 0.5) * 100)
                           (600 / 2 + (halfDraws (S j) - 0.5) * 100) 0 0)) /\
  snd (reconcile farProps halfDraws 0 rebuildState)
  = (0 + 2 * length (freshNodes farProps rebuildState))%nat.
Proof.
  destruct (reconcile_store farProps halfDraws 0 rebuildState)
    as (_ & Hkept & Hout & Hcount & Hnew & _).
  assert (Ha : "a" ∈ nodeIds farProps) by (simpl; now left).
  assert (Hb : "b" ∈ nodeIds farProps) by (simpl; right; now left).
  assert (Hz : "z" ∉ nodeIds farProps).
  { simpl. intros [Hz | [Hz | Hz]%elem_of_cons]%elem_of_cons;
      [discriminate Hz|discriminate Hz|now apply elem_of_nil in Hz]. }
  cbv zeta. split; [|split; [|split]].
  - exact (Hkept "a" (mkPos 1 2 3 4) Ha eq_refl).
  - exact (Hout "z" Hz).
  - destruct (Hnew "b" Hb eq_refl) as (j & _ & _ & Hj & _). exists j. exact Hj.
  - exact Hcount.
Defined.

(** ** Force-directed mode *)

Lemma distanceOr1_pos dx dy : 0 < distanceOr1 dx dy.
Proof.
  unfold distanceOr1, jsOr.
  destruct (truthy _) eqn:E; [|lra].
  apply truthy_true in E.
  pose proof (sqrt_pos (dx * dx + dy * dy)). lra.
Qed.

Lemma distanceOr1_zero : distanceOr1 0 0 = 1.
Proof.
  unfold distanceOr1, jsOr.
  replace (0 * 0 + 0 * 0) with 0 by lra. rewrite sqrt_0.
  replace (truthy 0) with false; [reflexivity|].
  symmetry. now apply truthy_false.
Qed.

Lemma addVelocity_zero id m : addVelocity id 0 0 m = m.
Proof.
  unfold addVelocity. apply alter_id. intros [x y vx vy] _. simpl.
  f_equal; lra.
Qed.

Lemma repulsion_coincident posA posB :
  p_x posA = p_x posB -> p_y posA = p_y posB -> repulsion posA posB = (0, 0).
Proof.
  intros Hx Hy. unfold repulsion.
  replace (p_x posB - p_x posA) with 0 by lra.
  replace (p_y posB - p_y posA) with 0 by lra.
  rewrite distanceOr1_zero. f_equal; lra.
Qed.

Lemma spring_coincident source target :
  p_x source = p_x target -> p_y source = p_y target -> spring source target = (0, 0).
Proof.
  intros Hx Hy. unfold spring.
  replace (p_x target - p_x source) with 0 by lra.
  replace (p_y target - p_y source) with 0 by lra.
  rewrite distanceOr1_zero. f_equal; lra.
Qed.

(** C7. The distance that the repulsion and the springs divide by is never
    zero, for any pair of positions; for two coincident positions it is
    exactly 1, the repulsion between the two nodes and the spring of a link
    between them contribute the finite amount (0, 0), and the store is left
    as it was by that pair and by that link. *)
Theorem zero_distance_clamped (m : gmap string NodePosition) (posA posB : NodePosition) :
  (forall dx dy, distanceOr1 dx dy <> 0 /\ distanceOr1 dx dy * distanceOr1 dx dy <> 0) /\
  (p_x posA = p_x posB -> p_y posA = p_y posB ->
   distanceOr1 (p_x posB - p_x posA) (p_y posB - p_y posA) = 1 /\
   repulsion posA posB = (0, 0) /\
   spring posA posB = (0, 0) /\
   (forall a b, m !! n_id a = Some posA -> m !! n_id b = Some posB ->
                repelFrom a m b = m) /\
   (forall l, m !! l_source l = Some posA -> m !! l_target l = Some posB ->
              applyLink m l = m)).
Proof.
  split.
  - intros dx dy. pose proof (distanceOr1_pos dx dy). split; nra.
  - intros Hx Hy. split; [|split; [|split; [|split]]].
    + replace (p_x posB - p_x posA) with 0 by lra.
      replace (p_y posB - p_y posA) with 0 by lra.
      apply distanceOr1_zero.
    + now apply repulsion_coincident.
    + now apply spring_coincident.
    + intros a b Ha Hb. unfold repelFrom.
      destruct (String.eqb _ _); [reflexivity|].
      rewrite Ha, Hb, repulsion_coincident by assumption. simpl.
      apply addVelocity_zero.
    + intros l Hs Ht. unfold applyLink.
      rewrite Hs, Ht, spring_coincident by assumption. simpl.
      rewrite Ropp_0. now rewrite !addVelocity_zero.
Qed.

Lemma zero_distance_clamped_witness :
  repulsion (mkPos 3 4 1 0) (mkPos 3 4 0 2) = (0, 0) /\
  spring (mkPos 3 4 1 0) (mkPos 3 4 0 2) = (0, 0).
Proof.
  destruct (zero_distance_clamped ∅ (mkPos 3 4 1 0) (mkPos 3 4 0 2)) as [_ H].
  destruct (H eq_refl eq_refl) as (_ & Hr & Hs & _).
  split; [exact Hr|exact Hs].
Defined.

Lemma animateTransform_keeps s :
  nodePositions (animateTransform s) = nodePositions s /\
  isStable (animateTransform s) = isStable s /\
  draggedNode (animateTransform s) = draggedNode s.
Proof.
  unfold animateTransform. destruct (targetTransform s); [|easy].
  now destruct (_ && _).
Qed.

Lemma runGraphSimulation_idle p s :
  isStable s = true -> draggedNode s = None -> runGraphSimulation p s = s.
Proof.
  intros Hs Hd. unfold runGraphSimulation, hasDrag. now rewrite Hs, Hd.
Qed.

Lemma settled_frames n p pm fp rng i s :
  layoutMode p = graph -> weakestPathNode p = None ->
  isStable s = true -> draggedNode s = None ->
  exists s', frames n p pm fp rng i s = Some (s', i) /\
             nodePositions s' = nodePositions s /\ isStable s' = true.
Proof.
  intros Hm Hw. revert s. induction n as [|n IH]; intros s Hs Hd.
  - exists s. now simpl.
  - simpl. unfold loop. rewrite Hw, Hm. simpl.
    destruct (animateTransform_keeps s) as (Hp & Hst & Hdr).
    rewrite runGraphSimulation_idle by congruence.
    destruct (IH (animateTransform s)) as (s' & Hf & Hp' & Hs'); [congruence..|].
    exists s'. split; [exact Hf|]. split; congruence.
Qed.

(** C6. In force mode with no focus path and no drag: a tick whose total
    energy is under the threshold marks the simulation stable; and once it
    is stable, [runGraphSimulation] returns the state as it is, so that
    after any number of frames no stored position or velocity has changed
    and the simulation is still stable. *)
Theorem settled_simulation_is_idle (p : Props) (pm : gmap string string)
    (fp : FocusPath) (rng : nat -> R) (i : nat) (s : State) (n : nat) :
  layoutMode p = graph -> weakestPathNode p = None -> draggedNode s = None ->
  (snd (forceStep p s) < ENERGY_THRESHOLD ->
   isStable (runGraphSimulation p s) = true) /\
  (isStable s = true ->
   runGraphSimulation p s = s /\
   exists s', frames n p pm fp rng i s = Some (s', i) /\
              nodePositions s' = nodePositions s /\ isStable s' = true).
Proof.
  intros Hm Hw Hd. split.
  - intros He. unfold runGraphSimulation, hasDrag. rewrite Hd. simpl.
    destruct (isStable s) eqn:Hs; simpl; [exact Hs|].
    apply ltb_true in He. now rewrite He.
  - intros Hs. split; [now apply runGraphSimulation_idle|].
    now apply settled_frames.
Qed.

Lemma restState_energy : snd (forceStep restProps restState) = 0.
Proof.
  unfold forceStep, restProps. simpl nodes. simpl links. simpl foldl.
  unfold applyNodeForces. simpl dimensions. simpl n_id. simpl nodePositions.
  rewrite lookup_insert_eq. simpl nodes. simpl foldl.
  unfold repelFrom. simpl n_id. rewrite String.eqb_refl.
  unfold integrateNode, isDragged. simpl fst. simpl snd. simpl n_id.
  simpl draggedNode. unfold addVelocity. rewrite lookup_alter_eq, lookup_insert_eq.
  simpl. unfold CENTER_STRENGTH, DAMPING. lra.
Qed.

Lemma settled_simulation_is_idle_witness :
  isStable (runGraphSimulation restProps restState) = true /\
  exists s', frames 60 restProps ∅ noFocusPath halfDraws 0
               (runGraphSimulation restProps restState) = Some (s', 0%nat) /\
             nodePositions s'
             = nodePositions (runGraphSimulation restProps restState).
Proof.
  assert (He : snd (forceStep restProps restState) < ENERGY_THRESHOLD)
    by (rewrite restState_energy; unfold ENERGY_THRESHOLD; lra).
  assert (Hst : isStable (runGraphSimulation restProps restState) = true).
  { exact (proj1 (settled_simulation_is_idle restProps ∅ noFocusPath halfDraws 0
                    restState 0 eq_refl eq_refl eq_refl) He). }
  split; [exact Hst|].
  assert (Hd : draggedNode (runGraphSimulation restProps restState) = None).
  { unfold runGraphSimulation. simpl. now destruct (ltb _ _). }
  destruct (proj2 (settled_simulation_is_idle restProps ∅ noFocusPath halfDraws 0
                     (runGraphSimulation restProps restState) 60
                     eq_refl eq_refl Hd) Hst) as (_ & s' & Hf & Hp & _).
  exists s'. split; [exact Hf|exact Hp].
Defined.

(** ** Focus path *)

Section SortByKey.
Context {A : Type} (key : A -> R).

Let cmp (a b : A) : R := key a - key b.

Lemma insertBy_perm a l : Permutation (insertBy cmp a l) (a :: l).
Proof.
  induction l as [|b l IH]; simpl; [reflexivity|].
  destruct (ltb 0 (cmp a b)); [|reflexivity].
  rewrite IH. apply perm_swap.
Qed.

Lemma sortBy_perm l : Permutation (sortBy cmp l) l.
Proof.
  induction l as [|a l IH]; simpl; [reflexivity|].
  unfold sortBy in *. simpl. rewrite insertBy_perm. now constructor.
Qed.

Lemma insertBy_sorted a l :
  StronglySorted (fun x y => key x <= key y) l ->
  StronglySorted (fun x y => key x <= key y) (insertBy cmp a l).
Proof.
  induction l as [|b l IH]; intros Hs; simpl.
  - repeat constructor.
  - apply StronglySorted_inv in Hs as [Hl Hb].
    destruct (ltb 0 (cmp a b)) eqn:E.
    + apply ltb_true in E. unfold cmp in E.
      constructor; [now apply IH|].
      rewrite Forall_forall. intros x Hx.
      rewrite insertBy_perm in Hx. apply elem_of_cons in Hx as [-> | Hx]; [lra|].
      rewrite Forall_forall in Hb. now apply Hb.
    + apply ltb_false in E. unfold cmp in E.
      constructor; [now constructor|].
      constructor; [lra|].
      rewrite Forall_forall in *. intros x Hx. specialize (Hb x Hx). lra.
Qed.

Lemma sortBy_sorted l : StronglySorted (fun x y => key x <= key y) (sortBy cmp l).
Proof.
  induction l as [|a l IH]; simpl; [constructor|].
  now apply insertBy_sorted.
Qed.

Lemma insertBy_stable v a l :
  filter (fun x => key x = v) (insertBy cmp a l)
  = filter (fun x => key x = v) (a :: l).
Proof.
  induction l as [|b l IH]; simpl; [reflexivity|].
  destruct (ltb 0 (cmp a b)) eqn:E; [|reflexivity].
  apply ltb_true in E. unfold cmp in E.
  rewrite (filter_cons _ b), IH, !(filter_cons _ a), (filter_cons _ b).
  destruct (decide (key a = v)), (decide (key b = v)); try reflexivity. lra.
Qed.

Lemma sortBy_stable v l :
  filter (fun x => key x = v) (sortBy cmp l) = filter (fun x => key x = v) l.
Proof.
  induction l as [|a l IH]; simpl; [reflexivity|].
  unfold sortBy in *. simpl. rewrite insertBy_stable, !filter_cons, IH.
  reflexivity.
Qed.
End SortByKey.

Lemma pathLinks_lookup l i a b :
  l !! i = Some a -> l !! S i = Some b ->
  pathLinks l !! i = Some (mkLink (n_id a) (n_id b)).
Proof.
  revert i. induction l as [|x l IH]; intros i Ha Hb; [easy|].
  destruct l as [|y l]; [easy|].
  destruct i as [|i]; simpl in *.
  - now injection Ha as ->; injection Hb as ->.
  - now apply IH.
Qed.

Lemma pathLinks_length l : length (pathLinks l) = (length l - 1)%nat.
Proof.
  induction l as [|x l IH]; [reflexivity|].
  destruct l as [|y l]; [reflexivity|].
  simpl in *. rewrite IH. lia.
Qed.

(** What [childrenMap] holds: for a node, the targets of its links in link
    order; for anything else, nothing. *)
Lemma emptyChildren_lookup l (m : gmap string (list string)) a :
  foldl (fun m n => <[n_id n := []]> m) m l !! a
  = if decide (a ∈ map n_id l) then Some [] else m !! a.
Proof.
  revert m. induction l as [|n l IH]; intros m; simpl; [reflexivity|].
  rewrite IH. destruct (decide (a ∈ map n_id l)) as [Hin | Hnin].
  - rewrite decide_True; [reflexivity|now right].
  - destruct (decide (a = n_id n)) as [-> | Hne].
    + rewrite lookup_insert_eq. rewrite decide_True; [reflexivity|now left].
    + rewrite lookup_insert_ne by congruence.
      rewrite decide_False; [reflexivity|].
      intros [?|?]%elem_of_cons; congruence.
Qed.

Lemma appendChildren_lookup ls (m : gmap string (list string)) a :
  foldl (fun m l =>
           match m !! l_source l with
           | Some cs => <[l_source l := cs ++ [l_target l]]> m
           | None => m
           end) m ls !! a
  = (fun cs => cs ++ map l_target (filter (fun l => l_source l = a) ls)) <$> m !! a.
Proof.
  revert m. induction ls as [|l ls IH]; intros m; simpl.
  - destruct (m !! a); simpl; [now rewrite app_nil_r|reflexivity].
  - rewrite IH, filter_cons.
    destruct (decide (l_source l = a)) as [<- | Hne].
    + destruct (m !! l_source l) as [cs|] eqn:E.
      * rewrite lookup_insert_eq. simpl. now rewrite <- app_assoc.
      * now rewrite E.
    + destruct (m !! l_source l) as [cs|] eqn:E; [|reflexivity].
      now rewrite lookup_insert_ne.
Qed.

Lemma children_childOf p a c :
  c ∈ default [] (buildChildrenMap p !! a) <-> childOf p a c.
Proof.
  unfold buildChildrenMap, childOf, nodeIds.
  destruct (nodes p) as [|n0 l0] eqn:En.
  - rewrite lookup_empty. simpl. split; [now intros ?%elem_of_nil|].
    now intros [?%elem_of_nil _].
  - rewrite appendChildren_lookup, emptyChildren_lookup.
    destruct (decide (a ∈ map n_id (n0 :: l0))) as [Hin | Hnin]; simpl.
    + rewrite list_elem_of_fmap. split.
      * intros (l & -> & [Hs Hl]%list_elem_of_filter). eauto.
      * intros (_ & l & Hl & Hs & Ht). exists l. split; [easy|].
        now apply list_elem_of_filter.
    + split; [now intros ?%elem_of_nil|]. now intros [? _].
Qed.

Lemma sum_list_app (l1 l2 : list nat) :
  sum_list (l1 ++ l2) = (sum_list l1 + sum_list l2)%nat.
Proof. induction l1 as [|a l1 IH]; simpl; [reflexivity|]. rewrite IH. lia. Qed.

Section Descendants.
Variable cm : gmap string (list string).

Let child (a c : string) : Prop := c ∈ default [] (cm !! a).

Lemma collectDescendants_spec fuel queue acc D :
  collectDescendants fuel cm queue acc = Some D ->
  forall id, id ∈ D <-> id ∈ acc \/ exists q, q ∈ queue /\ rtc child q id.
Proof.
  revert queue acc. induction fuel as [|fuel IH]; intros queue acc H id.
  - destruct queue; [|discriminate]. injection H as <-.
    split; [auto|]. intros [?|(q & ?%elem_of_nil & _)]; easy.
  - destruct queue as [|cur rest].
    + injection H as <-. split; [auto|].
      intros [?|(q & ?%elem_of_nil & _)]; easy.
    + simpl in H. rewrite (IH _ _ H id). split.
      * intros [[->%elem_of_singleton | Hacc]%elem_of_union | (q & Hq & Hr)].
        -- right. exists cur. split; [now left|reflexivity].
        -- now left.
        -- right. apply elem_of_app in Hq as [Hq | Hq].
           ++ exists q. split; [now right|easy].
           ++ exists cur. split; [now left|]. now apply (rtc_l _ _ q).
      * intros [Hacc | (q & [-> | Hq]%elem_of_cons & Hr)].
        -- left. apply elem_of_union. now right.
        -- apply rtc_inv in Hr as [<- | (c & Hc & Hr)].
           ++ left. apply elem_of_union. left. now apply elem_of_singleton.
           ++ right. exists c. split; [|easy]. apply elem_of_app. now right.
        -- right. exists q. split; [|easy]. apply elem_of_app. now left.
Qed.

Lemma collectDescendants_more fuel fuel' queue acc D :
  collectDescendants fuel cm queue acc = Some D -> (fuel <= fuel')%nat ->
  collectDescendants fuel' cm queue acc = Some D.
Proof.
  revert fuel' queue acc. induction fuel as [|fuel IH]; intros fuel' queue acc H Hle.
  - destruct queue; [|discriminate]. now destruct fuel'.
  - destruct queue as [|cur rest]; [now destruct fuel'|].
    destruct fuel' as [|fuel']; [lia|]. simpl in *. apply IH; [easy|lia].
Qed.

Variable rank : string -> nat.
Hypothesis rank_child : forall a c, child a c -> (rank c < rank a)%nat.

Lemma visits_pos depth id : (1 <= visits cm depth id)%nat.
Proof. destruct depth; simpl; lia. Qed.

Lemma visits_mono depth depth' id :
  (depth <= depth')%nat -> (visits cm depth id <= visits cm depth' id)%nat.
Proof.
  revert depth' id. induction depth as [|depth IH]; intros depth' id Hle.
  - apply visits_pos.
  - destruct depth' as [|depth']; [lia|]. simpl. apply le_n_S.
    induction (default [] (cm !! id)) as [|c cs IHc]; simpl; [lia|].
    specialize (IH depth' c). lia.
Qed.

Lemma visits_children id :
  (S (sum_list (map (fun c => visits cm (rank c) c) (default [] (cm !! id))))
   <= visits cm (rank id) id)%nat.
Proof.
  pose proof (rank_child id) as Hr. unfold child in Hr.
  destruct (rank id) as [|d] eqn:Ed.
  - destruct (default [] (cm !! id)) as [|c cs]; simpl; [lia|].
    assert (rank c < 0)%nat by (apply Hr; now left). lia.
  - simpl. apply le_n_S.
    induction (default [] (cm !! id)) as [|c cs IHc]; simpl; [lia|].
    assert (rank c < S d)%nat by (apply Hr; now left).
    pose proof (visits_mono (rank c) d c).
    assert (sum_list (map (fun c => visits cm (rank c) c) cs)
            <= sum_list (map (visits cm d) cs))%nat
      by (apply IHc; intros c' Hc'; apply Hr; now right).
    lia.
Qed.

Lemma collectDescendants_ends fuel queue acc :
  (sum_list (map (fun q => visits cm (rank q) q) queue) <= fuel)%nat ->
  is_Some (collectDescendants fuel cm queue acc).
Proof.
  revert queue acc. induction fuel as [|fuel IH]; intros queue acc Hle.
  - destruct queue as [|cur rest]; [now eexists|].
    simpl in Hle. pose proof (visits_pos (rank cur) cur). lia.
  - destruct queue as [|cur rest]; [now eexists|].
    simpl. apply IH. rewrite map_app, sum_list_app.
    simpl in Hle. pose proof (visits_children cur). lia.
Qed.
End Descendants.

Lemma insertBy_after {A} (cmp : A -> A -> R) a b l :
  0 < cmp a b -> insertBy cmp a (b :: l) = b :: insertBy cmp a l.
Proof. intros H. simpl. apply ltb_true in H. now rewrite H. Qed.

Lemma insertBy_before {A} (cmp : A -> A -> R) a b l :
  cmp a b <= 0 -> insertBy cmp a (b :: l) = a :: b :: l.
Proof. intros H. simpl. apply ltb_false in H. now rewrite H. Qed.

Lemma pathProps_descendants :
  collectDescendants 4 (buildChildrenMap pathProps) [n_id groupNode] ∅
  = Some (list_to_set ["topic-t"; "q1"; "q2"; "q3"]).
Proof. vm_compute. reflexivity. Qed.

Lemma sortBy_80_20_50 : sortBy byMastery [q80; q20; q50] = [q20; q50; q80].
Proof.
  unfold sortBy.
  change (fold_right (insertBy byMastery) [] [q80; q20; q50])
    with (insertBy byMastery q80 (insertBy byMastery q20 [q50])).
  rewrite (insertBy_before byMastery q20 q50) by (unfold byMastery, weight; simpl; lra).
  rewrite (insertBy_after byMastery q80 q20) by (unfold byMastery, weight; simpl; lra).
  rewrite (insertBy_after byMastery q80 q50) by (unfold byMastery, weight; simpl; lra).
  reflexivity.
Qed.

Lemma pathProps_focusPath :
  focusPath 4 pathProps
  = Some (mkFocusPath [q20; q50; q80]
            [mkLink "q2" "q3"; mkLink "q3" "q1"]
            (list_to_set ["topic-t"; "q1"; "q2"; "q3"])).
Proof.
  unfold focusPath. simpl weakestPathNode. cbv beta iota zeta.
  rewrite pathProps_descendants. simpl mbind. simpl nodes.
  rewrite filter_cons_False by (vm_compute; intros []).
  rewrite !filter_cons_True by (vm_compute; exact I). rewrite filter_nil.
  rewrite sortBy_80_20_50. simpl pathLinks. simpl String.eqb. cbv iota.
  reflexivity.
Qed.

Lemma isLeafOf_iff (D : gset string) n :
  isQuestion n && bool_decide (n_id n ∈ D) <-> n_type n = "question" /\ n_id n ∈ D.
Proof.
  rewrite andb_True, bool_decide_spec. unfold isQuestion.
  rewrite Is_true_true, String.eqb_eq. reflexivity.
Qed.

Lemma descendants_rtc p root id :
  rtc (fun a c => c ∈ default [] (buildChildrenMap p !! a)) root id
  <-> descendantOf p root id.
Proof.
  unfold descendantOf.
  split; apply rtc_subrel; intros a c; apply children_childOf.
Qed.

(** C4. With a chosen node [w]: whenever the derivation returns, the focus
    path is a rearrangement of the question nodes among the descendants of
    [w], taken from the node list; it is sorted by ascending weight; nodes
    of equal weight keep the order of the node list; and the [i]-th path
    link joins the [i]-th and the next node of the path.  The derivation
    does return on every link set that has no cycle (one with a rank that
    decreases along links).  Leaves given with weights 80, 20, 50 come out
    in the order 20, 50, 80. *)
Theorem focusPath_order (p : Props) (w : Node) :
  weakestPathNode p = Some w ->
  (forall fuel fp, focusPath fuel p = Some fp ->
     exists D : gset string,
       (forall id, id ∈ D <-> descendantOf p (n_id w) id) /\
       let leaves :=
         filter (fun n => n_type n = "question" /\ n_id n ∈ D) (nodes p) in
       Permutation (weakestPathNodes fp) leaves /\
       StronglySorted (fun a b => weight a <= weight b) (weakestPathNodes fp) /\
       (forall v, filter (fun n => weight n = v) (weakestPathNodes fp)
                  = filter (fun n => weight n = v) leaves) /\
       (forall i a b,
           weakestPathNodes fp !! i = Some a ->
           weakestPathNodes fp !! S i = Some b ->
           weakestPathLinks fp !! i = Some (mkLink (n_id a) (n_id b))) /\
       length (weakestPathLinks fp) = (length (weakestPathNodes fp) - 1)%nat) /\
  (forall rank : string -> nat,
      (forall a c, childOf p a c -> (rank c < rank a)%nat) ->
      exists fuel fp, forall fuel', (fuel <= fuel')%nat -> focusPath fuel' p = Some fp) /\
  (map weight (filter (fun n => n_type n = "question") (nodes pathProps)) = [80; 20; 50] /\
   map weight <$> (weakestPathNodes <$> focusPath 4 pathProps) = Some [20; 50; 80]).
Proof.
  intros Hw. split; [|split].
  - intros fuel fp H. unfold focusPath in H. rewrite Hw in H.
    destruct (collectDescendants _ _ _ _) as [D|] eqn:ED; [|discriminate].
    simpl in H. injection H as <-. exists D. split.
    + intros id. rewrite (collectDescendants_spec _ _ _ _ _ ED id).
      rewrite <- descendants_rtc. split.
      * intros [?%elem_of_empty | (q & ->%list_elem_of_singleton & Hr)]; easy.
      * intros Hr. right. exists (n_id w). split; [now left|easy].
    + cbv zeta. simpl weakestPathNodes. simpl weakestPathLinks.
      rewrite (list_filter_iff _ _ _ (isLeafOf_iff D)).
      set (leaves := filter _ (nodes p)).
      split; [apply (sortBy_perm weight)|].
      split; [apply (sortBy_sorted weight)|].
      split; [intros v; apply (sortBy_stable weight)|].
      split; [apply pathLinks_lookup|apply pathLinks_length].
  - intros rank Hrank.
    set (cm := buildChildrenMap p).
    destruct (collectDescendants_ends cm rank
                (fun a c Hc => Hrank a c (proj1 (children_childOf p a c) Hc))
                (visits cm (rank (n_id w)) (n_id w) + 0) [n_id w] ∅)
      as [D HD]; [simpl; lia|].
    eexists _, _. intros fuel' Hle. unfold focusPath. rewrite Hw.
    fold cm. rewrite (collectDescendants_more _ _ _ _ _ _ HD Hle). simpl.
    reflexivity.
  - split.
    + simpl nodes. rewrite filter_cons_False by (vm_compute; intros [=]).
      rewrite !filter_cons_True by reflexivity. reflexivity.
    + rewrite pathProps_focusPath. reflexivity.
Qed.

Lemma pathRank_decreases a c :
  childOf pathProps a c -> (pathRank c < pathRank a)%nat.
Proof.
  intros (_ & l & Hl & <- & <-). simpl in Hl.
  repeat (apply elem_of_cons in Hl as [-> | Hl]); try (vm_compute; lia).
  now apply elem_of_nil in Hl.
Qed.

Lemma focusPath_order_witness :
  weakestPathNode pathProps = Some groupNode /\
  (exists fuel fp, forall fuel', (fuel <= fuel')%nat ->
                                 focusPath fuel' pathProps = Some fp) /\
  map weight <$> (weakestPathNodes <$> focusPath 4 pathProps) = Some [20; 50; 80].
Proof.
  destruct (focusPath_order pathProps groupNode eq_refl) as (_ & Hends & _ & Hex).
  split; [reflexivity|]. split; [|exact Hex].
  exact (Hends pathRank pathRank_decreases).
Defined.

(** ** Orbit mode *)

Lemma orbitNode_cursor p pm s rng acc n :
  (o_cursor acc <= o_cursor (orbitNode p pm s rng acc n) <= S (o_cursor acc))%nat.
Proof.
  unfold orbitNode. destruct (o_store acc !! n_id n); [|lia].
  destruct (isDragged s n); simpl; lia.
Qed.

Lemma orbitNode_same_draw p pm s rng1 rng2 acc n :
  rng1 (o_cursor acc) = rng2 (o_cursor acc) ->
  orbitNode p pm s rng1 acc n = orbitNode p pm s rng2 acc n.
Proof. intros H. unfold orbitNode. now rewrite H. Qed.

Lemma orbitAngle_jitter p pm n r :
  0 <= r < 1 -> Rabs (orbitAngle p pm n r - baseAngle p pm n) <= 0.2.
Proof.
  intros Hr. unfold orbitAngle, jitterSpan.
  apply Rabs_le. destruct (isQuestion n); lra.
Qed.

Lemma solo_baseAngle :
  baseAngle soloProps (buildParentMap soloProps) soloNode = INR 0 / INR 1 * 2 * PI.
Proof. reflexivity. Qed.

Lemma solo_tick rng :
  o_store (runOrbitLayout soloProps (buildParentMap soloProps) rng 0 soloState)
    !! "subject-a"
  = Some (let tgt := orbitTarget soloProps (buildParentMap soloProps) soloNode (rng 0%nat) in
          mkPos (0 + (fst tgt - 0) * 0.05) (0 + (snd tgt - 0) * 0.05)
                ((fst tgt - 0) * 0.05) ((snd tgt - 0) * 0.05)).
Proof.
  unfold runOrbitLayout. simpl nodes. simpl foldl. unfold orbitNode.
  simpl o_store. simpl n_id. simpl nodePositions.
  rewrite lookup_insert_eq. simpl isDragged. cbv iota. simpl o_store.
  rewrite lookup_insert_eq. reflexivity.
Qed.

(** C3, as stated, fails: from the same nodes, links, store and viewport,
    with no drag, two runs of one orbit tick that receive different values
    from [Math.random()] leave the node at different positions. *)
Lemma orbit_tick_depends_on_draws :
  (forall j, 0 <= halfDraws j < 1) /\ (forall j, 0 <= zeroDraws j < 1) /\
  o_store (runOrbitLayout soloProps (buildParentMap soloProps) halfDraws 0 soloState)
    !! "subject-a"
  <> o_store (runOrbitLayout soloProps (buildParentMap soloProps) zeroDraws 0 soloState)
       !! "subject-a".
Proof.
  split; [intros j; unfold halfDraws; lra|].
  split; [intros j; unfold zeroDraws; lra|].
  rewrite !solo_tick. cbv zeta. unfold orbitTarget, orbitAngle.
  rewrite solo_baseAngle. unfold halfDraws, zeroDraws, jitterSpan, radiusFactor, mastery.
  simpl. intros [= _ Hy].
  replace (0 / 1 * 2 * PI + (0.5 - 0.5) * 0.2) with 0 in Hy by lra.
  replace (0 / 1 * 2 * PI + (0 - 0.5) * 0.2) with (- (1 / 10)) in Hy by lra.
  rewrite sin_0, sin_neg in Hy.
  assert (0 < sin (1 / 10)) by (apply sin_gt_0; pose proof PI2_1; lra).
  lra.
Qed.

Lemma orbitNode_dom p pm s rng acc n :
  dom (o_store (orbitNode p pm s rng acc n)) = dom (o_store acc).
Proof.
  unfold orbitNode. destruct (o_store acc !! n_id n) eqn:E; [|reflexivity].
  destruct (isDragged s n); [reflexivity|]. simpl.
  apply dom_insert_lookup_L. now rewrite E.
Qed.

Lemma orbitFold_dom p pm s rng l acc :
  dom (o_store (foldl (orbitNode p pm s rng) acc l)) = dom (o_store acc).
Proof.
  revert acc. induction l as [|n l IH]; intros acc; simpl; [reflexivity|].
  now rewrite IH, orbitNode_dom.
Qed.

Lemma orbitFold_other p pm s rng l acc id :
  id ∉ map n_id l ->
  o_store (foldl (orbitNode p pm s rng) acc l) !! id = o_store acc !! id.
Proof.
  revert acc. induction l as [|n l IH]; intros acc Hid; simpl; [reflexivity|].
  simpl in Hid. apply not_elem_of_cons in Hid as [Hne Hid].
  rewrite IH by exact Hid. unfold orbitNode.
  destruct (o_store acc !! n_id n); [|reflexivity].
  destruct (isDragged s n); [reflexivity|]. simpl.
  now rewrite lookup_insert_ne by congruence.
Qed.

Lemma isDragged_same_id s n m : n_id n = n_id m -> isDragged s n = isDragged s m.
Proof. intros H. unfold isDragged. now rewrite H. Qed.

Lemma moved_same_dom s (m m' : gmap string NodePosition) (l : list Node) :
  dom m' = dom m ->
  filter (fun n => is_Some (m' !! n_id n) /\ isDragged s n = false) l
  = filter (fun n => is_Some (m !! n_id n) /\ isDragged s n = false) l.
Proof.
  intros Hd. apply list_filter_iff. intros n.
  rewrite <- !elem_of_dom, Hd. tauto.
Qed.

Lemma orbitNode_moved p pm s rng acc n pos :
  o_store acc !! n_id n = Some pos -> isDragged s n = false ->
  orbitNode p pm s rng acc n
  = mkOrbitAcc
      (<[n_id n := seekStep 0.05 pos (orbitTarget p pm n (rng (o_cursor acc)))]>
         (o_store acc))
      (o_energy acc
       + (Rabs ((fst (orbitTarget p pm n (rng (o_cursor acc))) - p_x pos) * 0.05)
          + Rabs ((snd (orbitTarget p pm n (rng (o_cursor acc))) - p_y pos) * 0.05)))
      (S (o_cursor acc)).
Proof. intros Hpos Hd. unfold orbitNode. now rewrite Hpos, Hd. Qed.

Lemma orbitNode_unmoved p pm s rng acc n :
  ~ (is_Some (o_store acc !! n_id n) /\ isDragged s n = false) ->
  orbitNode p pm s rng acc n = acc.
Proof.
  intros H. unfold orbitNode. destruct (o_store acc !! n_id n); [|reflexivity].
  destruct (isDragged s n); [reflexivity|]. exfalso. apply H. eauto.
Qed.

(** The cursor after the nodes [l]: one draw for every node that is moved. *)
Lemma orbitFold_count p pm s rng l acc :
  o_cursor (foldl (orbitNode p pm s rng) acc l)
  = (o_cursor acc
     + length (filter (fun n => is_Some (o_store acc !! n_id n) /\ isDragged s n = false)
                      l))%nat.
Proof.
  revert acc. induction l as [|n l IH]; intros acc; [simpl; lia|].
  cbn [foldl]. rewrite IH, (moved_same_dom s (o_store acc)) by apply orbitNode_dom.
  destruct (decide (is_Some (o_store acc !! n_id n) /\ isDragged s n = false))
    as [[[pos Hpos] Hd]|Hn].
  - rewrite filter_cons_True by eauto.
    rewrite (orbitNode_moved p pm s rng acc n pos Hpos Hd). cbn [o_cursor length]. lia.
  - rewrite filter_cons_False by exact Hn. now rewrite orbitNode_unmoved.
Qed.

(** Two streams that agree on the draws made give the same tick. *)
Lemma orbitFold_same_window p pm s rng1 rng2 l acc :
  (forall j,
     (o_cursor acc <= j
      < o_cursor acc
        + length (filter (fun n => is_Some (o_store acc !! n_id n)
                                   /\ isDragged s n = false) l))%nat ->
     rng1 j = rng2 j) ->
  foldl (orbitNode p pm s rng1) acc l = foldl (orbitNode p pm s rng2) acc l.
Proof.
  revert acc. induction l as [|n l IH]; intros acc H; [reflexivity|].
  cbn [foldl].
  destruct (decide (is_Some (o_store acc !! n_id n) /\ isDragged s n = false))
    as [[[pos Hpos] Hd]|Hn].
  - rewrite filter_cons_True in H by eauto. cbn [length] in H.
    rewrite (orbitNode_same_draw p pm s rng1 rng2) by (apply H; lia).
    apply IH. intros j Hj. apply H.
    rewrite (moved_same_dom s (o_store acc)) in Hj by apply orbitNode_dom.
    rewrite (orbitNode_moved p pm s rng2 acc n pos Hpos Hd) in Hj.
    cbn [o_cursor] in Hj. lia.
  - rewrite filter_cons_False in H by exact Hn.
    rewrite !orbitNode_unmoved by exact Hn. now apply IH.
Qed.

(** The [k]-th node that is moved seeks the target of the [k]-th draw. *)
Lemma orbitFold_kth p pm s rng l acc k n pos :
  NoDup (map n_id l) ->
  filter (fun n => is_Some (o_store acc !! n_id n) /\ isDragged s n = false) l !! k
  = Some n ->
  o_store acc !! n_id n = Some pos ->
  o_store (foldl (orbitNode p pm s rng) acc l) !! n_id n
  = Some (seekStep 0.05 pos (orbitTarget p pm n (rng (o_cursor acc + k)%nat))).
Proof.
  revert acc k. induction l as [|m l IH]; intros acc k Hnd Hk Hpos; [discriminate|].
  simpl in Hnd. apply NoDup_cons in Hnd as [Hm Hnd]. cbn [foldl].
  destruct (decide (is_Some (o_store acc !! n_id m) /\ isDragged s m = false))
    as [[[pm' Hpm] Hd]|Hn].
  - rewrite filter_cons_True in Hk by eauto.
    rewrite (orbitNode_moved p pm s rng acc m pm' Hpm Hd).
    destruct k as [|k]; cbn [lookup list_lookup] in Hk.
    + injection Hk as <-. rewrite orbitFold_other by exact Hm. cbn [o_store].
      rewrite lookup_insert_eq, Nat.add_0_r. congruence.
    + simpl in Hk.
      assert (Hin : n ∈ l).
      { apply list_elem_of_lookup_2 in Hk. now apply list_elem_of_filter in Hk as [_ Hk]. }
      assert (Hne : n_id m <> n_id n).
      { intros Heq. apply Hm. rewrite Heq. apply list_elem_of_fmap. eauto. }
      rewrite (IH _ k Hnd).
      * cbn [o_cursor]. now replace (S (o_cursor acc) + k)%nat
                            with (o_cursor acc + S k)%nat by lia.
      * cbn [o_store].
        rewrite (moved_same_dom s (o_store acc)); [exact Hk|].
        apply dom_insert_lookup_L. eauto.
      * cbn [o_store]. now rewrite lookup_insert_ne.
  - rewrite filter_cons_False in Hk by exact Hn.
    rewrite orbitNode_unmoved by exact Hn. now apply IH.
Qed.

Lemma solo_moved : movedNodes soloProps soloState = [soloNode].
Proof.
  unfold movedNodes. simpl nodes.
  rewrite filter_cons_True; [reflexivity|].
  split; [eexists; reflexivity|reflexivity].
Qed.

(** C3 (amended). One orbit tick is a function of its inputs and of the
    values [Math.random()] returns during the tick.  It makes exactly one
    draw for every node it moves (a node with an entry that is not dragged),
    in the order of the node list; two runs from the same inputs that
    receive the same values for these draws produce the same store and the
    same energy, whatever the streams hold beyond; with distinct ids the
    [k]-th moved node seeks the target given by the [k]-th draw; and a draw
    moves the angle of a node by at most 0.2 away from its base angle, which
    does not depend on the draws. *)
Theorem orbit_tick_deterministic_up_to_draws (p : Props) (pm : gmap string string)
    (rng1 rng2 : nat -> R) (i : nat) (s : State) :
  (forall j, (i <= j < i + length (movedNodes p s))%nat -> rng1 j = rng2 j) ->
  runOrbitLayout p pm rng1 i s = runOrbitLayout p pm rng2 i s /\
  o_cursor (runOrbitLayout p pm rng1 i s) = (i + length (movedNodes p s))%nat /\
  (NoDup (nodeIds p) ->
   forall k n pos, movedNodes p s !! k = Some n -> nodePositions s !! n_id n = Some pos ->
     o_store (runOrbitLayout p pm rng1 i s) !! n_id n
     = Some (seekStep 0.05 pos (orbitTarget p pm n (rng1 (i + k)%nat)))) /\
  (forall n r, 0 <= r < 1 -> Rabs (orbitAngle p pm n r - baseAngle p pm n) <= 0.2).
Proof.
  intros H. unfold runOrbitLayout, movedNodes in *. split; [|split; [|split]].
  - now apply orbitFold_same_window.
  - now rewrite orbitFold_count.
  - intros Hnd k n pos Hk Hpos.
    now apply (orbitFold_kth p pm s rng1 (nodes p) (mkOrbitAcc (nodePositions s) 0 i)).
  - intros n r. apply orbitAngle_jitter.
Qed.

Lemma orbit_tick_deterministic_up_to_draws_witness :
  runOrbitLayout soloProps (buildParentMap soloProps) halfDraws 0 soloState
  = runOrbitLayout soloProps (buildParentMap soloProps)
      (fun j => if (j =? 0)%nat then 0.5 else 0) 0 soloState.
Proof.
  refine (proj1 (orbit_tick_deterministic_up_to_draws soloProps
                   (buildParentMap soloProps) halfDraws
                   (fun j => if (j =? 0)%nat then 0.5 else 0) 0 soloState _)).
  intros j Hj. rewrite solo_moved in Hj. simpl in Hj.
  assert (j = 0%nat) as -> by lia. reflexivity.
Defined.

Lemma sin_fifth : 0.198 <= sin (1 / 5).
Proof.
  assert (H : sin_lb (1 / 5) <= sin (1 / 5)).
  { apply SIN; pose proof PI2_1; lra. }
  unfold sin_lb, sin_approx, sin_term in H.
  cbn [sum_f_R0] in H.
  rewrite !INR_IZR_INZ in H.
  change (Z.of_nat (Factorial.fact (2 * 0 + 1))) with 1%Z in H.
  change (Z.of_nat (Factorial.fact (2 * 1 + 1))) with 6%Z in H.
  change (Z.of_nat (Factorial.fact (2 * 2 + 1))) with 120%Z in H.
  change (Z.of_nat (Factorial.fact (2 * 3 + 1))) with 5040%Z in H.
  simpl pow in H.
  lra.
Qed.

Lemma sector_baseAngle n :
  n = weight0 \/ n = weight3 \/ n = weight100 ->
  baseAngle sectorProps (buildParentMap sectorProps) n = INR 1 / INR 4 * 2 * PI.
Proof. intros [-> | [-> | ->]]; reflexivity. Qed.

Lemma sector_angle_weight0 :
  orbitAngle sectorProps (buildParentMap sectorProps) weight0 0.5 = PI / 2.
Proof.
  unfold orbitAngle. rewrite sector_baseAngle by auto.
  unfold jitterSpan. simpl. lra.
Qed.

Lemma sector_angle_weight3 :
  orbitAngle sectorProps (buildParentMap sectorProps) weight3 0 = PI / 2 - 1 / 5.
Proof.
  unfold orbitAngle. rewrite sector_baseAngle by auto.
  unfold jitterSpan. simpl. lra.
Qed.

Lemma orbit_distance p pm n r :
  centreDistance p (orbitTarget p pm n r)
  = sqrt (radiusFactor n * radiusFactor n * ellipseSq p (orbitAngle p pm n r)).
Proof.
  unfold centreDistance, orbitTarget, ellipseSq. simpl. f_equal. ring.
Qed.

Lemma ellipseSq_pos p a :
  0 < width (dimensions p) -> 0 < height (dimensions p) -> 0 < ellipseSq p a.
Proof.
  intros Hw Hh. unfold ellipseSq. cbv zeta.
  pose proof (sin2_cos2 a) as H. unfold Rsqr in H.
  set (c := cos a) in *. set (s := sin a) in *.
  set (rx := width (dimensions p) / 2 * 0.9).
  set (ry := height (dimensions p) / 2 * 0.9).
  assert (0 < rx) by (unfold rx; lra). assert (0 < ry) by (unfold ry; lra).
  destruct (Req_dec_T c 0) as [Hc | Hc].
  - rewrite Hc in *. assert (s * s = 1) by lra.
    replace (0 * rx * (0 * rx) + s * ry * (s * ry)) with (s * s * (ry * ry)) by ring.
    nra.
  - assert (0 < c * c) by nra.
    assert (0 < c * c * (rx * rx)) by (apply Rmult_lt_0_compat; nra).
    assert (0 <= s * s * (ry * ry)) by (apply Rmult_le_pos; nra).
    replace (c * rx * (c * rx) + s * ry * (s * ry))
      with (c * c * (rx * rx) + s * s * (ry * ry)) by ring.
    lra.
Qed.

Lemma ellipseSq_square p a :
  width (dimensions p) = height (dimensions p) ->
  ellipseSq p a = (width (dimensions p) / 2 * 0.9) * (width (dimensions p) / 2 * 0.9).
Proof.
  intros Heq. unfold ellipseSq. cbv zeta. rewrite <- Heq.
  pose proof (sin2_cos2 a) as H. unfold Rsqr in H.
  set (c := cos a) in *. set (s := sin a) in *.
  set (rx := width (dimensions p) / 2 * 0.9).
  replace (c * rx * (c * rx) + s * rx * (s * rx))
    with ((s * s + c * c) * (rx * rx)) by ring.
  rewrite H. ring.
Qed.

Lemma radiusFactor_decreasing n1 n2 :
  mastery n1 < mastery n2 -> radiusFactor n2 < radiusFactor n1.
Proof. unfold radiusFactor. lra. Qed.

Lemma scaled_distance_lt f1 f2 e1 e2 :
  0 <= f2 < f1 -> 0 < e1 -> e2 = e1 -> sqrt (f2 * f2 * e2) < sqrt (f1 * f1 * e1).
Proof.
  intros Hf He ->. apply sqrt_lt_1_alt. split.
  - apply Rmult_le_pos; nra.
  - apply Rmult_lt_compat_r; nra.
Qed.

(** C5, as stated, fails: with a 1600 x 900 viewport the orbit is an
    ellipse, and two questions of the same subject (same base angle) get
    independent random jitters.  With the draws 0.5 and 0 the question of
    weight 0 aims at a point closer to the centre than the question of
    weight 3. *)
Lemma lower_weight_not_always_farther :
  mastery weight0 < mastery weight3 /\
  baseAngle sectorProps (buildParentMap sectorProps) weight0
  = baseAngle sectorProps (buildParentMap sectorProps) weight3 /\
  0 <= 0.5 < 1 /\ 0 <= 0 < 1 /\
  centreDistance sectorProps
    (orbitTarget sectorProps (buildParentMap sectorProps) weight0 0.5)
  < centreDistance sectorProps
      (orbitTarget sectorProps (buildParentMap sectorProps) weight3 0).
Proof.
  split; [unfold mastery; simpl; lra|].
  split; [now rewrite !sector_baseAngle by auto|].
  split; [lra|]. split; [lra|].
  rewrite !orbit_distance, sector_angle_weight0, sector_angle_weight3.
  unfold ellipseSq, radiusFactor, mastery. simpl.
  rewrite cos_PI2, sin_PI2, cos_shift, sin_shift.
  pose proof sin_fifth as Hs.
  pose proof (sin2_cos2 (1 / 5)) as Hc. unfold Rsqr in Hc.
  set (s := sin (1 / 5)) in *. set (c := cos (1 / 5)) in *.
  assert (Hs2 : 0.039 <= s * s) by nra.
  assert (Hcc : c * c = 1 - s * s) by lra.
  apply sqrt_lt_1_alt. split; [nra|].
  replace (c * (900 / 2 * 0.9) * (c * (900 / 2 * 0.9)))
    with ((1 - s * s) * (405 * 405)) by (rewrite <- Hcc; lra).
  replace (s * (1600 / 2 * 0.9) * (s * (1600 / 2 * 0.9)))
    with (s * s * (720 * 720)) by lra.
  lra.
Qed.

(** The orbit ellipse lies between the circles of its shorter and of its
    longer radius. *)
Lemma ellipseSq_bounds p a :
  0 < width (dimensions p) -> 0 < height (dimensions p) ->
  let lo := Rmin (width (dimensions p)) (height (dimensions p)) / 2 * 0.9 in
  let hi := Rmax (width (dimensions p)) (height (dimensions p)) / 2 * 0.9 in
  lo * lo <= ellipseSq p a <= hi * hi.
Proof.
  intros Hw Hh. cbv zeta. unfold ellipseSq. cbv zeta.
  pose proof (sin2_cos2 a) as H. unfold Rsqr in H.
  set (c := cos a) in *. set (s := sin a) in *.
  set (rx := width (dimensions p) / 2 * 0.9).
  set (ry := height (dimensions p) / 2 * 0.9).
  assert (Hrx : 0 < rx) by (unfold rx; lra). assert (Hry : 0 < ry) by (unfold ry; lra).
  assert (Hc : 0 <= c * c) by nra. assert (Hs : 0 <= s * s) by nra.
  replace (c * rx * (c * rx) + s * ry * (s * ry))
    with (c * c * (rx * rx) + s * s * (ry * ry)) by ring.
  assert (Hcs : c * c = 1 - s * s) by lra.
  unfold Rmin, Rmax. destruct (Rle_dec _ _) as [Hle|Hgt].
  - fold rx ry. assert (rx <= ry) by (unfold rx, ry; lra).
    assert (rx * rx <= ry * ry) by nra.
    rewrite Hcs. split; nra.
  - fold rx ry. assert (ry <= rx) by (unfold rx, ry; lra).
    assert (ry * ry <= rx * rx) by nra.
    rewrite Hcs. split; nra.
Qed.

Lemma distance_lt_any_angle f1 f2 lo hi e1 e2 :
  0 <= f2 -> 0 < lo -> 0 < hi -> f2 * hi < f1 * lo ->
  lo * lo <= e1 -> e2 <= hi * hi -> 0 <= e2 ->
  sqrt (f2 * f2 * e2) < sqrt (f1 * f1 * e1).
Proof.
  intros Hf2 Hlo Hhi Hlt He1 He2 He0.
  assert (Hf1 : 0 < f1) by nra.
  apply sqrt_lt_1_alt. split; [apply Rmult_le_pos; nra|].
  apply Rle_lt_trans with (f2 * hi * (f2 * hi)).
  - replace (f2 * hi * (f2 * hi)) with (f2 * f2 * (hi * hi)) by ring.
    apply Rmult_le_compat_l; [nra|exact He2].
  - apply Rlt_le_trans with (f1 * lo * (f1 * lo)).
    + assert (0 <= f2 * hi) by (apply Rmult_le_pos; lra). nra.
    + replace (f1 * lo * (f1 * lo)) with (f1 * f1 * (lo * lo)) by ring.
      apply Rmult_le_compat_l; [nra|exact He1].
Qed.

(** C5 (amended). [radiusFactor = 1 - mastery / 105] is strictly decreasing
    in the weight.  In a viewport of positive size and for weights up to
    105, the node of lower weight aims at a point strictly farther from the
    centre: when the two nodes have the same angle (same base angle and same
    jitter); and, whatever the two angles and draws, when the radius factor
    of the heavier node times the longer side of the viewport is less than
    the radius factor of the lighter node times the shorter side.  That is
    so for all weights in a square viewport, and for the weights 0 and 100
    in every viewport whose longer side is less than 21 times the
    shorter. *)
Theorem lower_weight_farther (p : Props) (pm : gmap string string) (n1 n2 : Node)
    (r1 r2 : R) :
  0 < width (dimensions p) -> 0 < height (dimensions p) ->
  mastery n1 < mastery n2 -> mastery n2 <= 105 ->
  radiusFactor n2 < radiusFactor n1 /\
  (orbitAngle p pm n1 r1 = orbitAngle p pm n2 r2 ->
   centreDistance p (orbitTarget p pm n2 r2)
   < centreDistance p (orbitTarget p pm n1 r1)) /\
  (width (dimensions p) = height (dimensions p) ->
   centreDistance p (orbitTarget p pm n2 r2)
   < centreDistance p (orbitTarget p pm n1 r1)) /\
  (radiusFactor n2 * Rmax (width (dimensions p)) (height (dimensions p))
   < radiusFactor n1 * Rmin (width (dimensions p)) (height (dimensions p)) ->
   centreDistance p (orbitTarget p pm n2 r2)
   < centreDistance p (orbitTarget p pm n1 r1)) /\
  (mastery n1 = 0 -> mastery n2 = 100 ->
   Rmax (width (dimensions p)) (height (dimensions p))
   < 21 * Rmin (width (dimensions p)) (height (dimensions p)) ->
   centreDistance p (orbitTarget p pm n2 r2)
   < centreDistance p (orbitTarget p pm n1 r1)).
Proof.
  intros Hw Hh Hlt Hmax.
  pose proof (radiusFactor_decreasing n1 n2 Hlt) as Hrf.
  assert (Hpos : 0 <= radiusFactor n2) by (unfold radiusFactor; lra).
  assert (Hany : radiusFactor n2 * Rmax (width (dimensions p)) (height (dimensions p))
                 < radiusFactor n1 * Rmin (width (dimensions p)) (height (dimensions p)) ->
                 centreDistance p (orbitTarget p pm n2 r2)
                 < centreDistance p (orbitTarget p pm n1 r1)).
  { intros Hc. rewrite !orbit_distance.
    pose proof (ellipseSq_bounds p (orbitAngle p pm n1 r1) Hw Hh) as [H1 _].
    pose proof (ellipseSq_bounds p (orbitAngle p pm n2 r2) Hw Hh) as [_ H2].
    pose proof (ellipseSq_pos p (orbitAngle p pm n2 r2) Hw Hh) as H0.
    cbv zeta in H1, H2.
    assert (Hmin : 0 < Rmin (width (dimensions p)) (height (dimensions p)))
      by (unfold Rmin; destruct (Rle_dec _ _); lra).
    assert (Hmx : 0 < Rmax (width (dimensions p)) (height (dimensions p)))
      by (unfold Rmax; destruct (Rle_dec _ _); lra).
    eapply distance_lt_any_angle; [exact Hpos| | | |exact H1|exact H2|lra]; lra. }
  split; [exact Hrf|]. split; [|split; [|split]].
  - intros Ha. rewrite !orbit_distance.
    apply scaled_distance_lt; [lra|now apply ellipseSq_pos|now rewrite Ha].
  - intros Hsq. rewrite !orbit_distance.
    apply scaled_distance_lt; [lra|now apply ellipseSq_pos|].
    now rewrite !ellipseSq_square.
  - exact Hany.
  - intros H0 H100 Hratio. apply Hany. unfold radiusFactor. rewrite H0, H100. lra.
Qed.

Lemma lower_weight_farther_witness :
  centreDistance sectorProps
    (orbitTarget sectorProps (buildParentMap sectorProps) weight100 0)
  < centreDistance sectorProps
      (orbitTarget sectorProps (buildParentMap sectorProps) weight0 0.5).
Proof.
  assert (Hw : 0 < width (dimensions sectorProps)) by (simpl; lra).
  assert (Hh : 0 < height (dimensions sectorProps)) by (simpl; lra).
  assert (Hlt : mastery weight0 < mastery weight100) by (unfold mastery; simpl; lra).
  assert (Hmax : mastery weight100 <= 105) by (unfold mastery; simpl; lra).
  refine (proj2 (proj2 (proj2 (proj2
            (lower_weight_farther sectorProps (buildParentMap sectorProps)
               weight0 weight100 0.5 0 Hw Hh Hlt Hmax)))) eq_refl eq_refl _).
  simpl. unfold Rmax, Rmin. repeat destruct (Rle_dec _ _); lra.
Defined.


(** * Further properties of the hook *)

(** ** What a frame does to the store *)

Lemma foldl_dom {A} (f : gmap string NodePosition -> A -> gmap string NodePosition)
    (l : list A) (m : gmap string NodePosition) :
  (forall m a, dom (f m a) = dom m) -> dom (foldl f m l) = dom m.
Proof.
  intros Hf. revert m. induction l as [|a l IH]; intros m; simpl; [reflexivity|].
  now rewrite IH, Hf.
Qed.

Lemma foldl_placeOf {A} (f : gmap string NodePosition -> A -> gmap string NodePosition)
    (l : list A) (m : gmap string NodePosition) id :
  (forall m a, placeOf (f m a) id = placeOf m id) ->
  placeOf (foldl f m l) id = placeOf m id.
Proof.
  intros Hf. revert m. induction l as [|a l IH]; intros m; simpl; [reflexivity|].
  now rewrite IH, Hf.
Qed.

Lemma addVelocity_dom id a b m : dom (addVelocity id a b m) = dom m.
Proof. apply dom_alter_L. Qed.

Lemma addVelocity_placeOf id a b m j :
  placeOf (addVelocity id a b m) j = placeOf m j.
Proof.
  unfold placeOf, addVelocity. rewrite lookup_alter.
  case_decide as E; [subst j|reflexivity].
  now destruct (m !! id).
Qed.

Lemma repelFrom_dom a m b : dom (repelFrom a m b) = dom m.
Proof.
  unfold repelFrom. destruct (String.eqb _ _); [reflexivity|].
  destruct (m !! n_id a), (m !! n_id b); try reflexivity. apply addVelocity_dom.
Qed.

Lemma repelFrom_placeOf a m b j : placeOf (repelFrom a m b) j = placeOf m j.
Proof.
  unfold repelFrom. destruct (String.eqb _ _); [reflexivity|].
  destruct (m !! n_id a), (m !! n_id b); try reflexivity. apply addVelocity_placeOf.
Qed.

Lemma applyNodeForces_dom p m a : dom (applyNodeForces p m a) = dom m.
Proof.
  unfold applyNodeForces. destruct (m !! n_id a); [|reflexivity].
  rewrite foldl_dom by (intros; apply repelFrom_dom). apply addVelocity_dom.
Qed.

Lemma applyNodeForces_placeOf p m a j :
  placeOf (applyNodeForces p m a) j = placeOf m j.
Proof.
  unfold applyNodeForces. destruct (m !! n_id a); [|reflexivity].
  rewrite foldl_placeOf by (intros; apply repelFrom_placeOf).
  apply addVelocity_placeOf.
Qed.

Lemma applyLink_dom m l : dom (applyLink m l) = dom m.
Proof.
  unfold applyLink. destruct (m !! l_source l), (m !! l_target l); try reflexivity.
  now rewrite !addVelocity_dom.
Qed.

Lemma applyLink_placeOf m l j : placeOf (applyLink m l) j = placeOf m j.
Proof.
  unfold applyLink. destruct (m !! l_source l), (m !! l_target l); try reflexivity.
  now rewrite !addVelocity_placeOf.
Qed.

Lemma integrateNode_dom s acc n : dom (fst (integrateNode s acc n)) = dom (fst acc).
Proof.
  unfold integrateNode. destruct (fst acc !! n_id n) eqn:E; [|reflexivity].
  destruct (isDragged s n); [reflexivity|]. simpl.
  apply dom_insert_lookup_L. now rewrite E.
Qed.

Lemma integrate_dom s l acc :
  dom (fst (foldl (integrateNode s) acc l)) = dom (fst acc).
Proof.
  revert acc. induction l as [|n l IH]; intros acc; simpl; [reflexivity|].
  now rewrite IH, integrateNode_dom.
Qed.

Lemma integrate_dragged s d l acc :
  draggedNode s = Some d ->
  fst (foldl (integrateNode s) acc l) !! n_id d = fst acc !! n_id d.
Proof.
  intros Hd. revert acc. induction l as [|n l IH]; intros acc; simpl; [reflexivity|].
  rewrite IH. unfold integrateNode.
  destruct (fst acc !! n_id n) eqn:E; [|reflexivity].
  destruct (isDragged s n) eqn:Edr; [reflexivity|]. simpl.
  unfold isDragged in Edr. rewrite Hd in Edr.
  apply String.eqb_neq in Edr. now rewrite lookup_insert_ne by congruence.
Qed.

Lemma forceStep_dom p s : dom (fst (forceStep p s)) = dom (nodePositions s).
Proof.
  unfold forceStep. rewrite integrate_dom. simpl.
  rewrite foldl_dom by (intros; apply applyLink_dom).
  now rewrite foldl_dom by (intros; apply applyNodeForces_dom).
Qed.

Lemma forceStep_dragged p s d :
  draggedNode s = Some d ->
  placeOf (fst (forceStep p s)) (n_id d) = placeOf (nodePositions s) (n_id d).
Proof.
  intros Hd. unfold forceStep, placeOf at 1.
  rewrite (integrate_dragged s d) by exact Hd. simpl.
  fold (placeOf (foldl applyLink
                   (foldl (applyNodeForces p) (nodePositions s) (nodes p)) (links p))
                (n_id d)).
  rewrite foldl_placeOf by (intros; apply applyLink_placeOf).
  now rewrite foldl_placeOf by (intros; apply applyNodeForces_placeOf).
Qed.

Lemma runGraphSimulation_dom p s :
  dom (nodePositions (runGraphSimulation p s)) = dom (nodePositions s).
Proof.
  unfold runGraphSimulation. destruct (_ && _); [reflexivity|].
  destruct (_ && _); simpl; apply forceStep_dom.
Qed.

Lemma runOrbitLayout_dom p pm rng i s :
  dom (o_store (runOrbitLayout p pm rng i s)) = dom (nodePositions s).
Proof. unfold runOrbitLayout. now rewrite orbitFold_dom. Qed.

Lemma seekFold_dom npr slots l acc m' :
  foldl (seekSlot npr slots) acc l = Some m' ->
  exists m, acc = Some m /\ dom m' = dom m.
Proof.
  revert acc. induction l as [|n l IH]; intros acc H; simpl in H; [eauto|].
  destruct (IH _ H) as (m1 & H1 & Hd). unfold seekSlot in H1.
  destruct acc as [m|]; [|discriminate]. simpl in H1.
  exists m. split; [reflexivity|]. rewrite Hd.
  destruct (m !! n_id n) eqn:E, (slots !! n_id n);
    try (injection H1 as <-; reflexivity).
  destruct (npr =? 0)%Z; [discriminate|]. injection H1 as <-.
  apply dom_insert_lookup_L. now rewrite E.
Qed.

Lemma seekSerpentine_dom p fp s s' :
  seekSerpentine p fp s = Some s' -> dom (nodePositions s') = dom (nodePositions s).
Proof.
  unfold seekSerpentine. intros H.
  destruct (foldl _ _ _) as [m|] eqn:E; [|discriminate].
  simpl in H. injection H as <-. simpl.
  apply seekFold_dom in E as (m0 & [= <-] & Hd). exact Hd.
Qed.

Lemma resetView_keeps p ids s s' :
  resetView p ids s = Some s' ->
  nodePositions s' = nodePositions s /\ transform s' = transform s /\
  draggedNode s' = draggedNode s /\ orbitCenteringDone s' = orbitCenteringDone s.
Proof.
  assert (Hw : forall t, nodePositions (wakeGraph p t) = nodePositions t /\
                         transform (wakeGraph p t) = transform t /\
                         draggedNode (wakeGraph p t) = draggedNode t /\
                         orbitCenteringDone (wakeGraph p t) = orbitCenteringDone t).
  { intros t. unfold wakeGraph. now destruct (layoutMode p), (weakestPathNode p). }
  assert (Hw' : forall t : option Transform,
             nodePositions (wakeGraph p (set_targetTransform t s)) = nodePositions s /\
             transform (wakeGraph p (set_targetTransform t s)) = transform s /\
             draggedNode (wakeGraph p (set_targetTransform t s)) = draggedNode s /\
             orbitCenteringDone (wakeGraph p (set_targetTransform t s))
             = orbitCenteringDone s).
  { intros t. apply (Hw (set_targetTransform t s)). }
  unfold resetView. intros H.
  destruct (_ || _); [now injection H as <-|].
  destruct (fitsNodes p); [|injection H as <-; now apply Hw'].
  destruct (nodesToFrame p ids); [now injection H as <-|].
  destruct (frameXs _ _); [now injection H as <-|].
  destruct (fitTarget _ _ _); [|discriminate].
  simpl in H. injection H as <-. now apply Hw'.
Qed.

(** X1. A frame never adds or removes an entry of the position store, in
    any mode: whenever [loop] returns, the store has the keys it had, so
    only the reconciling effect decides which ids have an entry. *)
Theorem frame_keeps_store_keys (p : Props) (pm : gmap string string) (fp : FocusPath)
    (rng : nat -> R) (i i' : nat) (s s' : State) :
  loop p pm fp rng i s = Some (s', i') ->
  dom (nodePositions s') = dom (nodePositions s).
Proof.
  unfold loop. intros H.
  destruct (animateTransform_keeps s) as (Hp & _ & _). rewrite <- Hp.
  destruct (weakestPathNode p).
  - destruct (seekSerpentine _ _ _) as [s1|] eqn:E; [|discriminate].
    simpl in H. injection H as <- <-. now apply seekSerpentine_dom in E.
  - destruct (layoutMode p).
    + injection H as <- <-. apply runGraphSimulation_dom.
    + unfold orbitFrame in H.
      destruct (_ && _).
      * destruct (resetView _ _ _) as [s2|] eqn:E; [|discriminate].
        simpl in H. injection H as <- <-. simpl.
        apply resetView_keeps in E as (-> & _). simpl.
        apply runOrbitLayout_dom.
      * injection H as <- <-. simpl. apply runOrbitLayout_dom.
Qed.

Lemma frame_keeps_store_keys_witness :
  dom (nodePositions (runGraphSimulation restProps (animateTransform restState)))
  = dom (nodePositions restState).
Proof.
  exact (frame_keeps_store_keys restProps ∅ noFocusPath halfDraws 0 0 restState
           (runGraphSimulation restProps (animateTransform restState)) eq_refl).
Defined.

(** ** The forces of the force-directed mode *)

Lemma distanceOr1_apart dx dy :
  dx <> 0 \/ dy <> 0 -> distanceOr1 dx dy = sqrt (dx * dx + dy * dy).
Proof.
  intros H. unfold distanceOr1, jsOr.
  destruct (truthy _) eqn:E; [reflexivity|].
  apply truthy_false in E. apply sqrt_eq_0 in E; nra.
Qed.

Lemma distanceOr1_opp dx dy : distanceOr1 (- dx) (- dy) = distanceOr1 dx dy.
Proof.
  unfold distanceOr1. now replace (- dx * - dx + - dy * - dy) with (dx * dx + dy * dy) by ring.
Qed.

Lemma distanceOr1_sqr dx dy :
  dx <> 0 \/ dy <> 0 -> distanceOr1 dx dy * distanceOr1 dx dy = dx * dx + dy * dy.
Proof.
  intros H. rewrite distanceOr1_apart by exact H. apply sqrt_sqrt. nra.
Qed.

(** X2. Repulsion between two nodes is equal and opposite; for two nodes
    that are apart it points from the other node away, and its magnitude is
    150 divided by the square of their distance. *)
Theorem repulsion_law (posA posB : NodePosition) :
  repulsion posB posA = (- fst (repulsion posA posB), - snd (repulsion posA posB)) /\
  (p_x posA <> p_x posB \/ p_y posA <> p_y posB ->
   let f := repulsion posA posB in
   let d := distanceTo (p_x posB) (p_y posB) posA in
   0 < d /\
   fst f * (p_x posB - p_x posA) + snd f * (p_y posB - p_y posA) < 0 /\
   sqrt (fst f * fst f + snd f * snd f) = 150 / (d * d)).
Proof.
  split.
  - unfold repulsion.
    replace (p_x posA - p_x posB) with (- (p_x posB - p_x posA)) by ring.
    replace (p_y posA - p_y posB) with (- (p_y posB - p_y posA)) by ring.
    rewrite distanceOr1_opp. simpl. f_equal; field; apply Rgt_not_eq, distanceOr1_pos.
  - intros Hap. cbv zeta. unfold repulsion, distanceTo. simpl.
    set (dx := p_x posB - p_x posA). set (dy := p_y posB - p_y posA).
    assert (Hne : dx <> 0 \/ dy <> 0) by (unfold dx, dy; destruct Hap; [left|right]; lra).
    pose proof (distanceOr1_pos dx dy) as Hpos.
    pose proof (distanceOr1_sqr dx dy Hne) as Hsq.
    rewrite <- (distanceOr1_apart dx dy Hne).
    set (d := distanceOr1 dx dy) in *.
    assert (Hd2 : 0 < d * d) by nra.
    unfold REPULSION_STRENGTH.
    split; [exact Hpos|]. split.
    + replace (dx / d * (-150 / (d * d)) * dx + dy / d * (-150 / (d * d)) * dy)
        with (- (150 * (dx * dx + dy * dy) / (d * (d * d)))) by (field; lra).
      rewrite <- Hsq.
      assert (0 < 150 * (d * d) / (d * (d * d))).
      { apply Rdiv_lt_0_compat; [nra|]. apply Rmult_lt_0_compat; lra. }
      lra.
    + replace (dx / d * (-150 / (d * d)) * (dx / d * (-150 / (d * d)))
               + dy / d * (-150 / (d * d)) * (dy / d * (-150 / (d * d))))
        with ((dx * dx + dy * dy) / (d * d) * ((150 / (d * d)) * (150 / (d * d))))
        by (field; lra).
      rewrite <- Hsq.
      replace (d * d / (d * d)) with 1 by (field; lra).
      rewrite Rmult_1_l. apply sqrt_square.
      apply Rlt_le, Rdiv_lt_0_compat; lra.
Qed.

Lemma repulsion_law_witness :
  let f := repulsion (mkPos 0 0 0 0) (mkPos 3 4 0 0) in
  sqrt (fst f * fst f + snd f * snd f)
  = 150 / (distanceTo 3 4 (mkPos 0 0 0 0) * distanceTo 3 4 (mkPos 0 0 0 0)).
Proof.
  assert (H : p_x (mkPos 0 0 0 0) <> p_x (mkPos 3 4 0 0)
              \/ p_y (mkPos 0 0 0 0) <> p_y (mkPos 3 4 0 0)) by (left; simpl; lra).
  exact (proj2 (proj2 (proj2 (repulsion_law (mkPos 0 0 0 0) (mkPos 3 4 0 0)) H))).
Defined.

(** X3. The spring of a link between two nodes that are apart: it vanishes
    at the rest length 70, pulls the source towards the target beyond it and
    pushes it away below it, with magnitude 0.06 times the deviation from
    the rest length. *)
Theorem spring_law (source target : NodePosition) :
  p_x source <> p_x target \/ p_y source <> p_y target ->
  let f := spring source target in
  let d := distanceTo (p_x target) (p_y target) source in
  let along := fst f * (p_x target - p_x source) + snd f * (p_y target - p_y source) in
  (d = LINK_DISTANCE -> f = (0, 0)) /\
  (LINK_DISTANCE < d -> 0 < along) /\
  (d < LINK_DISTANCE -> along < 0) /\
  sqrt (fst f * fst f + snd f * snd f) = LINK_STRENGTH * Rabs (d - LINK_DISTANCE).
Proof.
  intros Hap. cbv zeta. unfold spring, distanceTo. simpl.
  set (dx := p_x target - p_x source). set (dy := p_y target - p_y source).
  assert (Hne : dx <> 0 \/ dy <> 0) by (unfold dx, dy; destruct Hap; [left|right]; lra).
  pose proof (distanceOr1_pos dx dy) as Hpos.
  pose proof (distanceOr1_sqr dx dy Hne) as Hsq.
  rewrite <- (distanceOr1_apart dx dy Hne).
  set (d := distanceOr1 dx dy) in *.
  set (F := (d - LINK_DISTANCE) * LINK_STRENGTH).
  assert (Halong : dx / d * F * dx + dy / d * F * dy = F * d).
  { replace (dx / d * F * dx + dy / d * F * dy) with (F * (dx * dx + dy * dy) / d)
      by (field; lra).
    rewrite <- Hsq. field. lra. }
  rewrite Halong. unfold F, LINK_STRENGTH, LINK_DISTANCE in *.
  split; [|split; [|split]].
  - intros ->. f_equal; lra.
  - intros H. apply Rmult_lt_0_compat; lra.
  - intros H. assert (0 < (70 - d) * 0.06 * d) by (apply Rmult_lt_0_compat; lra). lra.
  - replace (dx / d * ((d - 70) * 0.06) * (dx / d * ((d - 70) * 0.06))
             + dy / d * ((d - 70) * 0.06) * (dy / d * ((d - 70) * 0.06)))
      with ((dx * dx + dy * dy) / (d * d) * (((d - 70) * 0.06) * ((d - 70) * 0.06))).
    2: { unfold Rdiv. rewrite Rinv_mult. ring. }
    rewrite <- Hsq.
    replace (d * d / (d * d)) with 1 by (field; lra).
    rewrite Rmult_1_l. fold (Rsqr ((d - 70) * 0.06)).
    rewrite sqrt_Rsqr_abs, Rabs_mult, (Rabs_right 0.06) by lra. ring.
Qed.

Lemma spring_law_witness :
  spring (mkPos 0 0 0 0) (mkPos 42 56 0 0) = (0, 0).
Proof.
  assert (H : p_x (mkPos 0 0 0 0) <> p_x (mkPos 42 56 0 0)
              \/ p_y (mkPos 0 0 0 0) <> p_y (mkPos 42 56 0 0)) by (left; simpl; lra).
  apply (proj1 (spring_law (mkPos 0 0 0 0) (mkPos 42 56 0 0) H)).
  unfold distanceTo, LINK_DISTANCE. simpl.
  replace ((42 - 0) * (42 - 0) + (56 - 0) * (56 - 0)) with (70 * 70) by lra.
  apply sqrt_square. lra.
Defined.

(** X4. One link in a tick: a link with an endpoint that has no entry, and
    a link from a node to itself, leave the store as it is; any other link
    adds the spring to the velocity of its source and subtracts the same
    amount from the velocity of its target, and touches no other entry. *)
Theorem link_application (m : gmap string NodePosition) (l : Link) :
  (m !! l_source l = None \/ m !! l_target l = None -> applyLink m l = m) /\
  (l_source l = l_target l -> applyLink m l = m) /\
  (forall src tgt,
      l_source l <> l_target l ->
      m !! l_source l = Some src -> m !! l_target l = Some tgt ->
      let f := spring src tgt in
      velocityOf (applyLink m l) (l_source l)
      = Some (p_vx src + fst f, p_vy src + snd f) /\
      velocityOf (applyLink m l) (l_target l)
      = Some (p_vx tgt + - fst f, p_vy tgt + - snd f) /\
      forall j, j <> l_source l -> j <> l_target l -> applyLink m l !! j = m !! j).
Proof.
  split; [|split].
  - unfold applyLink. intros [-> | H]; [reflexivity|].
    rewrite H. now destruct (m !! l_source l).
  - intros Heq. unfold applyLink. rewrite <- Heq.
    destruct (m !! l_source l) as [pos|] eqn:E; [|reflexivity].
    rewrite spring_coincident by reflexivity. simpl.
    rewrite Ropp_0. now rewrite !addVelocity_zero.
  - intros src tgt Hne Hs Ht. cbv zeta. unfold applyLink, velocityOf.
    rewrite Hs, Ht. unfold addVelocity. split; [|split].
    + rewrite lookup_alter_ne by congruence. rewrite lookup_alter_eq, Hs. reflexivity.
    + rewrite lookup_alter_eq. rewrite lookup_alter_ne by congruence.
      rewrite Ht. reflexivity.
    + intros j Hj1 Hj2. now rewrite !lookup_alter_ne by congruence.
Qed.

Lemma link_application_witness :
  applyLink (<["a" := mkPos 0 0 1 1]> ∅) (mkLink "a" "ghost")
  = <["a" := mkPos 0 0 1 1]> ∅.
Proof.
  apply (proj1 (link_application (<["a" := mkPos 0 0 1 1]> ∅) (mkLink "a" "ghost"))).
  right. reflexivity.
Defined.

(** ** Pointer handlers *)

Lemma runGraphSimulation_dragged p s d :
  draggedNode s = Some d ->
  placeOf (nodePositions (runGraphSimulation p s)) (n_id d)
  = placeOf (nodePositions s) (n_id d).
Proof.
  intros Hd. unfold runGraphSimulation, hasDrag. rewrite Hd.
  rewrite andb_false_r. simpl. now apply forceStep_dragged.
Qed.

(** X5. Dragging pins the node to the pointer: a [mousemove] while a node
    is dragged puts its entry at the model point under the pointer with
    zero velocity and touches neither the other entries nor the camera; a
    tick of the force simulation leaves the dragged node at that point; and
    the [mouseup] that follows leaves it there, at rest, with the drag
    ended. *)
Theorem drag_pins_node (p p' : Props) (rect : Rect) (e e' : MouseEvent)
    (s : State) (ptr : Pointer) (d : Node) (pos0 : NodePosition) :
  draggedNode s = Some d -> nodePositions s !! n_id d = Some pos0 ->
  let pt := eventPos (Some rect) e true s in
  let st1 := fst (handleMouseMove p (Some rect) e (s, ptr)) in
  let s2 := runGraphSimulation p' (fst st1) in
  let st3 := fst (handleMouseUp p (Some rect) e' (s2, snd st1)) in
  nodePositions (fst st1) !! n_id d = Some (mkPos (fst pt) (snd pt) 0 0) /\
  (forall j, j <> n_id d -> nodePositions (fst st1) !! j = nodePositions s !! j) /\
  transform (fst st1) = transform s /\
  placeOf (nodePositions s2) (n_id d) = Some pt /\
  nodePositions (fst st3) !! n_id d = Some (mkPos (fst pt) (snd pt) 0 0) /\
  draggedNode (fst st3) = None.
Proof.
  intros Hd Hpos pt. cbv zeta.
  assert (H1 : fst (handleMouseMove p (Some rect) e (s, ptr))
               = (set_nodePositions
                    (<[n_id d := mkPos (fst pt) (snd pt) 0 0]> (nodePositions s)) s,
                  ptr)).
  { unfold handleMouseMove. cbn [fst snd]. rewrite Hd. unfold pinAt.
    now rewrite Hpos. }
  rewrite H1. clearbody pt. cbn [fst snd].
  set (s1 := set_nodePositions _ s).
  assert (Hd1 : draggedNode s1 = Some d) by exact Hd.
  assert (Hp2 : placeOf (nodePositions (runGraphSimulation p' s1)) (n_id d) = Some pt).
  { rewrite (runGraphSimulation_dragged p' s1 d Hd1). unfold placeOf, s1. simpl.
    rewrite lookup_insert_eq. simpl. now destruct pt. }
  assert (Hd2 : draggedNode (runGraphSimulation p' s1) = Some d).
  { unfold runGraphSimulation, hasDrag. rewrite Hd1. rewrite andb_false_r. simpl.
    exact Hd. }
  split; [unfold s1; simpl; apply lookup_insert_eq|].
  split; [intros j Hj; unfold s1; simpl; now rewrite lookup_insert_ne by congruence|].
  split; [reflexivity|]. split; [exact Hp2|].
  unfold handleMouseUp. cbn [fst snd]. rewrite Hd2. simpl. split; [|reflexivity].
  unfold stopNode. rewrite lookup_alter_eq.
  unfold placeOf in Hp2.
  destruct (nodePositions (runGraphSimulation p' s1) !! n_id d) as [pos2|]; [|discriminate].
  simpl in *. injection Hp2 as Hp2. rewrite <- Hp2. reflexivity.
Qed.

Lemma drag_pins_node_witness :
  nodePositions
    (fst (fst (handleMouseMove restProps (Some (mkRect 0 0)) (mkMouseEvent 120 80 0 0)
                 (set_draggedNode (Some restNode) restState, initialPointer))))
    !! "a"
  = Some (mkPos
            (fst (eventPos (Some (mkRect 0 0)) (mkMouseEvent 120 80 0 0) true
                    (set_draggedNode (Some restNode) restState)))
            (snd (eventPos (Some (mkRect 0 0)) (mkMouseEvent 120 80 0 0) true
                    (set_draggedNode (Some restNode) restState))) 0 0).
Proof.
  exact (proj1 (drag_pins_node restProps restProps (mkRect 0 0)
                  (mkMouseEvent 120 80 0 0) (mkMouseEvent 120 80 0 0)
                  (set_draggedNode (Some restNode) restState) initialPointer
                  restNode (mkPos 400 300 0 0) eq_refl eq_refl)).
Defined.

Lemma move_while_dragging p canvas e s ptr d :
  draggedNode s = Some d ->
  let r := handleMouseMove p canvas e (s, ptr) in
  transform (fst (fst r)) = transform s /\ draggedNode (fst (fst r)) = Some d /\
  snd (fst r) = ptr /\ snd r = [].
Proof.
  intros Hd. unfold handleMouseMove. cbn [fst snd].
  destruct canvas; [|easy]. now rewrite Hd.
Qed.

Lemma move_while_panning p canvas e s ptr :
  draggedNode s = None -> isPanning ptr = true ->
  let r := handleMouseMove p canvas e (s, ptr) in
  nodePositions (fst (fst r)) = nodePositions s /\
  t_k (transform (fst (fst r))) = t_k (transform s) /\
  draggedNode (fst (fst r)) = None /\ snd (fst r) = ptr /\ snd r = [].
Proof.
  intros Hd Hp. unfold handleMouseMove. cbn [fst snd].
  destruct canvas; [|easy]. now rewrite Hd, Hp.
Qed.

Lemma move_while_idle p canvas e s ptr :
  draggedNode s = None -> isPanning ptr = false ->
  let r := handleMouseMove p canvas e (s, ptr) in
  fst (fst r) = s /\ isPanning (snd (fst r)) = false /\
  dragStartPos (snd (fst r)) = dragStartPos ptr /\ clicks (snd r) = [].
Proof.
  intros Hd Hp. unfold handleMouseMove. cbn [fst snd].
  destruct canvas; [|easy]. rewrite Hd, Hp.
  now destruct (hoverChanged _ _).
Qed.

(** X6. What a run of [mousemove] events can change depends on what is in
    progress: while a node is dragged, the camera stays as it is and no
    callback is made; while panning, the store and the scale stay as they
    are and no callback is made; otherwise neither the store nor the camera
    changes and only hover callbacks are made. *)
Theorem moves_respect_mode (p : Props) (canvas : option Rect) (es : list MouseEvent)
    (s : State) (ptr : Pointer) :
  let r := handleMouseMoves p canvas es (s, ptr) in
  (forall d, draggedNode s = Some d ->
     transform (fst (fst r)) = transform s /\ draggedNode (fst (fst r)) = Some d /\
     snd (fst r) = ptr /\ snd r = []) /\
  (draggedNode s = None -> isPanning ptr = true ->
     nodePositions (fst (fst r)) = nodePositions s /\
     t_k (transform (fst (fst r))) = t_k (transform s) /\
     draggedNode (fst (fst r)) = None /\ snd (fst r) = ptr /\ snd r = []) /\
  (draggedNode s = None -> isPanning ptr = false ->
     fst (fst r) = s /\ isPanning (snd (fst r)) = false /\
     dragStartPos (snd (fst r)) = dragStartPos ptr /\ clicks (snd r) = []).
Proof.
  cbv zeta. revert s ptr. induction es as [|e es IH]; intros s ptr.
  - simpl. repeat split; first [assumption | reflexivity].
  - change (handleMouseMoves p canvas (e :: es) (s, ptr))
      with (fst (handleMouseMoves p canvas es (fst (handleMouseMove p canvas e (s, ptr)))),
            snd (handleMouseMove p canvas e (s, ptr))
            ++ snd (handleMouseMoves p canvas es (fst (handleMouseMove p canvas e (s, ptr))))).
    cbn [fst snd].
    destruct (handleMouseMove p canvas e (s, ptr)) as [[s1 ptr1] c1] eqn:E1.
    cbn [fst snd]. destruct (IH s1 ptr1) as (IHd & IHp & IHi).
    split; [|split].
    + intros d Hd.
      pose proof (move_while_dragging p canvas e s ptr d Hd) as H.
      cbv zeta in H. rewrite E1 in H. cbn [fst snd] in H.
      destruct H as (Ht & Hd1 & -> & ->).
      destruct (IHd d Hd1) as (Ht' & Hd' & Hptr' & Hc').
      rewrite Ht', Hc'. repeat split; assumption.
    + intros Hd Hp.
      pose proof (move_while_panning p canvas e s ptr Hd Hp) as H.
      cbv zeta in H. rewrite E1 in H. cbn [fst snd] in H.
      destruct H as (Hm & Hk & Hd1 & -> & ->).
      destruct (IHp Hd1 Hp) as (Hm' & Hk' & Hd' & Hptr' & Hc').
      rewrite Hm', Hk', Hc'. repeat split; assumption.
    + intros Hd Hp.
      pose proof (move_while_idle p canvas e s ptr Hd Hp) as H.
      cbv zeta in H. rewrite E1 in H. cbn [fst snd] in H.
      destruct H as (-> & Hp1 & Hs1 & Hc1).
      destruct (IHi Hd Hp1) as (Hs' & Hp' & Hst' & Hc').
      unfold clicks in *. rewrite List.filter_app, Hc1, Hc'.
      repeat split; try assumption. congruence.
Qed.

Lemma moves_respect_mode_witness :
  transform
    (fst (fst (handleMouseMoves restProps (Some (mkRect 0 0))
                 [mkMouseEvent 10 10 1 1; mkMouseEvent 20 30 10 20]
                 (set_draggedNode (Some restNode) restState, initialPointer))))
  = transform restState.
Proof.
  exact (proj1 (proj1 (moves_respect_mode restProps (Some (mkRect 0 0))
                         [mkMouseEvent 10 10 1 1; mkMouseEvent 20 30 10 20]
                         (set_draggedNode (Some restNode) restState) initialPointer)
                  restNode eq_refl)).
Defined.

Lemma move_keeps_press p canvas e st :
  let r := handleMouseMove p canvas e st in
  dragStartPos (snd (fst r)) = dragStartPos (snd st) /\
  clicks (snd r) = [].
Proof.
  destruct st as [s ptr]. unfold handleMouseMove. cbn [fst snd].
  destruct canvas; [|easy]. destruct (draggedNode s); [easy|].
  destruct (isPanning ptr); [easy|]. now destruct (hoverChanged _ _).
Qed.

Lemma between_keeps_press p canvas l st :
  let r := handleBetween p canvas l st in
  dragStartPos (snd (fst r)) = dragStartPos (snd st) /\
  clicks (snd r) = [].
Proof.
  cbv zeta. revert st. induction l as [|[e|f] l IH]; intros st; [easy| |].
  - cbn [handleBetween fst snd].
    destruct (move_keeps_press p canvas e st) as (H1 & H3).
    destruct (IH (fst (handleMouseMove p canvas e st))) as (H1' & H3').
    unfold clicks in *. rewrite List.filter_app, H3, H3'.
    split; [congruence|reflexivity].
  - cbn [handleBetween]. destruct (IH (f (fst st), snd st)) as (H1 & H3).
    split; [exact H1|exact H3].
Qed.

(** X7. A whole gesture: [mousedown], then any [mousemove]s interleaved
    with any other code of the page (animation frames, timers, the wheel),
    then [mouseup].  The [mousedown] cancels the pending camera target; the
    gesture ends with no node dragged and no panning, whatever the state
    before and whatever ran in between; and it calls [onNodeClick] exactly
    once when the pointer is released less than 3 pixels from where it was
    pressed, and not at all otherwise. *)
Theorem gesture_click (p : Props) (canvas : option Rect) (down up : MouseEvent)
    (between : list Between) (st : State * Pointer) :
  let g := gesture p canvas down between up st in
  targetTransform (fst (handleMouseDown p canvas down st)) = None /\
  draggedNode (fst (fst g)) = None /\
  isDraggingNode (snd (fst g)) = false /\ isPanning (snd (fst g)) = false /\
  (pointerTravel down up < 3 -> exists n, clicks (snd g) = [onNodeClick n]) /\
  (3 <= pointerTravel down up -> clicks (snd g) = []).
Proof.
  cbv zeta. unfold gesture. cbn [fst snd].
  destruct (between_keeps_press p canvas between (handleMouseDown p canvas down st))
    as (Hstart & Hcl).
  set (r := handleBetween p canvas between (handleMouseDown p canvas down st)) in *.
  assert (Hs0 : dragStartPos (snd (handleMouseDown p canvas down st))
                = (clientX down, clientY down)).
  { unfold handleMouseDown. cbn [fst snd].
    destruct (findNodeAtPos _ _ _ _), (weakestPathNode p); reflexivity. }
  assert (Ht0 : targetTransform (fst (handleMouseDown p canvas down st)) = None).
  { unfold handleMouseDown. cbn [fst snd].
    destruct (findNodeAtPos _ _ _ _), (weakestPathNode p); try reflexivity.
    now destruct (layoutMode p). }
  rewrite Hs0 in Hstart.
  unfold handleMouseUp. cbn [fst snd]. rewrite Hstart. cbn [fst snd].
  fold (pointerTravel down up).
  split; [exact Ht0|]. split; [reflexivity|]. split; [reflexivity|].
  split; [reflexivity|].
  unfold clicks in *. rewrite List.filter_app, Hcl. cbn [app].
  split.
  - intros Hlt. apply ltb_true in Hlt. rewrite Hlt. simpl. eauto.
  - intros Hge. apply ltb_false in Hge. now rewrite Hge.
Qed.

Lemma gesture_click_witness :
  exists n,
    clicks (snd (gesture restProps (Some (mkRect 0 0)) (mkMouseEvent 400 300 0 0)
                   [otherCode (set_targetTransform (Some homeTransform));
                    mouseMoved (mkMouseEvent 401 300 1 0)]
                   (mkMouseEvent 401 300 1 0) (restState, initialPointer)))
    = [onNodeClick n].
Proof.
  refine (proj1 (proj2 (proj2 (proj2 (proj2
            (gesture_click restProps (Some (mkRect 0 0)) (mkMouseEvent 400 300 0 0)
               (mkMouseEvent 401 300 1 0)
               [otherCode (set_targetTransform (Some homeTransform));
                mouseMoved (mkMouseEvent 401 300 1 0)]
               (restState, initialPointer)))))) _).
  unfold pointerTravel. simpl.
  replace ((401 - 400) * (401 - 400) + (300 - 300) * (300 - 300)) with (1 * 1) by lra.
  rewrite sqrt_square; lra.
Defined.

(** X8. Panning moves the model with the pointer: after a [mousemove]
    while panning (camera scale not zero), the model point under the
    pointer is the model point that was under the pointer's previous
    position, the one [movementX], [movementY] back. *)
Theorem pan_follows_pointer (p : Props) (rect : Rect) (e : MouseEvent)
    (s : State) (ptr : Pointer) :
  draggedNode s = None -> isPanning ptr = true -> t_k (transform s) <> 0 ->
  let s' := fst (fst (handleMouseMove p (Some rect) e (s, ptr))) in
  let before := mkMouseEvent (clientX e - movementX e) (clientY e - movementY e) 0 0 in
  eventPos (Some rect) e true s' = eventPos (Some rect) before true s /\
  t_k (transform s') = t_k (transform s) /\
  nodePositions s' = nodePositions s.
Proof.
  intros Hd Hp Hk. cbv zeta. unfold handleMouseMove. cbn [fst snd].
  rewrite Hd, Hp. cbn [fst snd]. split; [|easy].
  unfold eventPos, getMousePos. simpl. f_equal; field; exact Hk.
Qed.

Lemma pan_follows_pointer_witness :
  eventPos (Some (mkRect 0 0)) (mkMouseEvent 110 70 10 (-5)) true
    (fst (fst (handleMouseMove restProps (Some (mkRect 0 0))
                 (mkMouseEvent 110 70 10 (-5))
                 (wheelState, mkPointer (0, 0) false true None))))
  = eventPos (Some (mkRect 0 0)) (mkMouseEvent (110 - 10) (70 - -5) 0 0) true wheelState.
Proof.
  refine (proj1 (pan_follows_pointer restProps (mkRect 0 0) (mkMouseEvent 110 70 10 (-5))
                   wheelState (mkPointer (0, 0) false true None) eq_refl eq_refl _)).
  simpl. lra.
Defined.



(** ** Camera animation and zoom *)









Lemma clampScale_inside v : kMin <= v <= kMax -> clampScale v = v.
Proof. unfold clampScale, kMin, kMax, Rmax, Rmin. intros H. rcases. Qed.

(** X11. The imperative zoom is anchored at the centre of the viewport: the
    model point under the centre is the same for the pending target as for
    the current transform (scale not zero).  And zooming in, then out once
    the camera has arrived, leads back when neither zoom is clamped: from a
    scale of at least [kMin] = 0.2 with 1.3 times the scale at most
    [kMax] = 5, the target of the zoom-out is the transform the camera
    started from.  From a scale below 0.2 it does not lead back: the target
    of the zoom-out has a scale of at least 0.2. *)
Theorem zoom_round_trip (p : Props) (factor : R) (s s1 : State) :
  t_k (transform s) <> 0 ->
  (forall tg, targetTransform (zoom p factor s) = Some tg ->
     getMousePos true (width (dimensions p) / 2) (height (dimensions p) / 2) true
       (set_transform tg s)
     = getMousePos true (width (dimensions p) / 2) (height (dimensions p) / 2) true s) /\
  (kMin <= t_k (transform s) -> t_k (transform s) * 1.3 <= kMax ->
   targetTransform (zoomIn p s) = Some (transform s1) ->
   targetTransform (zoomOut p s1) = Some (transform s)) /\
  (t_k (transform s) < kMin ->
   targetTransform (zoomIn p s) = Some (transform s1) ->
   exists tg, targetTransform (zoomOut p s1) = Some tg /\
     t_k (transform s) < kMin <= t_k tg).
Proof.
  intros Hk. split; [|split].
  3: { intros Hlow _. eexists. split; [reflexivity|]. split; [exact Hlow|].
       simpl. apply clampScale_range. }
  - intros tg [= <-]. unfold getMousePos. simpl.
    pose proof (clampScale_pos (t_k (transform s) * factor)) as Hpos.
    set (ns := clampScale _) in *.
    f_equal; field; split; lra.
  - intros Hlo Hhi Harrived. unfold zoomIn, zoom in Harrived. simpl in Harrived.
    injection Harrived as Harrived. unfold zoomOut, zoom. simpl. f_equal.
    rewrite <- Harrived. simpl.
    assert (Hk0 : 0 < t_k (transform s)) by (unfold kMin in Hlo; lra).
    rewrite (clampScale_inside (t_k (transform s) * 1.3))
      by (unfold kMin, kMax in *; lra).
    replace (t_k (transform s) * 1.3 * (1 / 1.3)) with (t_k (transform s)) by lra.
    rewrite (clampScale_inside (t_k (transform s))) by (unfold kMin, kMax in *; lra).
    destruct (transform s) as [k x y]. simpl in *.
    f_equal.
    + set (w := width (dimensions p) / 2).
      replace (k / (k * 1.3)) with (1 / 1.3) by (field; lra).
      replace (k * 1.3 / k) with 1.3 by (field; lra). lra.
    + set (h := height (dimensions p) / 2).
      replace (k / (k * 1.3)) with (1 / 1.3) by (field; lra).
      replace (k * 1.3 / k) with 1.3 by (field; lra). lra.
Qed.

Lemma zoom_round_trip_witness :
  targetTransform
    (zoomOut farProps
       (set_transform
          (mkTransform (clampScale (1 * 1.3))
             (800 / 2 - (800 / 2 - 10) * (clampScale (1 * 1.3) / 1))
             (600 / 2 - (600 / 2 - 20) * (clampScale (1 * 1.3) / 1)))
          wheelState))
  = Some (transform wheelState).
Proof.
  assert (Hk : t_k (transform wheelState) <> 0) by (simpl; lra).
  refine (proj1 (proj2 (zoom_round_trip farProps 1.3 wheelState
                   (set_transform
                      (mkTransform (clampScale (1 * 1.3))
                         (800 / 2 - (800 / 2 - 10) * (clampScale (1 * 1.3) / 1))
                         (600 / 2 - (600 / 2 - 20) * (clampScale (1 * 1.3) / 1)))
                      wheelState) Hk)) _ _ eq_refl).
  - unfold kMin. simpl. lra.
  - unfold kMax. simpl. lra.
Defined.

(** ** Fit-to-bounds *)

Lemma minOf_lower l a : minOf l = Some a -> forall x, x ∈ l -> a <= x.
Proof.
  revert a. induction l as [|v l IH]; intros a H x Hx; [now apply elem_of_nil in Hx|].
  simpl in H. injection H as <-.
  destruct (minOf l) as [m|] eqn:E.
  - apply elem_of_cons in Hx as [-> | Hx].
    + apply Rmin_l.
    + etransitivity; [apply Rmin_r|]. now apply IH.
  - destruct l; [|discriminate].
    apply elem_of_cons in Hx as [-> | Hx]; [lra|now apply elem_of_nil in Hx].
Qed.

Lemma maxOf_upper l a : maxOf l = Some a -> forall x, x ∈ l -> x <= a.
Proof.
  revert a. induction l as [|v l IH]; intros a H x Hx; [now apply elem_of_nil in Hx|].
  simpl in H. injection H as <-.
  destruct (maxOf l) as [m|] eqn:E.
  - apply elem_of_cons in Hx as [-> | Hx].
    + apply Rmax_l.
    + etransitivity; [|apply Rmax_r]. now apply IH.
  - destruct l; [|discriminate].
    apply elem_of_cons in Hx as [-> | Hx]; [lra|now apply elem_of_nil in Hx].
Qed.

Lemma fit_inside size lo hi k v :
  0 < size -> lo <= v <= hi -> 0 < k -> k <= size / (hi - lo + 100) ->
  50 * k <= v * k + (size / 2 - (lo + hi) / 2 * k) <= size - 50 * k.
Proof.
  intros Hs Hv Hk Hle.
  assert (Hden : 0 < hi - lo + 100) by lra.
  assert (Hprod : k * (hi - lo + 100) <= size).
  { apply (Rmult_le_compat_r (hi - lo + 100)) in Hle; [|lra].
    replace (size / (hi - lo + 100) * (hi - lo + 100)) with size in Hle by (field; lra).
    exact Hle. }
  split; nra.
Qed.

Lemma fitTarget_inside d xs ys t :
  fitTarget d xs ys = Some t -> 0 < width d -> 0 < height d ->
  (forall x, x ∈ xs -> 50 * t_k t <= x * t_k t + t_x t <= width d - 50 * t_k t) /\
  (forall y, y ∈ ys -> 50 * t_k t <= y * t_k t + t_y t <= height d - 50 * t_k t).
Proof.
  intros H Hw Hh.
  destruct (fitTarget_scale d xs ys t H) as [_ Hpos]. specialize (Hpos Hw Hh).
  unfold fitTarget in H.
  destruct (minOf xs) as [minX|] eqn:E1; [|discriminate].
  destruct (maxOf xs) as [maxX|] eqn:E2; [|discriminate].
  destruct (minOf ys) as [minY|] eqn:E3; [|discriminate].
  destruct (maxOf ys) as [maxY|] eqn:E4; [|discriminate].
  simpl in H. injection H as <-. simpl in *.
  set (k := Rmin _ _) in *.
  split.
  - intros x Hx. apply fit_inside; [exact Hw| |exact Hpos|].
    + split; [now apply (minOf_lower xs)|now apply (maxOf_upper xs)].
    + unfold k. apply Rmin_l.
  - intros y Hy. apply fit_inside; [exact Hh| |exact Hpos|].
    + split; [now apply (minOf_lower ys)|now apply (maxOf_upper ys)].
    + unfold k. etransitivity; [apply Rmin_r|apply Rmin_l].
Qed.

(** X12. Fit-to-bounds frames what it measures: in graph mode or with a
    focus path, in a viewport of positive size, when some framed node has a
    stored [x] other than 0, the pending target of [resetView] draws every
    framed node whose stored [x] is not 0 between the left and the right
    edge of the canvas, at least 50 model units from each, and every framed
    node whose stored [y] is not 0 between the top and the bottom edge
    likewise. *)
Theorem resetView_frames_nodes (p : Props) (ids : gset string) (s s' : State)
    (t : Transform) :
  nodes p <> [] -> fitsNodes p = true ->
  0 < width (dimensions p) -> 0 < height (dimensions p) ->
  frameXs (nodePositions s) (nodesToFrame p ids) <> [] ->
  resetView p ids s = Some s' -> targetTransform s' = Some t ->
  forall n pos, n ∈ nodesToFrame p ids -> nodePositions s !! n_id n = Some pos ->
    (p_x pos <> 0 ->
     50 * t_k t <= p_x pos * t_k t + t_x t <= width (dimensions p) - 50 * t_k t) /\
    (p_y pos <> 0 ->
     50 * t_k t <= p_y pos * t_k t + t_y t <= height (dimensions p) - 50 * t_k t).
Proof.
  intros Hn Hf Hw Hh Hxs Hr Ht n pos Hin Hpos.
  pose proof (resetView_fit p ids s Hn Hf) as Hfit.
  rewrite Hr in Hfit. simpl in Hfit. rewrite Ht in Hfit.
  replace (truthy (width (dimensions p))) with true in Hfit
    by (symmetry; apply truthy_true; lra).
  assert (HX : p_x pos <> 0 -> p_x pos ∈ frameXs (nodePositions s) (nodesToFrame p ids)).
  { intros Hx. unfold frameXs. apply list_elem_of_filter. split; [now apply truthy_true|].
    apply list_elem_of_fmap. exists n. split; [|exact Hin].
    unfold storedX. rewrite Hpos. now rewrite jsOr_0. }
  assert (HY : p_y pos <> 0 -> p_y pos ∈ frameYs (nodePositions s) (nodesToFrame p ids)).
  { intros Hy. unfold frameYs. apply list_elem_of_filter. split; [now apply truthy_true|].
    apply list_elem_of_fmap. exists n. split; [|exact Hin].
    unfold storedY. rewrite Hpos. now rewrite jsOr_0. }
  destruct (frameXs (nodePositions s) (nodesToFrame p ids)) as [|x0 xs0] eqn:Ex; [easy|].
  destruct (fitTarget _ _ _) as [t'|] eqn:Et; [|discriminate].
  simpl in Hfit. injection Hfit as ->.
  destruct (fitTarget_inside _ _ _ _ Et Hw Hh) as [Hxin Hyin].
  split; intros H0; [apply Hxin, HX, H0|apply Hyin, HY, H0].
Qed.

Lemma farStore_frames :
  frameXs (nodePositions farState) (nodesToFrame farProps ∅) <> [].
Proof.
  unfold frameXs, nodesToFrame, farProps, farNodes. simpl map.
  unfold storedX. simpl n_id. simpl nodePositions.
  rewrite farStore_a, farStore_b, !jsOr_0. simpl p_x.
  rewrite !keep_truthy by lra. easy.
Qed.

Lemma resetView_frames_nodes_witness :
  50 * 0.1 <= 8000 * 0.1 + -5 <= 800 - 50 * 0.1.
Proof.
  assert (Hn : nodes farProps <> []) by easy.
  assert (Hw : 0 < width (dimensions farProps)) by (simpl; lra).
  assert (Hh : 0 < height (dimensions farProps)) by (simpl; lra).
  assert (Hb : mkNode "b" "question" 5 (Some 20) ∈ nodesToFrame farProps ∅)
    by (simpl; right; now left).
  assert (Hx : p_x (mkPos 8000 300 0 0) <> 0) by (simpl; lra).
  exact (proj1 (resetView_frames_nodes farProps ∅ farState _ (mkTransform 0.1 (-5) 270)
                  Hn eq_refl Hw Hh farStore_frames farState_fit eq_refl
                  (mkNode "b" "question" 5 (Some 20)) (mkPos 8000 300 0 0) Hb farStore_b)
               Hx).
Defined.

(** ** Orbit mode, continued *)

(** X13. Orbit targets stay on screen: for a node of weight between 0 and
    105 (so for every weight from 0 to 100) and a viewport of non-negative
    size, the target of the node lies within 45% of the width and of the
    height from the centre, whatever the angle and the random draw. *)
Theorem orbitTarget_inside_viewport (p : Props) (pm : gmap string string) (n : Node)
    (r : R) :
  0 <= mastery n <= 105 ->
  0 <= width (dimensions p) -> 0 <= height (dimensions p) ->
  Rabs (fst (orbitTarget p pm n r) - width (dimensions p) / 2)
    <= 0.45 * width (dimensions p) /\
  Rabs (snd (orbitTarget p pm n r) - height (dimensions p) / 2)
    <= 0.45 * height (dimensions p).
Proof.
  intros Hm Hw Hh. unfold orbitTarget. simpl.
  set (a := orbitAngle p pm n r).
  assert (Hrf : 0 <= radiusFactor n <= 1) by (unfold radiusFactor; lra).
  pose proof (COS_bound a) as Hc. pose proof (SIN_bound a) as Hs.
  split; apply Rabs_le.
  - set (w := width (dimensions p)) in *. set (f := radiusFactor n) in *.
    assert (0 <= w / 2 * 0.9 * f <= 0.45 * w) by nra.
    split; nra.
  - set (h := height (dimensions p)) in *. set (f := radiusFactor n) in *.
    assert (0 <= h / 2 * 0.9 * f <= 0.45 * h) by nra.
    split; nra.
Qed.

Lemma orbitTarget_inside_viewport_witness :
  Rabs (fst (orbitTarget sectorProps (buildParentMap sectorProps) weight100 0.5)
        - 1600 / 2) <= 0.45 * 1600.
Proof.
  refine (proj1 (orbitTarget_inside_viewport sectorProps (buildParentMap sectorProps)
                   weight100 0.5 _ _ _)).
  - unfold mastery. simpl. lra.
  - simpl. lra.
  - simpl. lra.
Defined.

Lemma orbitFold_dragged p pm s rng l acc n :
  isDragged s n = true ->
  o_store (foldl (orbitNode p pm s rng) acc l) !! n_id n = o_store acc !! n_id n.
Proof.
  intros Hd. revert acc. induction l as [|m l IH]; intros acc; simpl; [reflexivity|].
  rewrite IH. unfold orbitNode.
  destruct (o_store acc !! n_id m); [|reflexivity].
  destruct (isDragged s m) eqn:Em; [reflexivity|]. simpl.
  rewrite lookup_insert_ne; [reflexivity|].
  intros Heq. rewrite (isDragged_same_id s m n Heq) in Em. congruence.
Qed.

Lemma orbitFold_node p pm s rng l acc n pos :
  NoDup (map n_id l) -> n ∈ l -> o_store acc !! n_id n = Some pos ->
  isDragged s n = false ->
  exists j, (o_cursor acc <= j < o_cursor acc + length l)%nat /\
    o_store (foldl (orbitNode p pm s rng) acc l) !! n_id n
    = Some (seekStep 0.05 pos (orbitTarget p pm n (rng j))).
Proof.
  intros Hnd Hin Hpos Hdr. revert acc Hpos.
  induction l as [|m l IH]; intros acc Hpos; [now apply elem_of_nil in Hin|].
  simpl in Hnd. apply NoDup_cons in Hnd as [Hm Hnd]. simpl.
  destruct (decide (n_id n = n_id m)) as [Heq | Hne].
  - assert (n = m) as <-.
    { apply elem_of_cons in Hin as [-> | Hin]; [reflexivity|].
      exfalso. apply Hm. rewrite <- Heq. apply list_elem_of_fmap. eauto. }
    exists (o_cursor acc). split; [simpl; lia|].
    rewrite orbitFold_other by exact Hm.
    unfold orbitNode. rewrite Hpos, Hdr. simpl. now rewrite lookup_insert_eq.
  - assert (Hin' : n ∈ l).
    { apply elem_of_cons in Hin as [-> | Hin]; [congruence|exact Hin]. }
    destruct (IH Hnd Hin' (orbitNode p pm s rng acc m)) as (j & Hj & Hl).
    + unfold orbitNode. destruct (o_store acc !! n_id m); [|exact Hpos].
      destruct (isDragged s m); [exact Hpos|]. simpl.
      now rewrite lookup_insert_ne by congruence.
    + exists j. split; [|exact Hl].
      pose proof (orbitNode_cursor p pm s rng acc m). simpl. lia.
Qed.

Lemma orbitFold_energy p pm s rng l acc :
  0 <= o_energy acc -> 0 <= o_energy (foldl (orbitNode p pm s rng) acc l).
Proof.
  revert acc. induction l as [|m l IH]; intros acc H; simpl; [exact H|].
  apply IH. unfold orbitNode. destruct (o_store acc !! n_id m); [|exact H].
  destruct (isDragged s m); [exact H|]. cbn [o_energy].
  match goal with
  | |- 0 <= _ + (Rabs ?a + Rabs ?b) => pose proof (Rabs_pos a); pose proof (Rabs_pos b)
  end.
  lra.
Qed.

(** X14. One orbit tick on a node list without duplicate ids: the entry of
    the dragged node is left as it is; every other node with an entry moves
    5% of the way to its target for one of the draws of this tick, so its
    offset from that target shrinks to 95%, and its velocity is the step it
    made; and the energy returned is not negative. *)
Theorem orbit_tick_seeks (p : Props) (pm : gmap string string) (rng : nat -> R)
    (i : nat) (s : State) :
  NoDup (nodeIds p) ->
  0 <= o_energy (runOrbitLayout p pm rng i s) /\
  forall n pos, n ∈ nodes p -> nodePositions s !! n_id n = Some pos ->
    (isDragged s n = true ->
     o_store (runOrbitLayout p pm rng i s) !! n_id n = Some pos) /\
    (isDragged s n = false ->
     exists j, (i <= j < i + length (nodes p))%nat /\
       let tgt := orbitTarget p pm n (rng j) in
       let pos' := seekStep 0.05 pos tgt in
       o_store (runOrbitLayout p pm rng i s) !! n_id n = Some pos' /\
       fst tgt - p_x pos' = 0.95 * (fst tgt - p_x pos) /\
       snd tgt - p_y pos' = 0.95 * (snd tgt - p_y pos) /\
       p_vx pos' = p_x pos' - p_x pos /\ p_vy pos' = p_y pos' - p_y pos).
Proof.
  intros Hnd. unfold runOrbitLayout. split.
  - apply orbitFold_energy. simpl. lra.
  - intros n pos Hin Hpos. split.
    + intros Hd. now rewrite orbitFold_dragged.
    + intros Hd.
      destruct (orbitFold_node p pm s rng (nodes p) (mkOrbitAcc (nodePositions s) 0 i)
                  n pos Hnd Hin Hpos Hd) as (j & Hj & Hl).
      exists j. split; [exact Hj|]. cbv zeta. split; [exact Hl|].
      simpl. repeat split; lra.
Qed.

Lemma orbit_tick_seeks_witness :
  0 <= o_energy (runOrbitLayout soloProps (buildParentMap soloProps) halfDraws 0 soloState).
Proof.
  refine (proj1 (orbit_tick_seeks soloProps (buildParentMap soloProps) halfDraws 0
                   soloState _)).
  simpl. apply NoDup_singleton.
Defined.

Lemma rootSubjectFrom_found pm steps cur r :
  rootSubjectFrom pm steps cur = Some r ->
  String.prefix "subject-" r = true /\
  exists k, (k < steps)%nat /\ ancestor pm k cur = Some r.
Proof.
  revert cur. induction steps as [|steps IH]; intros cur H; [discriminate|].
  simpl in H. destruct (String.prefix "subject-" cur) eqn:E.
  - injection H as <-. split; [exact E|]. exists 0%nat. split; [lia|reflexivity].
  - destruct (pm !! cur) as [parentId|] eqn:Ep; [|discriminate].
    destruct (String.eqb parentId ""); [discriminate|].
    destruct (IH _ H) as (Hr & k & Hk & Ha). split; [exact Hr|].
    exists (S k). split; [lia|]. simpl. now rewrite Ep.
Qed.

Lemma rootSubjectFrom_too_deep pm steps cur :
  (forall k, (k < steps)%nat ->
     exists a, ancestor pm k cur = Some a /\ String.prefix "subject-" a = false) ->
  rootSubjectFrom pm steps cur = None.
Proof.
  revert cur. induction steps as [|steps IH]; intros cur H; [reflexivity|].
  simpl. destruct (H 0%nat) as (a & [= <-] & Ha); [lia|]. rewrite Ha.
  destruct (pm !! cur) as [parentId|] eqn:Ep; [|reflexivity].
  destruct (String.eqb parentId ""); [reflexivity|].
  apply IH. intros k Hk. destruct (H (S k)) as (a & Hanc & Hpre); [lia|].
  simpl in Hanc. rewrite Ep in Hanc. eauto.
Qed.

(** X15. [getRootSubjectId]: an id that starts with [subject-] is its own
    root; every root it returns starts with [subject-] and is reached from
    the node by at most four steps up [parentMap]; and when the node and its
    first four ancestors all exist and none starts with [subject-], it
    returns nothing, whatever lies farther up. *)
Theorem getRootSubjectId_spec (pm : gmap string string) (id : string) :
  (String.prefix "subject-" id = true -> getRootSubjectId pm id = Some id) /\
  (forall r, getRootSubjectId pm id = Some r ->
     String.prefix "subject-" r = true /\
     exists k, (k <= 4)%nat /\ ancestor pm k id = Some r) /\
  ((forall k, (k <= 4)%nat ->
      exists a, ancestor pm k id = Some a /\ String.prefix "subject-" a = false) ->
   getRootSubjectId pm id = None).
Proof.
  unfold getRootSubjectId. split; [|split].
  - intros H. simpl. now rewrite H.
  - intros r H. apply rootSubjectFrom_found in H as (Hr & k & Hk & Ha).
    split; [exact Hr|]. exists k. split; [lia|exact Ha].
  - intros H. apply rootSubjectFrom_too_deep. intros k Hk. apply H. lia.
Qed.

Lemma getRootSubjectId_spec_witness :
  getRootSubjectId (buildParentMap sectorProps) "subject-b" = Some "subject-b".
Proof.
  exact (proj1 (getRootSubjectId_spec (buildParentMap sectorProps) "subject-b") eq_refl).
Defined.

Lemma subjectAnglesFrom_other count i l m id :
  id ∉ map n_id l -> subjectAnglesFrom count i l m !! id = m !! id.
Proof.
  revert i m. induction l as [|n l IH]; intros i m Hid; simpl; [reflexivity|].
  simpl in Hid. apply not_elem_of_cons in Hid as [Hne Hid].
  rewrite IH by exact Hid. now rewrite lookup_insert_ne by congruence.
Qed.

Lemma subjectAnglesFrom_lookup count i l m idx n :
  NoDup (map n_id l) -> l !! idx = Some n ->
  subjectAnglesFrom count i l m !! n_id n = Some (INR (i + idx) / INR count * 2 * PI).
Proof.
  revert i m idx. induction l as [|n0 l IH]; intros i m idx Hnd Hl; [easy|].
  simpl in Hnd. apply NoDup_cons in Hnd as [Hn0 Hnd]. simpl.
  destruct idx as [|idx]; simpl in Hl.
  - injection Hl as ->. rewrite subjectAnglesFrom_other by exact Hn0.
    rewrite lookup_insert_eq. now rewrite Nat.add_0_r.
  - rewrite (IH (S i) _ idx Hnd Hl).
    now replace (S i + idx)%nat with (i + S idx)%nat by lia.
Qed.

(** X16. Sectors are divided evenly among the subjects: when the subject
    nodes have distinct ids, the subject at index [idx] of [count] subjects
    has the angle [idx / count * 2 * PI], which lies in [0, 2 PI); an id
    that is no subject has no angle; and every node whose root subject is
    that subject gets exactly this base angle. *)
Theorem sectors_evenly_divided (p : Props) (pm : gmap string string) :
  NoDup (map n_id (subjectNodes p)) ->
  (forall id, id ∉ map n_id (subjectNodes p) -> subjectAngles p !! id = None) /\
  forall idx subj, subjectNodes p !! idx = Some subj ->
    let angle := INR idx / INR (length (subjectNodes p)) * 2 * PI in
    subjectAngles p !! n_id subj = Some angle /\
    0 <= angle < 2 * PI /\
    forall n, getRootSubjectId pm (n_id n) = Some (n_id subj) -> baseAngle p pm n = angle.
Proof.
  intros Hnd. unfold subjectAngles. fold (subjectNodes p). split.
  - intros id Hid. rewrite subjectAnglesFrom_other by exact Hid. apply lookup_empty.
  - intros idx subj Hl. cbv zeta.
    pose proof (subjectAnglesFrom_lookup (length (subjectNodes p)) 0 _ ∅ idx subj Hnd Hl)
      as Hang.
    simpl in Hang. split; [exact Hang|].
    assert (Hlt : (idx < length (subjectNodes p))%nat) by (eapply lookup_lt_Some; eauto).
    split.
    + pose proof PI_RGT_0 as Hpi.
      assert (Hc : 0 < INR (length (subjectNodes p))) by (apply lt_0_INR; lia).
      assert (Hi : 0 <= INR idx) by apply pos_INR.
      assert (Hi' : INR idx < INR (length (subjectNodes p))) by now apply lt_INR.
      assert (Hq : 0 <= INR idx / INR (length (subjectNodes p)) < 1).
      { split; [unfold Rdiv; apply Rmult_le_pos; [lra|apply Rlt_le, Rinv_0_lt_compat; lra]|].
        apply (Rmult_lt_reg_r (INR (length (subjectNodes p)))); [exact Hc|].
        replace (INR idx / INR (length (subjectNodes p)) * INR (length (subjectNodes p)))
          with (INR idx) by (field; lra).
        lra. }
      split; nra.
    + intros n Hroot. unfold baseAngle. rewrite Hroot.
      unfold subjectAngles. fold (subjectNodes p). now rewrite Hang.
Qed.

Lemma sectors_evenly_divided_witness :
  subjectAngles soloProps !! "subject-a" = Some (INR 0 / INR 1 * 2 * PI).
Proof.
  assert (Hnd : NoDup (map n_id (subjectNodes soloProps))).
  { unfold subjectNodes, soloProps. simpl nodes.
    rewrite filter_cons_True by reflexivity. rewrite filter_nil. simpl.
    apply NoDup_singleton. }
  assert (Hl : subjectNodes soloProps !! 0%nat = Some soloNode).
  { unfold subjectNodes, soloProps. simpl nodes.
    rewrite filter_cons_True by reflexivity. reflexivity. }
  exact (proj1 (proj2 (sectors_evenly_divided soloProps ∅ Hnd) 0%nat soloNode Hl)).
Defined.

Lemma animateTransform_camera s1 s2 :
  transform s1 = transform s2 -> targetTransform s1 = targetTransform s2 ->
  transform (animateTransform s1) = transform (animateTransform s2) /\
  targetTransform (animateTransform s1) = targetTransform (animateTransform s2).
Proof.
  intros Ht Htg. unfold animateTransform. rewrite Htg, Ht.
  destruct (targetTransform s2) as [tg|] eqn:E.
  - destruct (_ && _ && _); simpl; [easy|]. split; congruence.
  - split; congruence.
Qed.

Lemma animateFrames_camera n s1 s2 :
  transform s1 = transform s2 -> targetTransform s1 = targetTransform s2 ->
  transform (animateFrames n s1) = transform (animateFrames n s2) /\
  targetTransform (animateFrames n s1) = targetTransform (animateFrames n s2).
Proof.
  intros Ht Htg. induction n as [|n [IH1 IH2]]; [easy|].
  change (animateFrames (S n) s1) with (animateTransform (animateFrames n s1)).
  change (animateFrames (S n) s2) with (animateTransform (animateFrames n s2)).
  now apply animateTransform_camera.
Qed.

Lemma orbit_frame_done p pm fp rng i s :
  layoutMode p = orbit -> weakestPathNode p = None -> orbitCenteringDone s = true ->
  exists s' i', loop p pm fp rng i s = Some (s', i') /\
    orbitCenteringDone s' = true /\
    transform s' = transform (animateTransform s) /\
    targetTransform s' = targetTransform (animateTransform s).
Proof.
  intros Hm Hw Hd.
  assert (Hda : orbitCenteringDone (animateTransform s) = true).
  { unfold animateTransform. destruct (targetTransform s); [|easy].
    now destruct (_ && _ && _). }
  unfold loop, orbitFrame. rewrite Hw, Hm. cbn [orbitCenteringDone set_nodePositions].
  rewrite Hda. cbn [negb andb].
  eexists _, _. split; [reflexivity|]. now simpl.
Qed.

(** X17. The automatic refit of orbit mode is one-shot.  In orbit mode with
    no focus path: while the centring flag is clear, the first frame whose
    energy is under 0.05 per node sets the flag and makes the identity
    transform the pending target; and once the flag is set, it stays set
    over any number of frames, none of which sets a target: the camera only
    follows its own animation. *)
Theorem orbit_centering_one_shot (p : Props) (pm : gmap string string) (fp : FocusPath)
    (rng : nat -> R) (n i : nat) (s : State) :
  layoutMode p = orbit -> weakestPathNode p = None ->
  (orbitCenteringDone s = false ->
   o_energy (runOrbitLayout p pm rng i (animateTransform s))
     < 0.05 * INR (length (nodes p)) ->
   exists s' i', loop p pm fp rng i s = Some (s', i') /\
     orbitCenteringDone s' = true /\ targetTransform s' = Some homeTransform) /\
  (orbitCenteringDone s = true ->
   exists s' i', frames n p pm fp rng i s = Some (s', i') /\
     orbitCenteringDone s' = true /\
     transform s' = transform (animateFrames n s) /\
     targetTransform s' = targetTransform (animateFrames n s)).
Proof.
  intros Hm Hw. split.
  - intros Hd He.
    assert (Hda : orbitCenteringDone (animateTransform s) = false).
    { unfold animateTransform. destruct (targetTransform s); [|easy].
      now destruct (_ && _ && _). }
    unfold loop, orbitFrame. rewrite Hw, Hm. cbn [orbitCenteringDone set_nodePositions].
    rewrite Hda. apply ltb_true in He. rewrite He. cbn [negb andb].
    unfold resetView, fitsNodes. rewrite Hm, Hw.
    destruct (_ || _); cbn [mbind option_bind]; eexists _, _; (split; [reflexivity|]).
    + easy.
    + split; [reflexivity|]. cbn [targetTransform set_orbitCenteringDone].
      now rewrite wakeGraph_target.
  - revert i s. induction n as [|n IH]; intros i s Hd.
    + exists s, i. easy.
    + destruct (orbit_frame_done p pm fp rng i s Hm Hw Hd) as (s1 & i1 & Hl & Hd1 & Ht1 & Htg1).
      destruct (IH i1 s1 Hd1) as (s' & i' & Hf & Hd' & Ht' & Htg').
      exists s', i'. cbn [frames]. rewrite Hl. cbn [mbind option_bind fst snd].
      split; [exact Hf|]. split; [exact Hd'|].
      destruct (animateFrames_camera n s1 (animateTransform s) Ht1 Htg1) as [Hc1 Hc2].
      replace (animateFrames (S n) s) with (animateFrames n (animateTransform s)).
      2: { unfold animateFrames. symmetry. apply Nat.iter_succ_r. }
      split; congruence.
Qed.

Lemma settledSolo_energy :
  o_energy (runOrbitLayout soloProps (buildParentMap soloProps) halfDraws 0
              (animateTransform settledSolo))
  < 0.05 * INR (length (nodes soloProps)).
Proof.
  unfold runOrbitLayout. simpl nodes. cbn [foldl length]. unfold orbitNode.
  cbn [o_store o_energy o_cursor]. simpl nodePositions. simpl n_id.
  rewrite lookup_insert_eq. simpl isDragged. cbv iota zeta.
  cbn [o_energy p_x p_y].
  unfold orbitTarget, orbitAngle. rewrite solo_baseAngle.
  unfold halfDraws, jitterSpan, radiusFactor, mastery. simpl.
  replace (0 / 1 * 2 * PI + (0.5 - 0.5) * 0.2) with 0 by lra.
  rewrite cos_0, sin_0.
  replace ((1600 / 2 + 1 * (1600 / 2 * 0.9) * (1 - 50 / 105)
            - (800 + 720 * (1 - 50 / 105))) * 0.05) with 0 by lra.
  replace ((900 / 2 + 0 * (900 / 2 * 0.9) * (1 - 50 / 105) - 450) * 0.05) with 0 by lra.
  rewrite Rabs_R0. lra.
Qed.

Lemma orbit_centering_one_shot_witness :
  (exists s' i', loop soloProps (buildParentMap soloProps) noFocusPath halfDraws 0
                   settledSolo = Some (s', i') /\
     orbitCenteringDone s' = true /\ targetTransform s' = Some homeTransform) /\
  (exists s' i', frames 3 soloProps (buildParentMap soloProps) noFocusPath halfDraws 0
                   soloState = Some (s', i') /\
     orbitCenteringDone s' = true /\
     transform s' = transform (animateFrames 3 soloState) /\
     targetTransform s' = targetTransform (animateFrames 3 soloState)).
Proof.
  split.
  - exact (proj1 (orbit_centering_one_shot soloProps (buildParentMap soloProps)
                    noFocusPath halfDraws 0 0 settledSolo eq_refl eq_refl)
             eq_refl settledSolo_energy).
  - exact (proj2 (orbit_centering_one_shot soloProps (buildParentMap soloProps)
                    noFocusPath halfDraws 3 0 soloState eq_refl eq_refl) eq_refl).
Defined.

(** ** Focus-path mode *)

Lemma nodesPerRow_wide p : 150 <= width (dimensions p) -> (1 <= nodesPerRow p)%Z.
Proof.
  intros Hw. unfold nodesPerRow.
  destruct (base_Int_part (width (dimensions p) * 0.8 / 120)) as [_ Hb].
  assert (H0 : 0 < IZR (Int_part (width (dimensions p) * 0.8 / 120))) by lra.
  apply lt_IZR in H0. lia.
Qed.

Lemma nodesPerRow_narrow p :
  0 <= width (dimensions p) < 150 -> nodesPerRow p = 0%Z.
Proof.
  intros Hw. unfold nodesPerRow.
  destruct (base_Int_part (width (dimensions p) * 0.8 / 120)) as [Ha Hb].
  assert (H0 : IZR (Int_part (width (dimensions p) * 0.8 / 120)) < 1) by lra.
  assert (H1 : -1 < IZR (Int_part (width (dimensions p) * 0.8 / 120))) by lra.
  apply lt_IZR in H0, H1. lia.
Qed.

Lemma serpentineFrom_other d npr count i l m id :
  id ∉ map n_id l -> serpentineFrom d npr count i l m !! id = m !! id.
Proof.
  revert i m. induction l as [|n l IH]; intros i m Hid; [reflexivity|].
  simpl in *. apply not_elem_of_cons in Hid as [Hne Hid].
  rewrite IH by exact Hid. now rewrite lookup_insert_ne.
Qed.

Lemma serpentineFrom_lookup d npr count i l m idx n :
  NoDup (map n_id l) -> l !! idx = Some n ->
  serpentineFrom d npr count i l m !! n_id n
  = Some (serpentineSlot d npr count (i + idx)).
Proof.
  revert i m idx. induction l as [|n0 l IH]; intros i m idx Hnd Hl; [easy|].
  simpl in Hnd. apply NoDup_cons in Hnd as [Hn0 Hnd]. simpl.
  destruct idx as [|idx]; simpl in Hl.
  - injection Hl as ->. rewrite serpentineFrom_other by exact Hn0.
    rewrite lookup_insert_eq. now rewrite Nat.add_0_r.
  - rewrite (IH (S i) _ idx Hnd Hl).
    now replace (S i + idx)%nat with (i + S idx)%nat by lia.
Qed.

(** The [nodes.forEach] of the focus branch on a list without duplicate
    ids: every listed node with an entry and a slot makes one seek step, all
    other entries stay. *)
Lemma seekFold_lookup npr slots l m :
  npr <> 0%Z -> NoDup (map n_id l) ->
  exists m', foldl (seekSlot npr slots) (Some m) l = Some m' /\
    forall id,
      m' !! id =
      if bool_decide (id ∈ map n_id l) then
        match m !! id, slots !! id with
        | Some pos, Some slot => Some (seekStep 0.1 pos slot)
        | _, _ => m !! id
        end
      else m !! id.
Proof.
  intros Hnpr. revert m. induction l as [|n l IH]; intros m Hnd.
  - exists m. split; [reflexivity|]. intros id. reflexivity.
  - simpl in Hnd. apply NoDup_cons in Hnd as [Hn Hnd].
    assert (Hs : exists m1, seekSlot npr slots (Some m) n = Some m1 /\
              m1 !! n_id n = match m !! n_id n, slots !! n_id n with
                             | Some pos, Some slot => Some (seekStep 0.1 pos slot)
                             | _, _ => m !! n_id n
                             end /\
              forall id, id <> n_id n -> m1 !! id = m !! id).
    { unfold seekSlot. cbn [mbind option_bind].
      destruct (m !! n_id n) as [pos|] eqn:E; [destruct (slots !! n_id n) as [slot|]|].
      - apply Z.eqb_neq in Hnpr. rewrite Hnpr. eexists. split; [reflexivity|]. split.
        + now rewrite lookup_insert_eq.
        + intros id Hid. now rewrite lookup_insert_ne.
      - exists m. now rewrite E.
      - exists m. now rewrite E. }
    destruct Hs as (m1 & Hs & Hn1 & Ho1).
    destruct (IH m1 Hnd) as (m' & Hf & Hl).
    exists m'. split; [cbn [foldl]; now rewrite Hs|].
    intros id. rewrite Hl. simpl map.
    destruct (decide (id = n_id n)) as [->|Hne].
    + rewrite (bool_decide_eq_false_2 _ Hn).
      rewrite bool_decide_eq_true_2 by (apply elem_of_cons; auto).
      exact Hn1.
    + rewrite (Ho1 id Hne).
      assert (Hiff : bool_decide (id ∈ map n_id l)
                     = bool_decide (id ∈ n_id n :: map n_id l)).
      { apply bool_decide_ext. rewrite elem_of_cons. tauto. }
      now rewrite Hiff.
Qed.

(** With [nodesPerRow = 0] the fold gives a store only if no listed node
    has both an entry and a slot. *)
Lemma seekFold_zero slots l m m' :
  foldl (seekSlot 0 slots) (Some m) l = Some m' ->
  forall n, n ∈ l -> m !! n_id n = None \/ slots !! n_id n = None.
Proof.
  revert m. induction l as [|n0 l IH]; intros m H n Hin; [now apply elem_of_nil in Hin|].
  cbn [foldl] in H.
  assert (Hs : seekSlot 0 slots (Some m) n0 = Some m /\
               (m !! n_id n0 = None \/ slots !! n_id n0 = None)).
  { unfold seekSlot in *. cbn [mbind option_bind] in *.
    destruct (m !! n_id n0); [destruct (slots !! n_id n0)|]; auto.
    simpl in H. clear -H. exfalso. induction l as [|x l IHl]; [discriminate|].
    now apply IHl. }
  destruct Hs as [Hs Hn0]. rewrite Hs in H.
  apply elem_of_cons in Hin as [->|Hin]; [exact Hn0|]. now apply (IH m).
Qed.

Lemma serpentineFrom_in d npr count i l m id :
  id ∈ map n_id l -> is_Some (serpentineFrom d npr count i l m !! id).
Proof.
  revert i m. induction l as [|n l IH]; intros i m Hin; [now apply elem_of_nil in Hin|].
  simpl. destruct (decide (id ∈ map n_id l)) as [Hl|Hl]; [now apply IH|].
  rewrite serpentineFrom_other by exact Hl.
  simpl in Hin. apply elem_of_cons in Hin as [->|Hin]; [|contradiction].
  rewrite lookup_insert_eq. eauto.
Qed.

(** X18. A frame in focus mode, in a viewport at least 150 wide and with
    distinct ids in the node list and in the path: the frame is defined and
    takes no random draw, whatever the layout mode; an entry whose id is not
    on the path stays as it is; and the [idx]-th node of the path moves 10%
    of the way to its serpentine slot, so its offset from the slot shrinks
    to 90%, whether it is being dragged or not. *)
Theorem focus_frame_seeks (p : Props) (pm : gmap string string) (fp : FocusPath)
    (rng : nat -> R) (i : nat) (s : State) (w : Node) :
  weakestPathNode p = Some w ->
  150 <= width (dimensions p) ->
  NoDup (nodeIds p) -> NoDup (map n_id (weakestPathNodes fp)) ->
  exists s', loop p pm fp rng i s = Some (s', i) /\
    (forall id, id ∉ map n_id (weakestPathNodes fp) ->
       nodePositions s' !! id = nodePositions s !! id) /\
    (forall idx n pos, weakestPathNodes fp !! idx = Some n ->
       n_id n ∈ nodeIds p -> nodePositions s !! n_id n = Some pos ->
       let slot := slotOf p fp idx in
       let pos' := seekStep 0.1 pos slot in
       nodePositions s' !! n_id n = Some pos' /\
       fst slot - p_x pos' = 0.9 * (fst slot - p_x pos) /\
       snd slot - p_y pos' = 0.9 * (snd slot - p_y pos)).
Proof.
  intros Hw Hwide Hnd Hndp.
  pose proof (nodesPerRow_wide p Hwide) as Hnpr. unfold nodesPerRow in Hnpr.
  unfold loop, seekSerpentine. rewrite Hw.
  destruct (animateTransform_keeps s) as [Hk _]. rewrite Hk.
  set (npr := Int_part (width (dimensions p) * 0.8 / 120)) in *.
  set (slots := serpentineFrom _ _ _ _ _ _).
  destruct (seekFold_lookup npr slots (nodes p) (nodePositions s)) as (m' & Hf & Hl);
    [lia | exact Hnd |].
  rewrite Hf. cbn [mbind option_bind]. eexists. split; [reflexivity|].
  cbn [nodePositions set_nodePositions]. split.
  - intros id Hid. rewrite Hl.
    assert (Hs : slots !! id = None).
    { unfold slots. rewrite serpentineFrom_other by exact Hid. apply lookup_empty. }
    rewrite Hs. destruct (bool_decide _); [|reflexivity].
    now destruct (nodePositions s !! id).
  - intros idx n pos Hidx Hin Hpos. cbv zeta.
    split; [|simpl; split; lra].
    rewrite Hl. rewrite bool_decide_eq_true_2 by exact Hin. rewrite Hpos.
    unfold slots. rewrite (serpentineFrom_lookup _ _ _ 0 _ _ idx n Hndp Hidx).
    reflexivity.
Qed.

Lemma focus_frame_seeks_witness :
  exists s', loop pathProps (buildParentMap pathProps) pathFocus halfDraws 0 pathState
             = Some (s', 0%nat) /\
    nodePositions s' !! "topic-t" = Some (mkPos 400 300 0 0) /\
    nodePositions s' !! "q2" = Some (seekStep 0.1 (mkPos 30 40 0 0) (slotOf pathProps pathFocus 0)).
Proof.
  assert (Hwide : 150 <= width (dimensions pathProps)) by (simpl; lra).
  assert (Hnd : NoDup (nodeIds pathProps)).
  { refine (bool_decide_unpack _ _). vm_compute. exact I. }
  assert (Hndp : NoDup (map n_id (weakestPathNodes pathFocus))).
  { refine (bool_decide_unpack _ _). vm_compute. exact I. }
  destruct (focus_frame_seeks pathProps (buildParentMap pathProps) pathFocus halfDraws 0
              pathState groupNode eq_refl Hwide Hnd Hndp) as (s' & Hl & Hout & Hon).
  exists s'. split; [exact Hl|]. split.
  - rewrite (Hout "topic-t"); [reflexivity|].
    refine (bool_decide_unpack _ _). vm_compute. exact I.
  - refine (proj1 (Hon 0%nat q20 (mkPos 30 40 0 0) eq_refl _ eq_refl)).
    refine (bool_decide_unpack _ _). vm_compute. exact I.
Defined.

(** X19. A frame in focus mode in a viewport narrower than 150: the row
    width [Math.floor(width * 0.8 / 120)] is 0, and as soon as one node of
    the list is on the path and has an entry, the frame leaves the finite
    numbers (the column [i % 0] of its slot is not a number). *)
Theorem narrow_viewport_breaks_focus (p : Props) (pm : gmap string string)
    (fp : FocusPath) (rng : nat -> R) (i : nat) (s : State) (w n : Node) :
  weakestPathNode p = Some w ->
  0 <= width (dimensions p) < 150 ->
  n ∈ nodes p -> n_id n ∈ map n_id (weakestPathNodes fp) ->
  is_Some (nodePositions s !! n_id n) ->
  nodesPerRow p = 0%Z /\ loop p pm fp rng i s = None.
Proof.
  intros Hw Hnarrow Hin Hpath Hpos.
  pose proof (nodesPerRow_narrow p Hnarrow) as Hnpr. split; [exact Hnpr|].
  unfold nodesPerRow in Hnpr.
  unfold loop, seekSerpentine. rewrite Hw.
  destruct (animateTransform_keeps s) as [Hk _]. rewrite Hk, Hnpr.
  destruct (foldl _ _ _) as [m'|] eqn:E; [|reflexivity]. exfalso.
  destruct (seekFold_zero _ _ _ _ E n Hin) as [Hn|Hn].
  - rewrite Hn in Hpos. now destruct Hpos.
  - pose proof (serpentineFrom_in (dimensions p) 0 (length (weakestPathNodes fp)) 0
                  (weakestPathNodes fp) ∅ (n_id n) Hpath) as Hs.
    rewrite Hn in Hs. now destruct Hs.
Qed.

Lemma narrow_viewport_breaks_focus_witness :
  nodesPerRow narrowProps = 0%Z /\
  loop narrowProps (buildParentMap narrowProps) pathFocus halfDraws 0 pathState = None.
Proof.
  apply (narrow_viewport_breaks_focus narrowProps (buildParentMap narrowProps) pathFocus
           halfDraws 0 pathState groupNode q20 eq_refl).
  - simpl. lra.
  - simpl. do 2 constructor. constructor.
  - refine (bool_decide_unpack _ _). vm_compute. exact I.
  - eexists. reflexivity.
Defined.

(** X20. The serpentine grid in a viewport at least 150 wide: a row holds
    at least one node; every slot lies horizontally within
    [0.4 * width - 60] of the centre, so inside the viewport; and two
    different indices get slots that are 120 or more apart horizontally
    (same row) or 100 or more apart vertically (different rows). *)
Theorem serpentine_slots (p : Props) (fp : FocusPath) (i j : nat) :
  150 <= width (dimensions p) ->
  (1 <= nodesPerRow p)%Z /\
  Rabs (fst (slotOf p fp i) - width (dimensions p) / 2)
    <= 0.4 * width (dimensions p) - 60 /\
  (i <> j ->
   120 <= Rabs (fst (slotOf p fp i) - fst (slotOf p fp j)) \/
   100 <= Rabs (snd (slotOf p fp i) - snd (slotOf p fp j))).
Proof.
  intros Hwide. pose proof (nodesPerRow_wide p Hwide) as Hnpr.
  split; [exact Hnpr|].
  assert (Hfloor : IZR (nodesPerRow p) <= width (dimensions p) * 0.8 / 120).
  { unfold nodesPerRow. apply base_Int_part. }
  unfold slotOf, serpentineSlot. cbn [fst snd].
  set (npr := nodesPerRow p) in *.
  assert (Hrem : forall k : nat, Z.rem (Z.of_nat k) npr = (Z.of_nat k mod npr)%Z).
  { intros k. apply Z.rem_mod_nonneg; lia. }
  rewrite !Hrem. split.
  - pose proof (Z.mod_pos_bound (Z.of_nat i) npr ltac:(lia)) as [Hc0 Hc1].
    apply IZR_le in Hc0. assert (Hc2 : (Z.of_nat i mod npr <= npr - 1)%Z) by lia.
    apply IZR_le in Hc2. rewrite minus_IZR in Hc2.
    apply Rabs_le. lra.
  - intros Hij.
    destruct (Z.eq_dec (Z.of_nat i / npr)%Z (Z.of_nat j / npr)%Z) as [Hrow|Hrow].
    + left.
      assert (Hcol : (Z.of_nat i mod npr <> Z.of_nat j mod npr)%Z).
      { intros Hc. apply Hij, Nat2Z.inj.
        rewrite (Z.div_mod (Z.of_nat i) npr), (Z.div_mod (Z.of_nat j) npr) by lia.
        now rewrite Hrow, Hc. }
      assert (Hd : (Z.of_nat i mod npr + 1 <= Z.of_nat j mod npr)%Z \/
                   (Z.of_nat j mod npr + 1 <= Z.of_nat i mod npr)%Z) by lia.
      destruct Hd as [Hd|Hd]; apply IZR_le in Hd; rewrite plus_IZR in Hd;
        unfold Rabs; destruct (Rcase_abs _); lra.
    + right.
      assert (Hd : (Z.of_nat i / npr + 1 <= Z.of_nat j / npr)%Z \/
                   (Z.of_nat j / npr + 1 <= Z.of_nat i / npr)%Z) by lia.
      destruct Hd as [Hd|Hd]; apply IZR_le in Hd; rewrite plus_IZR in Hd;
        unfold Rabs; destruct (Rcase_abs _); lra.
Qed.

Lemma serpentine_slots_witness :
  (1 <= nodesPerRow pathProps)%Z /\
  Rabs (fst (slotOf pathProps pathFocus 0) - width (dimensions pathProps) / 2)
    <= 0.4 * width (dimensions pathProps) - 60 /\
  (0%nat <> 1%nat ->
   120 <= Rabs (fst (slotOf pathProps pathFocus 0) - fst (slotOf pathProps pathFocus 1)) \/
   100 <= Rabs (snd (slotOf pathProps pathFocus 0) - snd (slotOf pathProps pathFocus 1))).
Proof.
  apply (serpentine_slots pathProps pathFocus 0 1). simpl. lra.
Defined.

(** ** Drawing *)

Lemma inside_scaled_ellipse (W H c s f g : R) :
  0 < W -> 0 < H -> 0 <= f -> 0 < g -> s * s + c * c = 1 ->
  (c * W * f) * (c * W * f) * (H * g * (H * g))
  + (s * H * f) * (s * H * f) * (W * g * (W * g))
  <= W * g * (W * g) * (H * g * (H * g))
  <-> f <= g.
Proof.
  intros HW HH Hf Hg Hcs.
  set (K := W * W * (H * H) * (g * g)).
  assert (HK : 0 < K) by (unfold K; repeat apply Rmult_lt_0_compat; assumption).
  replace ((c * W * f) * (c * W * f) * (H * g * (H * g))
           + (s * H * f) * (s * H * f) * (W * g * (W * g)))
    with (K * (f * f) * (s * s + c * c)) by (unfold K; ring).
  replace (W * g * (W * g) * (H * g * (H * g))) with (K * (g * g)) by (unfold K; ring).
  rewrite Hcs, Rmult_1_r. split.
  - intros Hle. apply Rmult_le_reg_l in Hle; [|exact HK].
    destruct (Rle_dec f g) as [|Hn]; [assumption|]. exfalso. nra.
  - intros Hle. apply Rmult_le_compat_l; [lra|]. nra.
Qed.

(** X21. The tier rings agree with the layout.  In orbit mode without a
    focus path and in a viewport of positive size, [draw] paints three
    ellipses; for a node of weight between 0 and 105 the orbit target lies
    in the outer one whatever the random draw, in the second one exactly
    when the weight is at least 40, and in the innermost one exactly when
    the weight is at least 80. *)
Theorem rings_match_tiers (p : Props) (pm : gmap string string) (n : Node) (r : R) :
  layoutMode p = orbit -> weakestPathNode p = None ->
  0 < width (dimensions p) -> 0 < height (dimensions p) ->
  0 <= mastery n <= 105 ->
  exists outer attention safe,
    drawRings p = [outer; attention; safe] /\
    insideEllipse outer (orbitTarget p pm n r) /\
    (insideEllipse attention (orbitTarget p pm n r) <-> 40 <= mastery n) /\
    (insideEllipse safe (orbitTarget p pm n r) <-> 80 <= mastery n).
Proof.
  intros Hm Hw Hwd Hht Hmas.
  unfold drawRings, drawOrbitRings. rewrite Hm, Hw. cbv zeta.
  eexists _, _, _. split; [reflexivity|].
  unfold insideEllipse, orbitTarget. cbn [fst snd e_cx e_cy e_rx e_ry].
  set (a := orbitAngle p pm n r).
  set (W := width (dimensions p) / 2 * 0.9). set (H := height (dimensions p) / 2 * 0.9).
  set (cx := width (dimensions p) / 2). set (cy := height (dimensions p) / 2).
  assert (HW : 0 < W) by (unfold W; lra). assert (HH : 0 < H) by (unfold H; lra).
  pose proof (sin2_cos2 a) as Hcs. unfold Rsqr in Hcs.
  assert (Hf : 0 <= radiusFactor n) by (unfold radiusFactor; lra).
  replace (cx + cos a * W * radiusFactor n - cx) with (cos a * W * radiusFactor n) by ring.
  replace (cy + sin a * H * radiusFactor n - cy) with (sin a * H * radiusFactor n) by ring.
  clearbody W H cx cy a.
  split; [|split].
  - pose proof (inside_scaled_ellipse W H (cos a) (sin a) (radiusFactor n) 1 HW HH Hf
                  Rlt_0_1 Hcs) as Hi.
    rewrite !Rmult_1_r in Hi. apply Hi. unfold radiusFactor. lra.
  - rewrite (inside_scaled_ellipse W H (cos a) (sin a) (radiusFactor n)
               (masteryToRadiusFactor 40) HW HH Hf) by
      (try exact Hcs; unfold masteryToRadiusFactor; lra).
    unfold radiusFactor, masteryToRadiusFactor. split; intros; lra.
  - rewrite (inside_scaled_ellipse W H (cos a) (sin a) (radiusFactor n)
               (masteryToRadiusFactor 80) HW HH Hf) by
      (try exact Hcs; unfold masteryToRadiusFactor; lra).
    unfold radiusFactor, masteryToRadiusFactor. split; intros; lra.
Qed.

Lemma rings_match_tiers_witness :
  exists outer attention safe,
    drawRings soloProps = [outer; attention; safe] /\
    insideEllipse outer (orbitTarget soloProps (buildParentMap soloProps) soloNode 0.5) /\
    (insideEllipse attention (orbitTarget soloProps (buildParentMap soloProps) soloNode 0.5)
     <-> 40 <= mastery soloNode) /\
    (insideEllipse safe (orbitTarget soloProps (buildParentMap soloProps) soloNode 0.5)
     <-> 80 <= mastery soloNode).
Proof.
  apply (rings_match_tiers soloProps (buildParentMap soloProps) soloNode 0.5
           eq_refl eq_refl); unfold mastery; simpl; lra.
Defined.

(** X22. The tooltip.  None is drawn while a node is dragged.  For a
    hovered node with an entry and no drag, the box is [textWidth + 16]
    wide and [16.8 * lineCount + 11.2] high; it stands 10 beyond the disc of
    the node, on the right when it ends inside the right edge of the
    visible rectangle and on the left otherwise; and when the visible
    rectangle is at least 5 higher than the box, the box lies between its
    top and its bottom. *)
Theorem tooltip_placement (p : Props) (s : State) (node : Node) (pos : NodePosition)
    (textWidth : R) (lineCount : nat) :
  nodePositions s !! n_id node = Some pos ->
  (draggedNode s <> None -> tooltipBox p s (Some node) textWidth lineCount = None) /\
  (draggedNode s = None ->
   exists b, tooltipBox p s (Some node) textWidth lineCount = Some b /\
     boxWidth b = textWidth + 16 /\
     boxHeight b = 16.8 * INR lineCount + 11.2 /\
     (boxX b = p_x pos + n_radius node + 10 /\ boxX b + boxWidth b <= viewRight p s \/
      boxX b + boxWidth b = p_x pos - n_radius node - 10 /\
      viewRight p s < p_x pos + n_radius node + 10 + boxWidth b) /\
     (boxHeight b + 5 <= height (dimensions p) / t_k (transform s) ->
      viewTop s <= boxY b /\ boxY b + boxHeight b <= viewBottom p s)).
Proof.
  intros Hpos. unfold tooltipBox. split.
  - intros Hd. now destruct (draggedNode s).
  - intros Hd. rewrite Hd, Hpos. cbn [mbind option_bind].
    eexists. split; [reflexivity|]. cbn [boxX boxY boxWidth boxHeight].
    unfold viewRight, viewBottom, viewLeft, viewTop.
    set (vx := - t_x (transform s) / t_k (transform s)).
    set (vy := - t_y (transform s) / t_k (transform s)).
    set (tw := width (dimensions p) / t_k (transform s)).
    set (th := height (dimensions p) / t_k (transform s)).
    clearbody vx vy tw th.
    split; [lra|]. split; [lra|]. split.
    + unfold ltb. destruct (Rlt_dec _ _); [right|left]; lra.
    + intros Hfit. unfold ltb.
      destruct (Rlt_dec _ vy); destruct (Rlt_dec _ _); lra.
Qed.

Lemma tooltip_placement_witness :
  exists b, tooltipBox restProps restState (Some restNode) 40 1 = Some b /\
    boxWidth b = 40 + 16 /\
    boxHeight b = 16.8 * INR 1 + 11.2 /\
    (boxX b = 400 + 10 + 10 /\ boxX b + boxWidth b <= viewRight restProps restState \/
     boxX b + boxWidth b = 400 - 10 - 10 /\
     viewRight restProps restState < 400 + 10 + 10 + boxWidth b) /\
    (boxHeight b + 5 <= 600 / 1 ->
     viewTop restState <= boxY b /\ boxY b + boxHeight b <= viewBottom restProps restState).
Proof.
  exact (proj2 (tooltip_placement restProps restState restNode (mkPos 400 300 0 0) 40 1
                  eq_refl) eq_refl).
Defined.

(** ** The map view *)

Lemma inZone_exclusive q :
  (inZone critical q = true /\ inZone attention q = false /\ inZone safe q = false) \/
  (inZone critical q = false /\ inZone attention q = true /\ inZone safe q = false) \/
  (inZone critical q = false /\ inZone attention q = false /\ inZone safe q = true).
Proof.
  unfold inZone, ltb, geb.
  destruct (Rlt_dec (q_masteryScore q) 40), (Rlt_dec (q_masteryScore q) 80),
    (Rle_dec 40 (q_masteryScore q)), (Rle_dec 80 (q_masteryScore q));
    simpl; try lra; auto.
Qed.

Lemma summary_fold zone questions zones :
  zoneCount zone
    (foldl (fun zones q =>
              if ltb (q_masteryScore q) 40
              then mkZones (S (z_critical zones)) (z_attention zones) (z_safe zones)
              else if ltb (q_masteryScore q) 80
              then mkZones (z_critical zones) (S (z_attention zones)) (z_safe zones)
              else mkZones (z_critical zones) (z_attention zones) (S (z_safe zones)))
           zones questions)
  = (zoneCount zone zones + length (filter (fun q => inZone zone q) questions))%nat.
Proof.
  revert zones. induction questions as [|q qs IH]; intros zones; [simpl; lia|].
  cbn [foldl]. rewrite IH. clear IH.
  match goal with
  | |- (zoneCount zone ?z + _ = _)%nat =>
      assert (Hstep : zoneCount zone z
                      = (zoneCount zone zones + if inZone zone q then 1 else 0)%nat)
  end.
  { unfold inZone, ltb, geb.
    destruct zone; destruct (Rlt_dec (q_masteryScore q) 40),
      (Rlt_dec (q_masteryScore q) 80), (Rle_dec 40 (q_masteryScore q)),
      (Rle_dec 80 (q_masteryScore q)); simpl; try lra; lia. }
  rewrite Hstep. destruct (inZone zone q) eqn:E.
  - rewrite filter_cons_True by (now rewrite E). simpl. lia.
  - rewrite filter_cons_False by (now rewrite E). lia.
Qed.

(** X23. The zone summary and the zone sessions agree.  The count shown for
    a zone is the number of questions that a click on the zone puts in the
    study session; the three counts add up to the number of questions; and
    a zone button is enabled exactly when the click opens a session, which
    then holds the questions of the zone in their input order. *)
Theorem zones_partition (questions : list Question) (zone : MasteryZone) :
  zoneCount zone (summary questions)
  = length (filter (fun q => inZone zone q) questions) /\
  (z_critical (summary questions) + z_attention (summary questions)
   + z_safe (summary questions) = length questions)%nat /\
  (zoneButtonEnabled zone questions = true <->
   handleZoneClick zone questions
   = Some (filter (fun q => inZone zone q) questions, titleMap zone)) /\
  (zoneButtonEnabled zone questions = false <-> handleZoneClick zone questions = None).
Proof.
  assert (Hc : forall z, zoneCount z (summary questions)
                         = length (filter (fun q => inZone z q) questions)).
  { intros z. unfold summary. now rewrite summary_fold; destruct z. }
  split; [apply Hc|]. split.
  - change (zoneCount critical (summary questions) + zoneCount attention (summary questions)
            + zoneCount safe (summary questions) = length questions)%nat.
    rewrite !Hc. clear Hc. induction questions as [|q qs IH]; [reflexivity|].
    destruct (inZone_exclusive q) as [(H1 & H2 & H3)|[(H1 & H2 & H3)|(H1 & H2 & H3)]].
    + rewrite (filter_cons_True (fun q => inZone critical q)) by (now rewrite H1).
      rewrite (filter_cons_False (fun q => inZone attention q)) by (now rewrite H2).
      rewrite (filter_cons_False (fun q => inZone safe q)) by (now rewrite H3).
      cbn [length]. lia.
    + rewrite (filter_cons_False (fun q => inZone critical q)) by (now rewrite H1).
      rewrite (filter_cons_True (fun q => inZone attention q)) by (now rewrite H2).
      rewrite (filter_cons_False (fun q => inZone safe q)) by (now rewrite H3).
      cbn [length]. lia.
    + rewrite (filter_cons_False (fun q => inZone critical q)) by (now rewrite H1).
      rewrite (filter_cons_False (fun q => inZone attention q)) by (now rewrite H2).
      rewrite (filter_cons_True (fun q => inZone safe q)) by (now rewrite H3).
      cbn [length]. lia.
  - unfold zoneButtonEnabled, handleZoneClick. rewrite Hc.
    destruct (length (filter (fun q => inZone zone q) questions)); simpl; split; split;
      intros; try discriminate; try reflexivity; congruence.
Qed.

Lemma filterChildrenMap_fold allLinks (m : gmap string (list string)) a c :
  c ∈ default []
        (foldl (fun m l => <[l_source l := default [] (m !! l_source l) ++ [l_target l]]> m)
               m allLinks !! a)
  <-> c ∈ default [] (m !! a) \/ linked allLinks a c.
Proof.
  revert m. induction allLinks as [|l ls IH]; intros m.
  - simpl. split; [auto|]. intros [H|(l & Hl & _)]; [exact H|].
    now apply elem_of_nil in Hl.
  - cbn [foldl]. rewrite IH. clear IH.
    assert (Hl : linked (l :: ls) a c
                 <-> (l_source l = a /\ l_target l = c) \/ linked ls a c).
    { unfold linked. split.
      - intros (l0 & Hin & Hs & Ht). apply elem_of_cons in Hin as [->|Hin]; eauto.
      - intros [[Hs Ht]|(l0 & Hin & Hs & Ht)].
        + exists l. split; [apply elem_of_cons; auto|auto].
        + exists l0. split; [apply elem_of_cons; auto|auto]. }
    rewrite Hl. clear Hl.
    destruct (decide (l_source l = a)) as [<-|Hne].
    + rewrite lookup_insert_eq. cbn [from_option]. unfold Datatypes.id at 1. rewrite elem_of_app, list_elem_of_singleton.
      intuition congruence.
    + rewrite lookup_insert_ne by exact Hne. intuition congruence.
Qed.

Lemma filterChildrenMap_linked allLinks a c :
  c ∈ default [] (filterChildrenMap allLinks !! a) <-> linked allLinks a c.
Proof.
  unfold filterChildrenMap. rewrite filterChildrenMap_fold, lookup_empty. simpl.
  split; [intros [H|H]; [now apply elem_of_nil in H|exact H]|auto].
Qed.

Lemma size_unvisited (T vis : gset string) c :
  c ∈ T -> c ∉ vis -> size (T ∖ vis) = S (size (T ∖ ({[c]} ∪ vis))).
Proof.
  intros HT Hv.
  assert (HE : T ∖ vis = {[c]} ∪ T ∖ ({[c]} ∪ vis)).
  { apply set_eq. intros x. rewrite elem_of_union, !elem_of_difference, elem_of_union,
      elem_of_singleton.
    destruct (decide (x = c)) as [->|]; intuition. }
  rewrite HE at 1. rewrite size_union, size_singleton; [reflexivity|].
  intros x Hx1 Hx2. apply elem_of_singleton in Hx1 as ->.
  apply elem_of_difference in Hx2 as [_ Hx2]. apply Hx2, elem_of_union. left.
  now apply elem_of_singleton.
Qed.

(** The loop over the children of one node: the unseen children, and only
    they, become visible and join the queue. *)
Lemma visitChildren_spec (T : gset string) cs vis q :
  (forall c, c ∈ cs -> c ∈ T) ->
  (forall x, x ∈ (foldl visitChild (vis, q) cs).1 <-> x ∈ vis \/ x ∈ cs) /\
  (forall x, x ∈ (foldl visitChild (vis, q) cs).2 -> x ∈ q \/ x ∈ cs) /\
  (forall x, x ∈ cs -> x ∉ vis -> x ∈ (foldl visitChild (vis, q) cs).2) /\
  (forall x, x ∈ q -> x ∈ (foldl visitChild (vis, q) cs).2) /\
  (length (foldl visitChild (vis, q) cs).2 + size (T ∖ (foldl visitChild (vis, q) cs).1)
   = length q + size (T ∖ vis))%nat.
Proof.
  revert vis q. induction cs as [|c cs IH]; intros vis q HT.
  - simpl. repeat split; auto.
    + intros [H|H]; [exact H|now apply elem_of_nil in H].
    + intros x H. now apply elem_of_nil in H.
  - assert (HT' : forall c0, c0 ∈ cs -> c0 ∈ T).
    { intros c0 H. apply HT, elem_of_cons. auto. }
    cbn [foldl]. unfold visitChild at 2 4 6 8 10 12. cbn [fst snd].
    destruct (bool_decide (c ∈ vis)) eqn:E.
    + apply bool_decide_eq_true in E.
      destruct (IH vis q HT') as (H1 & H2 & H3 & H4 & H5).
      split; [|split; [|split; [|split]]].
      * intros x. rewrite H1, elem_of_cons. intuition congruence.
      * intros x Hx. rewrite elem_of_cons. destruct (H2 x Hx); auto.
      * intros x Hx Hv. apply elem_of_cons in Hx as [->|Hx]; [contradiction|].
        now apply H3.
      * exact H4.
      * exact H5.
    + apply bool_decide_eq_false in E.
      destruct (IH ({[c]} ∪ vis) (q ++ [c]) HT') as (H1 & H2 & H3 & H4 & H5).
      split; [|split; [|split; [|split]]].
      * intros x. rewrite H1, elem_of_cons, elem_of_union, elem_of_singleton. tauto.
      * intros x Hx. rewrite elem_of_cons.
        destruct (H2 x Hx) as [Hq|Hc]; [|auto].
        apply elem_of_app in Hq as [Hq|Hq]; [auto|].
        apply list_elem_of_singleton in Hq. auto.
      * intros x Hx Hv. destruct (decide (x = c)) as [->|Hne].
        -- apply H4, elem_of_app. right. now apply list_elem_of_singleton.
        -- apply elem_of_cons in Hx as [->|Hx]; [contradiction|].
           apply H3; [exact Hx|]. rewrite elem_of_union, elem_of_singleton. tauto.
      * intros x Hx. apply H4, elem_of_app. auto.
      * rewrite H5, length_app. cbn [length].
        rewrite (size_unvisited T vis c); [lia| |exact E].
        apply HT, elem_of_cons. auto.
Qed.

Lemma size_targets (allLinks : list Link) :
  (size (list_to_set (map l_target allLinks) : gset string) <= length allLinks)%nat.
Proof.
  induction allLinks as [|l ls IH]; [cbn [map list_to_set length]; now rewrite size_empty|].
  cbn [map list_to_set length]. rewrite size_union_alt, size_singleton.
  pose proof (subseteq_size (list_to_set (map l_target ls) ∖ {[l_target l]})
                (list_to_set (map l_target ls) : gset string)) as Hs.
  assert (Hsub : list_to_set (map l_target ls) ∖ {[l_target l]}
                 ⊆ (list_to_set (map l_target ls) : gset string)).
  { intros x Hx. now apply elem_of_difference in Hx as [Hx _]. }
  specialize (Hs Hsub). lia.
Qed.

Lemma linked_target allLinks a c :
  linked allLinks a c -> c ∈ (list_to_set (map l_target allLinks) : gset string).
Proof.
  intros (l & Hin & _ & <-). apply elem_of_list_to_set, list_elem_of_fmap.
  exists l. auto.
Qed.

Lemma filter_iff_in {A : Type} (P1 P2 : A -> Prop) `{!forall x, Decision (P1 x)}
    `{!forall x, Decision (P2 x)} (l : list A) :
  (forall x, x ∈ l -> P1 x <-> P2 x) -> filter P1 l = filter P2 l.
Proof.
  induction l as [|a l IH]; intros Hiff; [reflexivity|].
  assert (Ha : P1 a <-> P2 a) by (apply Hiff, elem_of_cons; auto).
  assert (Hl : filter P1 l = filter P2 l).
  { apply IH. intros x Hx. apply Hiff, elem_of_cons. auto. }
  destruct (decide (P1 a)) as [H1|H1].
  - rewrite !filter_cons_True by tauto. now rewrite Hl.
  - rewrite !filter_cons_False by tauto. exact Hl.
Qed.

Lemma closed_reach allLinks (vis : gset string) :
  (forall v c, v ∈ vis -> linked allLinks v c -> c ∈ vis) ->
  forall v id, rtc (linked allLinks) v id -> v ∈ vis -> id ∈ vis.
Proof.
  intros Hclosed v id Hr. induction Hr as [|x y z Hxy Hyz IHr]; [auto|].
  intros Hx. apply IHr. now apply (Hclosed x y).
Qed.

(** The loop of the filter, from a queue and a visible set that hold only
    ids reachable from [root], the visible ids outside the queue having all
    their children visible: it ends within
    [length queue + size (targets \ visible)] iterations, with exactly the
    ids reachable from [root]. *)
Lemma visibleFrom_spec allLinks root fuel queue vis :
  (length queue + size (list_to_set (map l_target allLinks) ∖ vis) <= fuel)%nat ->
  root ∈ vis ->
  (forall v, v ∈ vis -> rtc (linked allLinks) root v) ->
  (forall v, v ∈ queue -> v ∈ vis) ->
  (forall v c, v ∈ vis -> v ∉ queue -> linked allLinks v c -> c ∈ vis) ->
  exists visible,
    visibleFrom fuel (filterChildrenMap allLinks) queue vis = Some visible /\
    forall id, id ∈ visible <-> rtc (linked allLinks) root id.
Proof.
  revert queue vis. induction fuel as [|fuel IH]; intros queue vis Hfuel Hroot Hsound Hq Hclosed.
  - destruct queue as [|cur rest]; [|simpl in Hfuel; lia].
    exists vis. split; [reflexivity|]. intros id. split; [apply Hsound|].
    intros Hr. apply (closed_reach allLinks vis) with (v := root); auto.
    intros v c Hv. apply Hclosed; [exact Hv|]. intros H. now apply elem_of_nil in H.
  - destruct queue as [|cur rest].
    + exists vis. split; [reflexivity|]. intros id. split; [apply Hsound|].
      intros Hr. apply (closed_reach allLinks vis) with (v := root); auto.
      intros v c Hv. apply Hclosed; [exact Hv|]. intros H. now apply elem_of_nil in H.
    + cbn [visibleFrom]. cbv zeta.
      set (cs := default [] (filterChildrenMap allLinks !! cur)).
      assert (Hcs : forall c, c ∈ cs <-> linked allLinks cur c).
      { intros c. apply filterChildrenMap_linked. }
      destruct (visitChildren_spec (list_to_set (map l_target allLinks)) cs vis rest)
        as (H1 & H2 & H3 & H4 & H5).
      { intros c Hc. apply (linked_target allLinks cur), Hcs, Hc. }
      assert (Hcur : cur ∈ vis) by (apply Hq, elem_of_cons; auto).
      apply IH.
      * rewrite H5. cbn [length] in Hfuel. lia.
      * apply H1. auto.
      * intros v Hv. apply H1 in Hv as [Hv|Hv]; [now apply Hsound|].
        eapply rtc_r; [apply Hsound, Hcur|]. now apply Hcs.
      * intros v Hv. apply H1. destruct (H2 v Hv) as [Hr|Hc]; [|auto].
        left. apply Hq, elem_of_cons. auto.
      * intros v c Hv Hnq Hl. apply H1.
        destruct (decide (v ∈ vis)) as [Hvis|Hvis].
        -- destruct (decide (v = cur)) as [->|Hne]; [right; now apply Hcs|].
           left. apply (Hclosed v c Hvis); [|exact Hl].
           intros Hin. apply elem_of_cons in Hin as [->|Hin]; [congruence|].
           apply Hnq, H4, Hin.
        -- apply H1 in Hv as [Hv|Hv]; [contradiction|].
           exfalso. apply Hnq. now apply H3.
Qed.

(** X24. The subtree filter of the map view, on any link list (cycles and
    repeated links included): the loop ends within [length allLinks + 1]
    iterations; the visible ids are exactly the ids reachable from the
    filter node along links; the nodes kept are the nodes with a visible
    id, in their order; and a link is kept exactly when its source is
    visible, so no kept link leaves the visible set.  Without a filter node
    everything is kept. *)
Theorem filter_shows_subtree (allNodes : list Node) (allLinks : list Link) (f : Node) :
  filteredGraph (S (length allLinks)) allNodes allLinks None = Some (allNodes, allLinks) /\
  exists visible,
    visibleFrom (S (length allLinks)) (filterChildrenMap allLinks) [n_id f] {[n_id f]}
    = Some visible /\
    (forall id, id ∈ visible <-> rtc (linked allLinks) (n_id f) id) /\
    filteredGraph (S (length allLinks)) allNodes allLinks (Some f)
    = Some (filter (fun n => n_id n ∈ visible) allNodes,
            filter (fun l => l_source l ∈ visible) allLinks) /\
    forall l, l ∈ allLinks -> l_source l ∈ visible -> l_target l ∈ visible.
Proof.
  split; [reflexivity|].
  destruct (visibleFrom_spec allLinks (n_id f) (S (length allLinks)) [n_id f] {[n_id f]})
    as (visible & Hv & Hspec).
  - cbn [length].
    pose proof (size_targets allLinks) as Hs.
    pose proof (subseteq_size (list_to_set (map l_target allLinks) ∖ {[n_id f]})
                  (list_to_set (map l_target allLinks) : gset string)) as Hd.
    assert (Hsub : list_to_set (map l_target allLinks) ∖ {[n_id f]}
                   ⊆ (list_to_set (map l_target allLinks) : gset string)).
    { intros x Hx. now apply elem_of_difference in Hx as [Hx _]. }
    specialize (Hd Hsub). lia.
  - now apply elem_of_singleton.
  - intros v Hv. apply elem_of_singleton in Hv as ->. apply rtc_refl.
  - intros v Hv. apply list_elem_of_singleton in Hv as ->. now apply elem_of_singleton.
  - intros v c Hv Hnq. apply elem_of_singleton in Hv as ->.
    exfalso. apply Hnq. now apply list_elem_of_singleton.
  - assert (Hstep : forall l, l ∈ allLinks -> l_source l ∈ visible -> l_target l ∈ visible).
    { intros l Hin Hs. apply Hspec. eapply rtc_r; [apply Hspec, Hs|].
      exists l. auto. }
    exists visible. split; [exact Hv|]. split; [exact Hspec|]. split; [|exact Hstep].
    unfold filteredGraph. rewrite Hv. cbn [mbind option_bind]. do 2 f_equal.
    apply filter_iff_in. intros l Hin. split; [tauto|]. intros Hs. split; auto.
Qed.

(** ** Drawing: highlighting *)

Lemma emptyNeighbors_lookup l (m : gmap string (gset string)) a :
  foldl (fun m n => <[n_id n := ∅]> m) m l !! a
  = if decide (a ∈ map n_id l) then Some ∅ else m !! a.
Proof.
  revert m. induction l as [|n l IH]; intros m; simpl; [reflexivity|].
  rewrite IH. destruct (decide (a ∈ map n_id l)) as [Hin | Hnin].
  - rewrite decide_True; [reflexivity|now right].
  - destruct (decide (a = n_id n)) as [-> | Hne].
    + rewrite lookup_insert_eq. rewrite decide_True; [reflexivity|now left].
    + rewrite lookup_insert_ne by congruence.
      rewrite decide_False; [reflexivity|].
      intros [?|?]%elem_of_cons; congruence.
Qed.

Lemma addNeighbor_step l (m : gmap string (gset string)) a :
  match alter (fun s => {[l_source l]} ∪ s) (l_target l)
              (alter (fun s => {[l_target l]} ∪ s) (l_source l) m) !! a, m !! a with
  | Some s, Some s0 =>
      forall c, c ∈ s <-> c ∈ s0 \/ (l_source l = a /\ l_target l = c)
                          \/ (l_source l = c /\ l_target l = a)
  | None, None => True
  | _, _ => False
  end.
Proof.
  destruct (decide (l_target l = a)) as [Ht|Ht];
    destruct (decide (l_source l = a)) as [Hs|Hs].
  - rewrite Ht, Hs, !lookup_alter_eq. destruct (m !! a); [|exact I].
    intros c. cbn. rewrite !elem_of_union, !elem_of_singleton. intuition congruence.
  - rewrite Ht, lookup_alter_eq, lookup_alter_ne by exact Hs.
    destruct (m !! a); [|exact I].
    intros c. cbn. rewrite !elem_of_union, !elem_of_singleton. intuition congruence.
  - rewrite lookup_alter_ne by exact Ht. rewrite Hs, lookup_alter_eq.
    destruct (m !! a); [|exact I].
    intros c. cbn. rewrite !elem_of_union, !elem_of_singleton. intuition congruence.
  - rewrite !lookup_alter_ne by assumption. destruct (m !! a); [|exact I].
    intros c. intuition congruence.
Qed.

Lemma addNeighbors_lookup ls (m : gmap string (gset string)) a :
  match foldl (fun m l =>
                 alter (fun s => {[l_source l]} ∪ s) (l_target l)
                       (alter (fun s => {[l_target l]} ∪ s) (l_source l) m))
              m ls !! a, m !! a with
  | Some s, Some s0 =>
      forall c, c ∈ s <-> c ∈ s0 \/ linked ls a c \/ linked ls c a
  | None, None => True
  | _, _ => False
  end.
Proof.
  revert m. induction ls as [|l ls IH]; intros m.
  - simpl. destruct (m !! a); [|exact I]. intros c. split; [auto|].
    intros [H|[(l & Hl & _)|(l & Hl & _)]]; [exact H| |]; now apply elem_of_nil in Hl.
  - cbn [foldl]. specialize (IH (alter (fun s => {[l_source l]} ∪ s) (l_target l)
                                   (alter (fun s => {[l_target l]} ∪ s) (l_source l) m))).
    pose proof (addNeighbor_step l m a) as Hstep.
    destruct (foldl _ _ ls !! a) as [s|];
      destruct (alter _ _ _ !! a) as [s1|]; destruct (m !! a) as [s0|];
      try contradiction; try exact I.
    assert (Hl : forall x y, linked (l :: ls) x y
                   <-> (l_source l = x /\ l_target l = y) \/ linked ls x y).
    { intros x y. unfold linked. split.
      - intros (l0 & Hin & Hs & Ht). apply elem_of_cons in Hin as [->|Hin]; eauto.
      - intros [[Hs Ht]|(l0 & Hin & Hs & Ht)].
        + exists l. split; [apply elem_of_cons; auto|auto].
        + exists l0. split; [apply elem_of_cons; auto|auto]. }
    intros c. rewrite !Hl, (IH c), (Hstep c). tauto.
Qed.

Lemma highlightedNodes_spec (p : Props) (h : Node) id :
  n_id h ∈ nodeIds p ->
  id ∈ highlightedNodes p (Some h) <->
  id = n_id h \/ linked (links p) (n_id h) id \/ linked (links p) id (n_id h).
Proof.
  intros Hh. unfold highlightedNodes, buildNeighbors, nodeIds in *.
  destruct (nodes p) as [|n0 ns] eqn:En; [now apply elem_of_nil in Hh|].
  pose proof (addNeighbors_lookup (links p)
                (foldl (fun m n => <[n_id n := ∅]> m) ∅ (n0 :: ns)) (n_id h)) as Hl.
  rewrite (emptyNeighbors_lookup (n0 :: ns) ∅ (n_id h)) in Hl.
  rewrite decide_True in Hl by exact Hh.
  rewrite elem_of_union, elem_of_singleton.
  destruct (foldl _ _ (links p) !! n_id h) as [s|]; [|contradiction].
  cbn [from_option]. unfold Datatypes.id. rewrite (Hl id).
  rewrite elem_of_empty. tauto.
Qed.

(** X25. Highlighting while a node of the list is hovered.  The
    highlighted ids are the hovered node and every id linked with it in
    either direction.  A link that touches the hovered node is stroked at
    0.3; a link with an end that is neither the hovered node nor linked with
    it is stroked at 0.05, whatever its other end.  Outside focus mode a
    node is drawn at full opacity exactly when it is highlighted, and at
    0.05 otherwise; in focus mode a node off the path is drawn at 0.05
    whatever is hovered. *)
Theorem hover_highlight (p : Props) (fp : FocusPath) (h : Node) :
  n_id h ∈ nodeIds p ->
  (forall id, id ∈ highlightedNodes p (Some h) <->
     id = n_id h \/ linked (links p) (n_id h) id \/ linked (links p) id (n_id h)) /\
  (forall l, l ∈ links p -> l_source l = n_id h \/ l_target l = n_id h ->
     linkStrokeAlpha p (Some h) l = 0.3) /\
  (forall l end_, end_ = l_source l \/ end_ = l_target l ->
     end_ <> n_id h -> ~ linked (links p) (n_id h) end_ ->
     ~ linked (links p) end_ (n_id h) ->
     linkStrokeAlpha p (Some h) l = 0.05) /\
  (forall n, weakestPathNode p = None ->
     (nodeAlpha p fp (Some h) n = 1 <->
      n_id n = n_id h \/ linked (links p) (n_id h) (n_id n)
      \/ linked (links p) (n_id n) (n_id h)) /\
     (nodeAlpha p fp (Some h) n = 1 \/ nodeAlpha p fp (Some h) n = 0.05)) /\
  (forall n hovered, weakestPathNode p <> None -> n_id n ∉ pathNodeIds fp ->
     nodeAlpha p fp hovered n = 0.05).
Proof.
  intros Hh.
  pose proof (fun id => highlightedNodes_spec p h id Hh) as Hspec.
  split; [exact Hspec|]. split; [|split; [|split]].
  - intros l Hin Hends. unfold linkStrokeAlpha. cbv zeta.
    assert (Hs : l_source l ∈ highlightedNodes p (Some h)).
    { apply Hspec. destruct Hends as [He|He]; [auto|]. right. right. exists l. auto. }
    assert (Ht : l_target l ∈ highlightedNodes p (Some h)).
    { apply Hspec. destruct Hends as [He|He]; [|auto]. right. left. exists l. auto. }
    rewrite (bool_decide_eq_true_2 _ Hs), (bool_decide_eq_true_2 _ Ht).
    now rewrite andb_false_r.
  - intros l e He Hne Hn1 Hn2. unfold linkStrokeAlpha. cbv zeta.
    assert (Hout : e ∉ highlightedNodes p (Some h)) by (rewrite Hspec; tauto).
    rewrite bool_decide_eq_true_2 by eauto.
    destruct He as [->| ->]; rewrite (bool_decide_eq_false_2 _ Hout);
      [reflexivity|]. now rewrite andb_false_r.
  - intros n Hw. unfold nodeAlpha. cbv zeta. rewrite Hw.
    rewrite (bool_decide_eq_false_2 (is_Some None)) by (intros [? ?]; discriminate).
    rewrite bool_decide_eq_true_2 by eauto. cbn [andb orb]. rewrite orb_false_r.
    rewrite <- Hspec.
    destruct (bool_decide (n_id n ∈ highlightedNodes p (Some h))) eqn:E; cbn [negb].
    + apply bool_decide_eq_true in E. split; [tauto|auto].
    + apply bool_decide_eq_false in E. split; [|auto]. split; [lra|tauto].
  - intros n hovered Hw Hout. unfold nodeAlpha. cbv zeta.
    rewrite (bool_decide_eq_false_2 _ Hout).
    rewrite (bool_decide_eq_true_2 (is_Some (weakestPathNode p))).
    + cbn [negb andb]. now rewrite orb_true_r.
    + destruct (weakestPathNode p); [eauto|contradiction].
Qed.

Lemma hover_highlight_witness :
  linkStrokeAlpha pathProps (Some groupNode) (mkLink "topic-t" "q1") = 0.3.
Proof.
  assert (Hh : n_id groupNode ∈ nodeIds pathProps).
  { refine (bool_decide_unpack _ _). vm_compute. exact I. }
  refine (proj1 (proj2 (hover_highlight pathProps pathFocus groupNode Hh))
            (mkLink "topic-t" "q1") _ _).
  - simpl. constructor.
  - left. reflexivity.
Defined.

(** X26. The glow of a node always reaches beyond its disc: its radius
    exceeds the radius of the node by 0.6 to 1.4 for a question and by 1.2
    to 2.8 for any other node, at every time and place. *)
Theorem glow_beyond_disc (time : R) (pos : NodePosition) (n : Node) :
  (if isQuestion n then 0.6 else 1.2) <= glowRadius time pos n - n_radius n
  <= (if isQuestion n then 1.4 else 2.8).
Proof.
  unfold glowRadius. cbv zeta.
  pose proof (SIN_bound (time * 0.001 + p_x pos)) as Hs.
  destruct (isQuestion n); lra.
Qed.

(** ** The spaced-repetition service *)

Lemma arrayAtOr_base lvl : 5 <= arrayAtOr [0; 5; 10; 15] lvl 10 <= 15.
Proof.
  unfold arrayAtOr, arrayAt. destruct (lvl <? 0)%Z; [lra|].
  destruct (Z.to_nat lvl) as [|[|[|[|k]]]]; simpl; unfold jsOr, truthy;
    try destruct (Req_dec_T _ _); lra.
Qed.

Lemma log1p_nonneg d : 0 <= ln (1 + (if ltb 0 d then d else 0)).
Proof.
  unfold ltb. destruct (Rlt_dec 0 d) as [Hd|Hd].
  - rewrite <- ln_1. left. apply ln_increasing; lra.
  - rewrite Rplus_0_r, ln_1. lra.
Qed.

(** X27. The weight after an answer.  The new weight always lies between 0
    and 100.  A wrong answer takes 25 off (not below 0), resets streak and
    stage to 0 and schedules the review after [srsIntervals[0]] days, 1 when
    there is none.  A right answer in a non-negative time, on a streak that
    is not negative, adds between 1 and 35 (not beyond 100), so the weight
    never drops; the streak grows by one; and with a non-empty interval list
    the review is scheduled at least half a day ahead, at most 7 days ahead
    for a hot topic. *)
Theorem srs_update_bounds (question : Question) (isCorrect : bool) (selfEvalLevel : Z)
    (timeTakenSec : R) (srsIntervals : list R) (daysSinceLastReview : R) :
  0 <= q_masteryScore question <= 100 ->
  0 <= q_correctStreak question -> 0 <= timeTakenSec ->
  let u := calculateNewSrsState question isCorrect selfEvalLevel timeTakenSec
             srsIntervals daysSinceLastReview in
  0 <= u_masteryScore u <= 100 /\
  (isCorrect = false ->
   u_masteryScore u = Rmax 0 (q_masteryScore question - 25) /\
   u_correctStreak u = 0 /\ u_srsStage u = 0%Z /\
   u_nextReviewInDays u = Some (default 1 (srsIntervals !! 0%nat))) /\
  (isCorrect = true ->
   Rmin 100 (q_masteryScore question + 1) <= u_masteryScore u /\
   u_masteryScore u <= Rmin 100 (q_masteryScore question + 35) /\
   u_correctStreak u = q_correctStreak question + 1 /\
   (srsIntervals <> [] ->
    exists days, u_nextReviewInDays u = Some days /\ 0.5 <= days /\
      (q_hotTopic question = true -> days <= 7))).
Proof.
  intros Hm Hs Ht. cbv zeta.
  unfold calculateNewSrsState.
  cbn [u_masteryScore u_correctStreak u_srsStage u_nextReviewInDays].
  rewrite !jsOr_0.
  split; [|split].
  - unfold Rmax, Rmin. repeat destruct (Rle_dec _ _); lra.
  - intros ->. split; [|split; [reflexivity|split; [reflexivity|]]].
    + unfold Rmax, Rmin. repeat destruct (Rle_dec _ _); lra.
    + reflexivity.
  - intros ->.
    pose proof (arrayAtOr_base selfEvalLevel) as Hb.
    pose proof (log1p_nonneg daysSinceLastReview) as Hl.
    set (b := arrayAtOr [0; 5; 10; 15] selfEvalLevel 10) in *.
    set (lg := ln _) in *.
    assert (Htf : -1 <= Rmax (-1) ((90 - timeTakenSec) / 90) <= 1).
    { unfold Rmax. destruct (Rle_dec _ _); lra. }
    set (tf := Rmax (-1) _) in *.
    assert (Him : 0 <= Rmin (lg * 2) 10 <= 10).
    { unfold Rmin. destruct (Rle_dec _ _); lra. }
    set (im := Rmin (lg * 2) 10) in *.
    assert (Hsm : 1 <= Rmin (q_correctStreak question + 1) 5 <= 5).
    { unfold Rmin. destruct (Rle_dec _ _); lra. }
    set (sm := Rmin (q_correctStreak question + 1) 5) in *.
    clearbody b lg tf im sm.
    split; [|split; [|split; [reflexivity|]]].
    + unfold Rmax, Rmin. repeat destruct (Rle_dec _ _); lra.
    + unfold Rmax, Rmin. repeat destruct (Rle_dec _ _); lra.
    + intros Hne.
      set (last := (Z.of_nat (length srsIntervals) - 1)%Z).
      assert (Hlast : is_Some (arrayAt srsIntervals last)).
      { unfold arrayAt, last. destruct srsIntervals as [|x l]; [contradiction|].
        cbn [length]. rewrite (proj2 (Z.ltb_ge _ _)) by lia.
        apply lookup_lt_is_Some. cbn [length]. lia. }
      destruct Hlast as [v Hv]. rewrite Hv.
      destruct (nullish _ (Some v)) as [base|] eqn:E.
      2: { unfold nullish in E. revert E.
           destruct (arrayAt srsIntervals (Z.min _ _)); discriminate. }
      cbn [mbind option_bind]. eexists. split; [reflexivity|].
      split; [apply Rmax_l|].
      intros ->. unfold Rmax, Rmin. repeat destruct (Rle_dec _ _); lra.
Qed.

Lemma srs_update_bounds_witness :
  let u := calculateNewSrsState sampleQuestion true 2 30 [0.5; 1; 3; 7; 14; 30] 4 in
  0 <= u_masteryScore u <= 100 /\
  Rmin 100 (60 + 1) <= u_masteryScore u /\
  u_correctStreak u = 2 + 1.
Proof.
  destruct (srs_update_bounds sampleQuestion true 2 30 [0.5; 1; 3; 7; 14; 30] 4)
    as (H1 & _ & H3); [simpl; lra | simpl; lra | lra |].
  destruct (H3 eq_refl) as (H4 & _ & H5 & _).
  cbv zeta. split; [exact H1|]. split; [exact H4|exact H5].
Defined.

(** ** The map view: the graph built from the questions *)

Lemma sumR_app l1 l2 : sumR (l1 ++ l2) = sumR l1 + sumR l2.
Proof. induction l1 as [|x l1 IH]; simpl; [lra|]. rewrite IH. lra. Qed.

Lemma nonEmpty_true s : nonEmpty s = true <-> s <> "".
Proof.
  unfold nonEmpty. destruct (String.eqb s "") eqn:E; simpl.
  - apply String.eqb_eq in E. split; [discriminate|congruence].
  - apply String.eqb_neq in E. tauto.
Qed.

(** The first pass, for either map: the entry of a non-empty key holds the
    sum of the weights and the number of the questions with that key, and
    there is an entry exactly when there is such a question. *)
Lemma groupData_lookup (key : Question -> string) questions k :
  k <> "" ->
  match foldl (fun m q => countQuestion (key q) (q_masteryScore q) m) ∅ questions !! k with
  | None => filter (fun q => key q = k) questions = []
  | Some d =>
      filter (fun q => key q = k) questions <> [] /\
      masterySum d = sumR (map q_masteryScore (filter (fun q => key q = k) questions)) /\
      questionCount d = length (filter (fun q => key q = k) questions)
  end.
Proof.
  intros Hk. induction questions as [|q qs IH] using rev_ind.
  - simpl. rewrite lookup_empty. reflexivity.
  - rewrite foldl_snoc, filter_app.
    set (m := foldl _ ∅ qs) in *. unfold countQuestion.
    destruct (nonEmpty (key q)) eqn:En.
    + destruct (decide (key q = k)) as [Heq|Hne].
      * rewrite Heq, lookup_insert_eq.
        rewrite (filter_cons_True (fun q => key q = k)) by exact Heq.
        rewrite filter_nil. split; [now destruct (filter _ qs)|].
        rewrite map_app, sumR_app, length_app. cbn [masterySum questionCount].
        destruct (m !! k) as [d|].
        -- destruct IH as (_ & Hs & Hc). cbn [from_option]. unfold Datatypes.id.
           rewrite Hs, Hc. simpl. split; [lra|lia].
        -- rewrite IH. simpl. split; [lra|lia].
      * rewrite lookup_insert_ne by exact Hne.
        rewrite (filter_cons_False (fun q => key q = k)) by exact Hne.
        rewrite filter_nil, app_nil_r. exact IH.
    + assert (Hne : key q <> k).
      { intros Heq. apply Hk. rewrite <- Heq.
        destruct (decide (key q = "")) as [|Hn]; [assumption|].
        apply nonEmpty_true in Hn. congruence. }
      rewrite (filter_cons_False (fun q => key q = k)) by exact Hne.
      rewrite filter_nil, app_nil_r. exact IH.
Qed.

Lemma addSubjectNode_built sd qs q subjects :
  (q_subject q <> "" -> is_Some (sd !! q_subject q)) ->
  subjectsBuilt sd qs subjects ->
  exists subjects', addSubjectNode sd q subjects = Some subjects' /\
    subjectsBuilt sd (qs ++ [q]) subjects'.
Proof.
  intros Hsd (Hnd & Hfrom & Hall). unfold addSubjectNode. cbv zeta.
  destruct (nonEmpty (q_subject q)) eqn:En; cbn [andb].
  - apply nonEmpty_true in En. destruct (Hsd En) as [d Hd].
    unfold hasNode. destruct (bool_decide _) eqn:Eh; cbn [negb].
    + apply bool_decide_eq_true in Eh. exists subjects. split; [reflexivity|].
      split; [exact Hnd|]. split.
      * intros n Hn. destruct (Hfrom n Hn) as (q0 & d0 & Hq0 & H0).
        exists q0, d0. split; [apply elem_of_app; auto|exact H0].
      * intros q0 Hq0 Hne. apply elem_of_app in Hq0 as [Hq0|Hq0]; [now apply Hall|].
        apply list_elem_of_singleton in Hq0 as ->. exact Eh.
    + apply bool_decide_eq_false in Eh. rewrite Hd. cbn [mbind option_bind].
      eexists. split; [reflexivity|]. split; [|split].
      * rewrite map_app. apply NoDup_app. split; [exact Hnd|]. split.
        -- intros x Hx Hx'. apply list_elem_of_singleton in Hx'. simpl in Hx'.
           subst x. contradiction.
        -- apply NoDup_singleton.
      * intros n Hn. apply elem_of_app in Hn as [Hn|Hn].
        -- destruct (Hfrom n Hn) as (q0 & d0 & Hq0 & H0).
           exists q0, d0. split; [apply elem_of_app; auto|exact H0].
        -- apply list_elem_of_singleton in Hn as ->. exists q, d.
           split; [apply elem_of_app; right; now apply list_elem_of_singleton|auto].
      * intros q0 Hq0 Hne. rewrite map_app, elem_of_app.
        apply elem_of_app in Hq0 as [Hq0|Hq0]; [left; now apply Hall|].
        apply list_elem_of_singleton in Hq0 as ->. right.
        now apply list_elem_of_singleton.
  - exists subjects. split; [reflexivity|]. split; [exact Hnd|]. split.
    + intros n Hn. destruct (Hfrom n Hn) as (q0 & d0 & Hq0 & H0).
      exists q0, d0. split; [apply elem_of_app; auto|exact H0].
    + intros q0 Hq0 Hne. apply elem_of_app in Hq0 as [Hq0|Hq0]; [now apply Hall|].
      apply list_elem_of_singleton in Hq0 as ->.
      apply nonEmpty_true in Hne. congruence.
Qed.

Lemma linksBuilt_more qs q linkSet finalLinks :
  linksBuilt qs linkSet finalLinks -> linksBuilt (qs ++ [q]) linkSet finalLinks.
Proof.
  intros (Hk & Hnd & Hfrom). split; [exact Hk|]. split; [exact Hnd|].
  intros l Hl. destruct (Hfrom l Hl) as (q0 & Hq0 & H0).
  exists q0. split; [apply elem_of_app; auto|exact H0].
Qed.

Lemma linksBuilt_add qs linkSet finalLinks l :
  linksBuilt qs linkSet finalLinks -> linkKey l ∉ linkSet ->
  (exists q, q ∈ qs /\
     (l = mkLink (subjectIdOf q) (topicIdOf q) /\ q_topic q <> ""
      \/ l = mkLink (topicIdOf q) (q_id q))) ->
  linksBuilt qs ({[linkKey l]} ∪ linkSet) (finalLinks ++ [l]).
Proof.
  intros (Hk & Hnd & Hfrom) Hnew Hl. split; [|split].
  - intros key. rewrite elem_of_union, elem_of_singleton, map_app, elem_of_app, Hk.
    simpl. rewrite list_elem_of_singleton. tauto.
  - rewrite map_app. apply NoDup_app. split; [exact Hnd|]. split.
    + intros x Hx Hx'. apply list_elem_of_singleton in Hx'. subst x.
      apply Hnew, Hk, Hx.
    + apply NoDup_singleton.
  - intros l0 Hl0. apply elem_of_app in Hl0 as [Hl0|Hl0]; [now apply Hfrom|].
    apply list_elem_of_singleton in Hl0 as ->. exact Hl.
Qed.

Lemma addTopicNode_built td qs q topics linkSet finalLinks :
  (q_topic q <> "" -> is_Some (td !! q_topic q)) ->
  topicsBuilt td qs topics -> linksBuilt qs linkSet finalLinks ->
  exists topics' linkSet' finalLinks',
    addTopicNode td q (topics, linkSet, finalLinks) = Some (topics', linkSet', finalLinks') /\
    topicsBuilt td (qs ++ [q]) topics' /\
    linksBuilt (qs ++ [q]) linkSet' finalLinks' /\ linkSet ⊆ linkSet'.
Proof.
  intros Htd (Hnd & Hfrom & Hall) Hlinks. unfold addTopicNode. cbv zeta.
  apply (linksBuilt_more qs q) in Hlinks.
  destruct (nonEmpty (q_topic q)) eqn:En; cbn [andb].
  - apply nonEmpty_true in En. destruct (Htd En) as [d Hd].
    unfold hasNode. destruct (bool_decide (topicIdOf q ∈ map n_id topics)) eqn:Eh;
      cbn [negb].
    + apply bool_decide_eq_true in Eh. exists topics, linkSet, finalLinks.
      split; [reflexivity|]. split; [|split; [exact Hlinks|reflexivity]].
      split; [exact Hnd|]. split.
      * intros n Hn. destruct (Hfrom n Hn) as (q0 & d0 & Hq0 & H0).
        exists q0, d0. split; [apply elem_of_app; auto|exact H0].
      * intros q0 Hq0 Hne. apply elem_of_app in Hq0 as [Hq0|Hq0]; [now apply Hall|].
        apply list_elem_of_singleton in Hq0 as ->. exact Eh.
    + apply bool_decide_eq_false in Eh. rewrite Hd. cbn [mbind option_bind].
      assert (Ht : topicsBuilt td (qs ++ [q]) (topics ++ [topicNode (topicIdOf q) d])).
      { split; [|split].
        * rewrite map_app. apply NoDup_app. split; [exact Hnd|]. split.
          -- intros x Hx Hx'. apply list_elem_of_singleton in Hx'. simpl in Hx'.
             subst x. contradiction.
          -- apply NoDup_singleton.
        * intros n Hn. apply elem_of_app in Hn as [Hn|Hn].
          -- destruct (Hfrom n Hn) as (q0 & d0 & Hq0 & H0).
             exists q0, d0. split; [apply elem_of_app; auto|exact H0].
          -- apply list_elem_of_singleton in Hn as ->. exists q, d.
             split; [apply elem_of_app; right; now apply list_elem_of_singleton|auto].
        * intros q0 Hq0 Hne. rewrite map_app, elem_of_app.
          apply elem_of_app in Hq0 as [Hq0|Hq0]; [left; now apply Hall|].
          apply list_elem_of_singleton in Hq0 as ->. right.
          now apply list_elem_of_singleton. }
      destruct (nonEmpty (subjectIdOf q)
                && negb (bool_decide (subjectIdOf q +:+ "-" +:+ topicIdOf q ∈ linkSet)))
        eqn:El.
      * apply andb_true_iff in El as [_ El]. apply negb_true_iff in El.
        apply bool_decide_eq_false in El.
        eexists _, _, _. split; [reflexivity|]. split; [exact Ht|]. split.
        -- apply (linksBuilt_add _ _ _ (mkLink (subjectIdOf q) (topicIdOf q)) Hlinks El).
           exists q. split; [apply elem_of_app; right; now apply list_elem_of_singleton|].
           left. auto.
        -- apply union_subseteq_r.
      * eexists _, _, _. split; [reflexivity|]. split; [exact Ht|].
        split; [exact Hlinks|reflexivity].
  - exists topics, linkSet, finalLinks.
    split; [reflexivity|]. split; [|split; [exact Hlinks|reflexivity]].
    split; [exact Hnd|]. split.
    + intros n Hn. destruct (Hfrom n Hn) as (q0 & d0 & Hq0 & H0).
      exists q0, d0. split; [apply elem_of_app; auto|exact H0].
    + intros q0 Hq0 Hne. apply elem_of_app in Hq0 as [Hq0|Hq0]; [now apply Hall|].
      apply list_elem_of_singleton in Hq0 as ->.
      apply nonEmpty_true in Hne. congruence.
Qed.

Lemma addQuestionNode_built qs q questionNodes linkSet finalLinks :
  linksBuilt (qs ++ [q]) linkSet finalLinks ->
  exists linkSet' finalLinks',
    addQuestionNode q (questionNodes, linkSet, finalLinks)
    = (questionNodes ++ [questionNode q], linkSet', finalLinks') /\
    linksBuilt (qs ++ [q]) linkSet' finalLinks' /\ linkSet ⊆ linkSet' /\
    linkKey (mkLink (topicIdOf q) (q_id q)) ∈ linkSet'.
Proof.
  intros Hlinks. unfold addQuestionNode. cbv zeta.
  change (topicIdOf q +:+ "-" +:+ q_id q) with (linkKey (mkLink (topicIdOf q) (q_id q))).
  assert (Hne : nonEmpty (topicIdOf q) = true) by reflexivity.
  rewrite Hne. cbn [andb].
  destruct (bool_decide (linkKey (mkLink (topicIdOf q) (q_id q)) ∈ linkSet)) eqn:El;
    cbn [negb].
  - apply bool_decide_eq_true in El. exists linkSet, finalLinks.
    split; [reflexivity|]. split; [exact Hlinks|]. split; [reflexivity|exact El].
  - apply bool_decide_eq_false in El. eexists _, _. split; [reflexivity|]. split.
    + apply (linksBuilt_add _ _ _ (mkLink (topicIdOf q) (q_id q)) Hlinks El).
      exists q. split; [apply elem_of_app; right; now apply list_elem_of_singleton|].
      right. reflexivity.
    + split; [apply union_subseteq_r|]. apply elem_of_union. left.
      now apply elem_of_singleton.
Qed.

Lemma groupData_present (key : Question -> string) questions q :
  q ∈ questions -> key q <> "" ->
  exists d,
    foldl (fun m q => countQuestion (key q) (q_masteryScore q) m) ∅ questions !! key q
    = Some d /\
    masterySum d
    = sumR (map q_masteryScore (filter (fun q0 => key q0 = key q) questions)) /\
    questionCount d = length (filter (fun q0 => key q0 = key q) questions) /\
    (0 < questionCount d)%nat.
Proof.
  intros Hin Hne. pose proof (groupData_lookup key questions (key q) Hne) as H.
  assert (Hq : q ∈ filter (fun q0 => key q0 = key q) questions).
  { apply list_elem_of_filter. auto. }
  destruct (foldl _ ∅ questions !! key q) as [d|].
  - destruct H as (_ & Hs & Hc). exists d. repeat split; try assumption.
    rewrite Hc. destruct (filter _ questions); [now apply elem_of_nil in Hq|simpl; lia].
  - rewrite H in Hq. now apply elem_of_nil in Hq.
Qed.

(** The second pass over a part [qs] of the questions never raises, and
    leaves the collections built as described. *)
Lemma build_fold all qs :
  (forall q, q ∈ qs -> q ∈ all) ->
  exists b,
    foldl (fun acc q =>
             b ← acc; addQuestion (buildSubjectData all) (buildTopicData all) b q)
          (Some (mkMapBuild [] [] [] ∅ [])) qs = Some b /\
    b_questionNodes b = map questionNode qs /\
    subjectsBuilt (buildSubjectData all) qs (b_subjectNodes b) /\
    topicsBuilt (buildTopicData all) qs (b_topicNodes b) /\
    linksBuilt qs (b_linkSet b) (b_finalLinks b) /\
    (forall q, q ∈ qs -> linkKey (mkLink (topicIdOf q) (q_id q)) ∈ b_linkSet b).
Proof.
  induction qs as [|q qs IH] using rev_ind; intros Hall.
  - eexists. split; [reflexivity|]. cbn. split; [reflexivity|].
    assert (Hnil : forall A (x : A), x ∈ @nil A -> False).
    { intros A x H. now apply elem_of_nil in H. }
    repeat split; try apply NoDup_nil_2; try (intros; exfalso; eauto; fail).
    intros H. now apply elem_of_empty in H.
  - destruct IH as (b & Hf & Hqn & Hs & Ht & Hl & Hk).
    { intros q0 Hq0. apply Hall, elem_of_app. auto. }
    assert (Hq : q ∈ all).
    { apply Hall, elem_of_app. right. now apply list_elem_of_singleton. }
    rewrite foldl_snoc, Hf. cbn [mbind option_bind]. unfold addQuestion.
    destruct (addSubjectNode_built (buildSubjectData all) qs q (b_subjectNodes b))
      as (subjects' & Hs1 & Hs2); [|exact Hs|].
    { intros Hne. destruct (groupData_present q_subject all q Hq Hne) as (d & Hd & _).
      unfold buildSubjectData. rewrite Hd. eauto. }
    destruct (addTopicNode_built (buildTopicData all) qs q (b_topicNodes b)
                (b_linkSet b) (b_finalLinks b))
      as (topics' & ls1 & fl1 & Ht1 & Ht2 & Hl1 & Hsub1); [|exact Ht|exact Hl|].
    { intros Hne. destruct (groupData_present q_topic all q Hq Hne) as (d & Hd & _).
      unfold buildTopicData. rewrite Hd. eauto. }
    destruct (addQuestionNode_built qs q (b_questionNodes b) ls1 fl1 Hl1)
      as (ls2 & fl2 & Hq1 & Hl2 & Hsub2 & Hk2).
    rewrite Hs1. cbn [mbind option_bind]. rewrite Ht1. cbn [mbind option_bind].
    rewrite Hq1. eexists. split; [reflexivity|].
    cbn [b_questionNodes b_subjectNodes b_topicNodes b_linkSet b_finalLinks].
    split; [now rewrite Hqn, map_app|]. split; [exact Hs2|]. split; [exact Ht2|].
    split; [exact Hl2|].
    intros q0 Hq0. apply elem_of_app in Hq0 as [Hq0|Hq0].
    + apply Hsub2, Hsub1, Hk, Hq0.
    + apply list_elem_of_singleton in Hq0 as ->. exact Hk2.
Qed.

Lemma log2_count (count : nat) : (0 < count)%nat -> 1 <= log2 (INR count + 1).
Proof.
  intros Hc. unfold log2.
  assert (H2 : 0 < ln 2) by (pose proof ln_lt_2; lra).
  assert (Hi : 1 <= INR count) by (apply (le_INR 1); lia).
  assert (Hl : ln 2 <= ln (INR count + 1)).
  { destruct (Req_dec_T (INR count + 1) 2) as [->|Hne]; [lra|].
    left. apply ln_increasing; lra. }
  apply Rmult_le_reg_r with (ln 2); [exact H2|].
  unfold Rdiv. rewrite Rmult_assoc, Rinv_l by lra. lra.
Qed.

Lemma avgMastery_mean d (qs : list Question) :
  masterySum d = sumR (map q_masteryScore qs) -> questionCount d = length qs ->
  (0 < questionCount d)%nat -> avgMastery d = meanMastery qs.
Proof.
  intros Hs Hc Hpos. unfold avgMastery, meanMastery.
  rewrite (proj2 (Nat.ltb_lt _ _) Hpos). now rewrite Hs, Hc.
Qed.

Lemma buildGraph_built questions :
  exists b,
    buildGraph questions
    = Some (b_subjectNodes b ++ b_topicNodes b ++ map questionNode questions,
            b_finalLinks b) /\
    subjectsBuilt (buildSubjectData questions) questions (b_subjectNodes b) /\
    topicsBuilt (buildTopicData questions) questions (b_topicNodes b) /\
    linksBuilt questions (b_linkSet b) (b_finalLinks b) /\
    (forall q, q ∈ questions -> linkKey (mkLink (topicIdOf q) (q_id q)) ∈ b_linkSet b).
Proof.
  destruct (build_fold questions questions) as (b & Hf & Hqn & Hs & Ht & Hl & Hk); [auto|].
  exists b. unfold buildGraph. rewrite Hf. cbn [mbind option_bind]. rewrite Hqn. auto.
Qed.

Lemma subjectNode_from questions q d :
  q ∈ questions -> q_subject q <> "" ->
  buildSubjectData questions !! q_subject q = Some d ->
  withSubject (q_subject q) questions <> [] /\
  avgMastery d = meanMastery (withSubject (q_subject q) questions) /\
  (0 < questionCount d)%nat.
Proof.
  intros Hin Hne Hd.
  destruct (groupData_present q_subject questions q Hin Hne) as (d' & Hd' & Hs & Hc & Hp).
  unfold buildSubjectData in Hd. rewrite Hd in Hd'. injection Hd' as <-.
  split; [|split; [now apply avgMastery_mean|exact Hp]].
  unfold withSubject. intros E. rewrite E in Hc. simpl in Hc. lia.
Qed.

Lemma topicNode_from questions q d :
  q ∈ questions -> q_topic q <> "" ->
  buildTopicData questions !! q_topic q = Some d ->
  withTopic (q_topic q) questions <> [] /\
  avgMastery d = meanMastery (withTopic (q_topic q) questions) /\
  (0 < questionCount d)%nat.
Proof.
  intros Hin Hne Hd.
  destruct (groupData_present q_topic questions q Hin Hne) as (d' & Hd' & Hs & Hc & Hp).
  unfold buildTopicData in Hd. rewrite Hd in Hd'. injection Hd' as <-.
  split; [|split; [now apply avgMastery_mean|exact Hp]].
  unfold withTopic. intros E. rewrite E in Hc. simpl in Hc. lia.
Qed.

(** X28. The nodes of the map view.  Building never raises.  The nodes are
    the subject nodes, then the topic nodes, then one node per question in
    input order.  There is exactly one subject node for every non-empty
    subject, with id [subject-] followed by the subject; its weight is the
    mean weight of the questions of the subject and its radius lies between
    14.5 and 22.  There is exactly one topic node for every topic id
    [topic-subject-topic] of a question with a non-empty topic; its weight
    is the mean weight of all the questions with that topic name, whatever
    their subject, and its radius lies between 10 and 16. *)
Theorem graph_nodes (questions : list Question) :
  exists subjects topics allLinks,
    buildGraph questions
    = Some (subjects ++ topics ++ map questionNode questions, allLinks) /\
    NoDup (map n_id subjects) /\ NoDup (map n_id topics) /\
    (forall q, q ∈ questions -> q_subject q <> "" ->
       subjectIdOf q ∈ map n_id subjects) /\
    (forall q, q ∈ questions -> q_topic q <> "" -> topicIdOf q ∈ map n_id topics) /\
    (forall n, n ∈ subjects ->
       exists s, s <> "" /\ withSubject s questions <> [] /\
         n_id n = "subject-" +:+ s /\ n_type n = "subject" /\
         n_masteryScore n = Some (meanMastery (withSubject s questions)) /\
         14.5 <= n_radius n <= 22) /\
    (forall n, n ∈ topics ->
       exists q, q ∈ questions /\ q_topic q <> "" /\
         n_id n = "topic-" +:+ q_subject q +:+ "-" +:+ q_topic q /\ n_type n = "topic" /\
         n_masteryScore n = Some (meanMastery (withTopic (q_topic q) questions)) /\
         10 <= n_radius n <= 16).
Proof.
  destruct (buildGraph_built questions)
    as (b & Hb & (Hnd1 & Hfrom1 & Hall1) & (Hnd2 & Hfrom2 & Hall2) & _).
  exists (b_subjectNodes b), (b_topicNodes b), (b_finalLinks b).
  split; [exact Hb|]. split; [exact Hnd1|]. split; [exact Hnd2|].
  split; [exact Hall1|]. split; [exact Hall2|]. split.
  - intros n Hn. destruct (Hfrom1 n Hn) as (q & d & Hq & Hne & Hd & ->).
    destruct (subjectNode_from questions q d Hq Hne Hd) as (Hw & Hm & Hp).
    exists (q_subject q). split; [exact Hne|]. split; [exact Hw|].
    split; [reflexivity|]. split; [reflexivity|]. split; [simpl; now rewrite Hm|].
    simpl. pose proof (log2_count _ Hp) as Hlog.
    unfold Rmin. destruct (Rle_dec _ _); lra.
  - intros n Hn. destruct (Hfrom2 n Hn) as (q & d & Hq & Hne & Hd & ->).
    destruct (topicNode_from questions q d Hq Hne Hd) as (Hw & Hm & Hp).
    exists q. split; [exact Hq|]. split; [exact Hne|].
    split; [reflexivity|]. split; [reflexivity|]. split; [simpl; now rewrite Hm|].
    simpl. pose proof (log2_count _ Hp) as Hlog.
    unfold Rmin. destruct (Rle_dec _ _); lra.
Qed.

(** X29. The links of the map view.  No two links have the same key
    [source-target]; every link goes from the subject id to the topic id of
    a question with a non-empty topic, or from the topic id of a question to
    the question; the target of every link is the id of a node; and for
    every question a link with the key of its topic id and its id is
    there. *)
Theorem graph_links (questions : list Question) :
  exists allNodes allLinks,
    buildGraph questions = Some (allNodes, allLinks) /\
    NoDup (map linkKey allLinks) /\
    (forall l, l ∈ allLinks ->
       l_target l ∈ map n_id allNodes /\
       exists q, q ∈ questions /\
         (l = mkLink (subjectIdOf q) (topicIdOf q) /\ q_topic q <> ""
          \/ l = mkLink (topicIdOf q) (q_id q))) /\
    (forall q, q ∈ questions ->
       exists l, l ∈ allLinks /\ linkKey l = linkKey (mkLink (topicIdOf q) (q_id q))).
Proof.
  destruct (buildGraph_built questions)
    as (b & Hb & _ & (_ & _ & Hall2) & (Hk & Hnd & Hfrom) & Hkeys).
  eexists _, _. split; [exact Hb|]. split; [exact Hnd|]. split.
  - intros l Hl. destruct (Hfrom l Hl) as (q & Hq & Hcase).
    split; [|exists q; auto].
    rewrite !map_app, !elem_of_app.
    destruct Hcase as [[-> Hne]| ->]; cbn [l_target].
    + right. left. now apply Hall2.
    + right. right. rewrite <- list_fmap_compose. apply list_elem_of_fmap.
      exists q. auto.
  - intros q Hq. apply Hkeys, Hk, list_elem_of_fmap in Hq as (l & Hl1 & Hl2).
    exists l. auto.
Qed.

Lemma sumR_between lo hi (l : list R) :
  (forall x, x ∈ l -> lo <= x <= hi) ->
  INR (length l) * lo <= sumR l <= INR (length l) * hi.
Proof.
  induction l as [|x l IH]; intros H; [simpl; lra|].
  assert (Hx : lo <= x <= hi) by (apply H, elem_of_cons; auto).
  assert (Hl : INR (length l) * lo <= sumR l <= INR (length l) * hi).
  { apply IH. intros y Hy. apply H, elem_of_cons. auto. }
  cbn [length sumR foldr]. fold (sumR l). rewrite S_INR. lra.
Qed.

Lemma meanMastery_between lo hi (qs : list Question) :
  qs <> [] -> (forall q, q ∈ qs -> lo <= q_masteryScore q <= hi) ->
  lo <= meanMastery qs <= hi.
Proof.
  intros Hne H. unfold meanMastery.
  pose proof (sumR_between lo hi (map q_masteryScore qs)) as Hs.
  rewrite length_map in Hs.
  assert (Hpos : 0 < INR (length qs)).
  { destruct qs; [contradiction|]. apply lt_0_INR. simpl. lia. }
  destruct Hs as [Hs1 Hs2].
  { intros x Hx. apply list_elem_of_fmap in Hx as (q & -> & Hq). now apply H. }
  split.
  - apply Rmult_le_reg_r with (INR (length qs)); [exact Hpos|].
    unfold Rdiv. rewrite Rmult_assoc, Rinv_l by lra. lra.
  - apply Rmult_le_reg_r with (INR (length qs)); [exact Hpos|].
    unfold Rdiv. rewrite Rmult_assoc, Rinv_l by lra. lra.
Qed.

(** X30. The weights of the map view stay in range: when the weight of
    every question lies between [lo] and [hi] (between 0 and 100, say),
    every node of the graph carries a weight, and it lies between [lo] and
    [hi]. *)
Theorem graph_weights_in_range (questions : list Question) (lo hi : R) :
  (forall q, q ∈ questions -> lo <= q_masteryScore q <= hi) ->
  exists allNodes allLinks,
    buildGraph questions = Some (allNodes, allLinks) /\
    forall n, n ∈ allNodes ->
      exists w, n_masteryScore n = Some w /\ lo <= w <= hi.
Proof.
  intros Hrange.
  destruct (buildGraph_built questions)
    as (b & Hb & (_ & Hfrom1 & _) & (_ & Hfrom2 & _) & _).
  eexists _, _. split; [exact Hb|]. intros n Hn.
  apply elem_of_app in Hn as [Hn|Hn]; [|apply elem_of_app in Hn as [Hn|Hn]].
  - destruct (Hfrom1 n Hn) as (q & d & Hq & Hne & Hd & ->).
    destruct (subjectNode_from questions q d Hq Hne Hd) as (Hw & Hm & _).
    eexists. split; [reflexivity|]. rewrite Hm.
    apply meanMastery_between; [exact Hw|].
    intros q0 Hq0. apply list_elem_of_filter in Hq0 as [_ Hq0]. now apply Hrange.
  - destruct (Hfrom2 n Hn) as (q & d & Hq & Hne & Hd & ->).
    destruct (topicNode_from questions q d Hq Hne Hd) as (Hw & Hm & _).
    eexists. split; [reflexivity|]. rewrite Hm.
    apply meanMastery_between; [exact Hw|].
    intros q0 Hq0. apply list_elem_of_filter in Hq0 as [_ Hq0]. now apply Hrange.
  - apply list_elem_of_fmap in Hn as (q & -> & Hq).
    eexists. split; [reflexivity|]. now apply Hrange.
Qed.

Lemma graph_weights_in_range_witness :
  exists allNodes allLinks,
    buildGraph twoSubjects = Some (allNodes, allLinks) /\
    forall n, n ∈ allNodes ->
      exists w, n_masteryScore n = Some w /\ 0 <= w <= 100.
Proof.
  apply (graph_weights_in_range twoSubjects 0 100).
  intros q Hq. unfold twoSubjects in Hq.
  apply elem_of_cons in Hq as [->|Hq]; [simpl; lra|].
  apply list_elem_of_singleton in Hq as ->. simpl. lra.
Defined.
